(** * Scriggo core: bytecode builder, template parser and expander

    A shallow embedding of [vm/builder.go] and [parser/parser.go], and the
    properties of the specification that are settled on it.

    Layout: the definitions come first (modules [VM], [VMX] and [VMAll]
    for the function builder, modules [Tpl] and [TplX] for the parser and
    the expander), the theorems follow (modules [VMFacts], [TplFacts],
    [VMXFacts] and [TplXFacts]). *)

From Stdlib Require Import ZArith Lia.
From stdpp Require Import base option list gmap strings.

Open Scope Z_scope.

#[local] Set Warnings "-register-all".

(** ** Outcome of code that may panic *)

(** A Go function that can [panic] returns [Panic msg]; otherwise [Ok v]. *)
Inductive res (A : Type) : Type :=
| Ok (a : A)
| Panic (msg : string).
Arguments Ok {A} a.
Arguments Panic {A} msg.

Definition res_bind {A B} (m : res A) (k : A → res B) : res B :=
  match m with
  | Ok a => k a
  | Panic s => Panic s
  end.

Notation "x ←! m ; k" := (res_bind m (λ x, k))
  (at level 100, m at next level, right associativity, only parsing).

(** ** Fixed-width integers *)

(** Go's conversions between integer types keep the low bits. *)
Definition to_uint8 (z : Z) : Z := z `mod` 256.
Definition to_int8 (z : Z) : Z := (z + 128) `mod` 256 - 128.
Definition to_uint32 (z : Z) : Z := z `mod` 2 ^ 32.

Module VM.

(** *** reflect.Kind *)

Inductive Kind :=
| Invalid | Bool
| Int | Int8 | Int16 | Int32 | Int64
| Uint | Uint8 | Uint16 | Uint32 | Uint64 | Uintptr
| Float32 | Float64 | Complex64 | Complex128
| Array | Chan | Func | Interface | Map | Ptr | Slice
| String | Struct | UnsafePointer.

(** The numeric value of a kind, in declaration order as in package
    [reflect]; [End] compares kinds with [<=]. *)
Definition kind_code (k : Kind) : positive :=
  match k with
  | Invalid => 1 | Bool => 2
  | Int => 3 | Int8 => 4 | Int16 => 5 | Int32 => 6 | Int64 => 7
  | Uint => 8 | Uint8 => 9 | Uint16 => 10 | Uint32 => 11 | Uint64 => 12
  | Uintptr => 13
  | Float32 => 14 | Float64 => 15 | Complex64 => 16 | Complex128 => 17
  | Array => 18 | Chan => 19 | Func => 20 | Interface => 21 | Map => 22
  | Ptr => 23 | Slice => 24
  | String => 25 | Struct => 26 | UnsafePointer => 27
  end%positive.

Definition code_kind (p : positive) : option Kind :=
  match p with
  | 1 => Some Invalid | 2 => Some Bool
  | 3 => Some Int | 4 => Some Int8 | 5 => Some Int16 | 6 => Some Int32
  | 7 => Some Int64
  | 8 => Some Uint | 9 => Some Uint8 | 10 => Some Uint16 | 11 => Some Uint32
  | 12 => Some Uint64 | 13 => Some Uintptr
  | 14 => Some Float32 | 15 => Some Float64 | 16 => Some Complex64
  | 17 => Some Complex128
  | 18 => Some Array | 19 => Some Chan | 20 => Some Func
  | 21 => Some Interface | 22 => Some Map | 23 => Some Ptr | 24 => Some Slice
  | 25 => Some String | 26 => Some Struct | 27 => Some UnsafePointer
  | _ => None
  end%positive.

(** [reflect.Kind] is an unsigned integer that starts at [Invalid = 0]. *)
Definition kind_num (k : Kind) : Z := Z.pos (kind_code k) - 1.

#[global] Instance Kind_eq_dec : EqDecision Kind.
Proof. solve_decision. Defined.

#[global] Program Instance Kind_countable : Countable Kind :=
  {| encode := kind_code; decode := code_kind |}.
Next Obligation. by intros []. Qed.

(** *** Register classes *)

Inductive Type_ := TypeInt | TypeFloat | TypeString | TypeIface.

#[global] Instance Type_eq_dec : EqDecision Type_.
Proof. solve_decision. Defined.

(** Modelled from the spec: [kindToType] is called by [builder.go] and is
    declared in a file that is not part of the sources at hand.  The
    specification gives the lowering table: all integer widths (signed and
    unsigned) collapse to [Int], both float widths to [Float], strings stay
    [String], every other type is [General].  [Uintptr] is an integer width
    ([Convert] lists it under [TypeInt]). *)
Definition kindToType (k : Kind) : Type_ :=
  match k with
  | Int | Int8 | Int16 | Int32 | Int64
  | Uint | Uint8 | Uint16 | Uint32 | Uint64 | Uintptr => TypeInt
  | Float32 | Float64 => TypeFloat
  | String => TypeString
  | _ => TypeIface
  end.

(** The [switch kindToType(kind)] that opens [NewRegister] and
    [allocRegister]. *)
Definition normKind (k : Kind) : Kind :=
  match kindToType k with
  | TypeInt => Int
  | TypeFloat => Float64
  | TypeString => String
  | TypeIface => Interface
  end.

(** *** Instructions and functions *)

(** [Operation] is a signed integer; the concrete opcode numbers live in a
    file that is not part of the sources, so the builder takes the table
    [opc : Opcode → Z] as an argument. *)
Inductive Opcode :=
| OpNone | OpGoto | OpSelector | OpSend | OpConcat
| OpAddInt | OpAddInt32 | OpAddInt16 | OpAddInt8 | OpAddFloat64 | OpAddFloat32
| OpSubInt | OpSubInt32 | OpSubInt16 | OpSubInt8 | OpSubFloat64 | OpSubFloat32
| OpSubInvInt | OpSubInvInt32 | OpSubInvInt16 | OpSubInvInt8
| OpSubInvFloat64 | OpSubInvFloat32
| OpMulInt | OpMulInt32 | OpMulInt16 | OpMulInt8 | OpMulFloat64 | OpMulFloat32
| OpDivInt | OpDivInt32 | OpDivInt16 | OpDivInt8
| OpDivUint64 | OpDivUint32 | OpDivUint16 | OpDivUint8
| OpDivFloat64 | OpDivFloat32
| OpRemInt | OpRemInt32 | OpRemInt16 | OpRemInt8
| OpRemUint64 | OpRemUint32 | OpRemUint16 | OpRemUint8.

Record Instruction := mkInstr { Op : Z; A : Z; B : Z; C : Z }.

(** [StackShift] is [[4]int8]. *)
Definition StackShift : Type := Z * Z * Z * Z.

(** A boxed value of the [General] pool (an [interface{}]); a [float64] is
    kept as its bit pattern, no arithmetic is done on constants. *)
Inductive iface :=
| INil
| IInt (z : Z)
| IFloat (bits : Z)
| IString (s : string).

Record ConstantPools := mkConstants {
  CInt : list Z;
  CFloat : list Z;
  CString : list string;
  CGeneral : list iface
}.

(** The fields of [ScrigoFunction] that the builder methods below touch. *)
Record ScrigoFunction := mkFn {
  RegNum : list Z;          (* [4]uint8 *)
  Constants : ConstantPools;
  Body : list Instruction
}.

(** A function as [NewScrigoFunction] leaves it: everything zero. *)
Definition emptyFn : ScrigoFunction :=
  {| RegNum := [0; 0; 0; 0];
     Constants := mkConstants [] [] [] [];
     Body := [] |}.

Record FunctionBuilder := mkBuilder {
  fn : ScrigoFunction;
  labels : list Z;                     (* []uint32 *)
  gotos : option (gmap Z Z);           (* nil after End *)
  maxRegs : gmap Kind Z;
  numRegs : gmap Kind Z;
  scopes : list (gmap string Z);
  scopeShifts : list StackShift
}.

Definition NewBuilder (f : ScrigoFunction) : FunctionBuilder :=
  {| fn := mkFn (RegNum f) (Constants f) [];
     labels := [];
     gotos := Some ∅;
     maxRegs := ∅;
     numRegs := ∅;
     scopes := [];
     scopeShifts := [] |}.

(** Record updates. *)
Definition set_fn (b : FunctionBuilder) (f : ScrigoFunction) :=
  mkBuilder f (labels b) (gotos b) (maxRegs b) (numRegs b) (scopes b)
    (scopeShifts b).
Definition set_labels (b : FunctionBuilder) (l : list Z) :=
  mkBuilder (fn b) l (gotos b) (maxRegs b) (numRegs b) (scopes b)
    (scopeShifts b).
Definition set_gotos (b : FunctionBuilder) (g : option (gmap Z Z)) :=
  mkBuilder (fn b) (labels b) g (maxRegs b) (numRegs b) (scopes b)
    (scopeShifts b).
Definition set_maxRegs (b : FunctionBuilder) (m : gmap Kind Z) :=
  mkBuilder (fn b) (labels b) (gotos b) m (numRegs b) (scopes b)
    (scopeShifts b).
Definition set_numRegs (b : FunctionBuilder) (m : gmap Kind Z) :=
  mkBuilder (fn b) (labels b) (gotos b) (maxRegs b) m (scopes b)
    (scopeShifts b).
Definition set_scopes (b : FunctionBuilder) (s : list (gmap string Z)) :=
  mkBuilder (fn b) (labels b) (gotos b) (maxRegs b) (numRegs b) s
    (scopeShifts b).
Definition set_scopeShifts (b : FunctionBuilder) (s : list StackShift) :=
  mkBuilder (fn b) (labels b) (gotos b) (maxRegs b) (numRegs b) (scopes b) s.

Definition set_Body (f : ScrigoFunction) (body : list Instruction) :=
  mkFn (RegNum f) (Constants f) body.
Definition set_RegNum (f : ScrigoFunction) (r : list Z) :=
  mkFn r (Constants f) (Body f).
Definition set_Constants (f : ScrigoFunction) (c : ConstantPools) :=
  mkFn (RegNum f) c (Body f).

(** Reading a Go map: a missing key reads as the zero value. *)
Definition regs_get (m : gmap Kind Z) (k : Kind) : Z := default 0 (m !! k).

(** *** Scopes and virtual stacks *)

Definition EnterStack (b : FunctionBuilder) : FunctionBuilder :=
  let scopeShift : StackShift :=
    (to_int8 (regs_get (numRegs b) Int),
     to_int8 (regs_get (numRegs b) Float64),
     to_int8 (regs_get (numRegs b) String),
     to_int8 (regs_get (numRegs b) Interface)) in
  set_scopeShifts b (scopeShifts b ++ [scopeShift]).

(** [scopeShifts[len-1]] panics on an empty slice. *)
Definition ExitStack (b : FunctionBuilder) : res FunctionBuilder :=
  match last (scopeShifts b) with
  | None => Panic "index out of range"
  | Some (s0, s1, s2, s3) =>
      let n := <[Interface := to_uint8 s3]>
               (<[String := to_uint8 s2]>
                (<[Float64 := to_uint8 s1]>
                 (<[Int := to_uint8 s0]> (numRegs b)))) in
      Ok (set_scopeShifts (set_numRegs b n) (removelast (scopeShifts b)))
  end.

Definition EnterScope (b : FunctionBuilder) : FunctionBuilder :=
  EnterStack (set_scopes b (scopes b ++ [∅])).

(** [scopes[:len-1]] panics on an empty slice. *)
Definition ExitScope (b : FunctionBuilder) : res FunctionBuilder :=
  match scopes b with
  | [] => Panic "slice bounds out of range"
  | _ => ExitStack (set_scopes b (removelast (scopes b)))
  end.

(** *** Register allocation *)

Definition allocRegister (kind : Kind) (reg : Z) (b : FunctionBuilder)
  : FunctionBuilder :=
  let kind := normKind kind in
  if decide (0 < reg) then
    let b1 :=
      match maxRegs b !! kind with
      | Some num =>
          if decide (num < to_uint8 reg)
          then set_maxRegs b (<[kind := to_uint8 reg]> (maxRegs b))
          else b
      | None => set_maxRegs b (<[kind := to_uint8 reg]> (maxRegs b))
      end in
    match numRegs b1 !! kind with
    | Some num =>
        if decide (num < to_uint8 reg)
        then set_numRegs b1 (<[kind := to_uint8 reg]> (numRegs b1))
        else b1
    | None => set_numRegs b1 (<[kind := to_uint8 reg]> (numRegs b1))
    end
  else b.

(** [NewRegister] returns the register and the updated builder. *)
Definition NewRegister (kind : Kind) (b : FunctionBuilder)
  : Z * FunctionBuilder :=
  let kind := normKind kind in
  let reg := to_int8 (to_int8 (regs_get (numRegs b) kind) + 1) in
  (reg, allocRegister kind reg b).

(** *** Constant pools *)

Definition MakeStringConstant (c : string) (b : FunctionBuilder)
  : res (Z * FunctionBuilder) :=
  let cs := Constants (fn b) in
  let r := Z.of_nat (length (CString cs)) in
  if decide (255 < r) then Panic "string refs limit reached"
  else
    let cs' := mkConstants (CInt cs) (CFloat cs) (CString cs ++ [c])
                 (CGeneral cs) in
    Ok (to_int8 r, set_fn b (set_Constants (fn b) cs')).

Definition MakeGeneralConstant (v : iface) (b : FunctionBuilder)
  : res (Z * FunctionBuilder) :=
  let cs := Constants (fn b) in
  let r := Z.of_nat (length (CGeneral cs)) in
  if decide (255 < r) then Panic "general refs limit reached"
  else
    let cs' := mkConstants (CInt cs) (CFloat cs) (CString cs)
                 (CGeneral cs ++ [v]) in
    Ok (to_int8 r, set_fn b (set_Constants (fn b) cs')).

Definition MakeFloatConstant (c : Z) (b : FunctionBuilder)
  : res (Z * FunctionBuilder) :=
  let cs := Constants (fn b) in
  let r := Z.of_nat (length (CFloat cs)) in
  if decide (255 < r) then Panic "float refs limit reached"
  else
    let cs' := mkConstants (CInt cs) (CFloat cs ++ [c]) (CString cs)
                 (CGeneral cs) in
    Ok (to_int8 r, set_fn b (set_Constants (fn b) cs')).

Definition MakeIntConstant (c : Z) (b : FunctionBuilder)
  : res (Z * FunctionBuilder) :=
  let cs := Constants (fn b) in
  let r := Z.of_nat (length (CInt cs)) in
  if decide (255 < r) then Panic "int refs limit reached"
  else
    let cs' := mkConstants (CInt cs ++ [c]) (CFloat cs) (CString cs)
                 (CGeneral cs) in
    Ok (to_int8 r, set_fn b (set_Constants (fn b) cs')).

Definition MakeInterfaceConstant (c : iface) (b : FunctionBuilder)
  : res (Z * FunctionBuilder) :=
  let cs := Constants (fn b) in
  let r := - Z.of_nat (length (CGeneral cs)) - 1 in
  if decide (r = -129) then Panic "interface refs limit reached"
  else
    let cs' := mkConstants (CInt cs) (CFloat cs) (CString cs)
                 (CGeneral cs ++ [c]) in
    Ok (to_int8 r, set_fn b (set_Constants (fn b) cs')).

(** *** Labels and addresses *)

Definition CurrentAddr (b : FunctionBuilder) : Z :=
  to_uint32 (Z.of_nat (length (Body (fn b)))).

Definition NewLabel (b : FunctionBuilder) : Z * FunctionBuilder :=
  let l := labels b ++ [0] in
  (to_uint32 (Z.of_nat (length l)), set_labels b l).

(** [labels[label-1]]: the index is computed on [uint32]. *)
Definition label_index (label : Z) : nat := Z.to_nat (to_uint32 (label - 1)).

Definition SetLabelAddr (label : Z) (b : FunctionBuilder)
  : res FunctionBuilder :=
  if decide (label_index label < length (labels b))%nat
  then Ok (set_labels b (<[label_index label := CurrentAddr b]> (labels b)))
  else Panic "index out of range".

Definition encodeAddr (v : Z) : Z * Z * Z :=
  (to_int8 (to_uint8 v),
   to_int8 (to_uint8 (Z.shiftr v 8)),
   to_int8 (to_uint8 (Z.shiftr v 16))).

(** Modelled from the spec: the decoder of a jump target belongs to the
    interpreter, which is not part of the sources.  The specification fixes
    the layout: little-endian over the operands, byte 0 from [A], byte 1 from
    [B], byte 2 from [C]. *)
Definition decodeAddr (a b c : Z) : Z :=
  Z.lor (to_uint8 a)
    (Z.lor (Z.shiftl (to_uint8 b) 8) (Z.shiftl (to_uint8 c) 16)).

(** *** Emission *)

Definition emit (i : Instruction) (b : FunctionBuilder) : FunctionBuilder :=
  set_fn b (set_Body (fn b) (Body (fn b) ++ [i])).

(** [if k { op = -op }]. *)
Definition flag (k : bool) (op : Z) : Z := if k then - op else op.

Section Emitters.

Context (opc : Opcode → Z).

Definition Nop (b : FunctionBuilder) : FunctionBuilder :=
  emit (mkInstr (opc OpNone) 0 0 0) b.

Definition Goto (label : Z) (b : FunctionBuilder) : res FunctionBuilder :=
  let in_ := mkInstr (opc OpGoto) 0 0 0 in
  if decide (0 < label) then
    if decide (to_uint32 (Z.of_nat (length (labels b))) < label)
    then Panic "bug!"
    else
      match labels b !! label_index label with
      | None => Panic "index out of range"
      | Some addr =>
          if decide (addr = 0) then
            match gotos b with
            | None => Panic "assignment to entry in nil map"
            | Some g =>
                Ok (emit in_ (set_gotos b (Some (<[CurrentAddr b := label]> g))))
            end
          else
            let '(a, b', c) := encodeAddr addr in
            Ok (emit (mkInstr (opc OpGoto) a b' c) b)
      end
  else Ok (emit in_ b).

Definition Add (k : bool) (x y z : Z) (kind : Kind) (b : FunctionBuilder)
  : res FunctionBuilder :=
  let b := allocRegister kind x b in
  let b := if k then b else allocRegister kind y b in
  let b := allocRegister kind z b in
  op ←! match kind with
        | Int | Int64 | Uint | Uint64 => Ok OpAddInt
        | Int32 | Uint32 => Ok OpAddInt32
        | Int16 | Uint16 => Ok OpAddInt16
        | Int8 | Uint8 => Ok OpAddInt8
        | Float64 => Ok OpAddFloat64
        | Float32 => Ok OpAddFloat32
        | _ => Panic "add: invalid type"
        end;
  Ok (emit (mkInstr (flag k (opc op)) x y z) b).

Definition Concat (s t z : Z) (b : FunctionBuilder) : FunctionBuilder :=
  let b := allocRegister Interface s b in
  let b := allocRegister Interface t b in
  let b := allocRegister Interface z b in
  emit (mkInstr (opc OpConcat) s t z) b.

Definition Div (ky : bool) (x y z : Z) (kind : Kind) (b : FunctionBuilder)
  : res FunctionBuilder :=
  let b := allocRegister kind x b in
  let b := allocRegister kind y b in
  let b := allocRegister kind z b in
  op ←! match kind with
        | Int | Int64 => Ok OpDivInt
        | Int32 => Ok OpDivInt32
        | Int16 => Ok OpDivInt16
        | Int8 => Ok OpDivInt8
        | Uint | Uint64 => Ok OpDivUint64
        | Uint32 => Ok OpDivUint32
        | Uint16 => Ok OpDivUint16
        | Uint8 => Ok OpDivUint8
        | Float64 => Ok OpDivFloat64
        | Float32 => Ok OpDivFloat32
        | _ => Panic "div: invalid type"
        end;
  Ok (emit (mkInstr (flag ky (opc op)) x y z) b).

Definition Mul (ky : bool) (x y z : Z) (kind : Kind) (b : FunctionBuilder)
  : res FunctionBuilder :=
  let b := allocRegister kind x b in
  let b := allocRegister kind y b in
  let b := allocRegister kind z b in
  op ←! match kind with
        | Int | Int64 | Uint | Uint64 => Ok OpMulInt
        | Int32 | Uint32 => Ok OpMulInt32
        | Int16 | Uint16 => Ok OpMulInt16
        | Int8 | Uint8 => Ok OpMulInt8
        | Float64 => Ok OpMulFloat64
        | Float32 => Ok OpMulFloat32
        | _ => Panic "mul: invalid type"
        end;
  Ok (emit (mkInstr (flag ky (opc op)) x y z) b).

Definition Rem (ky : bool) (x y z : Z) (kind : Kind) (b : FunctionBuilder)
  : res FunctionBuilder :=
  let b := allocRegister kind x b in
  let b := allocRegister kind y b in
  let b := allocRegister kind z b in
  op ←! match kind with
        | Int | Int64 => Ok OpRemInt
        | Int32 => Ok OpRemInt32
        | Int16 => Ok OpRemInt16
        | Int8 => Ok OpRemInt8
        | Uint | Uint64 => Ok OpRemUint64
        | Uint32 => Ok OpRemUint32
        | Uint16 => Ok OpRemUint16
        | Uint8 => Ok OpRemUint8
        | _ => Panic "rem: invalid type"
        end;
  Ok (emit (mkInstr (flag ky (opc op)) x y z) b).

Definition Selector (a field c : Z) (b : FunctionBuilder) : FunctionBuilder :=
  emit (mkInstr (opc OpSelector) a field c) b.

Definition Send (ch v : Z) (b : FunctionBuilder) : FunctionBuilder :=
  emit (mkInstr (opc OpSend) v 0 ch) b.

Definition Sub (k : bool) (x y z : Z) (kind : Kind) (b : FunctionBuilder)
  : res FunctionBuilder :=
  let b := allocRegister Int x b in
  let b := if k then b else allocRegister Int y b in
  let b := allocRegister Int z b in
  op ←! match kind with
        | Int | Int64 | Uint | Uint64 => Ok OpSubInt
        | Int32 | Uint32 => Ok OpSubInt32
        | Int16 | Uint16 => Ok OpSubInt16
        | Int8 | Uint8 => Ok OpSubInt8
        | Float64 => Ok OpSubFloat64
        | Float32 => Ok OpSubFloat32
        | _ => Panic "sub: invalid type"
        end;
  Ok (emit (mkInstr (flag k (opc op)) x y z) b).

Definition SubInv (k : bool) (x y z : Z) (kind : Kind) (b : FunctionBuilder)
  : res FunctionBuilder :=
  let b := allocRegister Int x b in
  let b := if k then b else allocRegister Int y b in
  let b := allocRegister Int z b in
  op ←! match kind with
        | Int | Int64 | Uint | Uint64 => Ok OpSubInvInt
        | Int32 | Uint32 => Ok OpSubInvInt32
        | Int16 | Uint16 => Ok OpSubInvInt16
        | Int8 | Uint8 => Ok OpSubInvInt8
        | Float64 => Ok OpSubInvFloat64
        | Float32 => Ok OpSubInvFloat32
        | _ => Panic "subInv: invalid type"
        end;
  Ok (emit (mkInstr (flag k (opc op)) x y z) b).

End Emitters.

(** *** Finalization *)

(** One iteration of the first loop of [End]: patch the jump at [addr]. *)
Definition patchGoto (lbls : list Z) (addr label : Z)
    (acc : res (list Instruction)) : res (list Instruction) :=
  body ←! acc;
  match body !! Z.to_nat addr with
  | None => Panic "index out of range"
  | Some i =>
      match lbls !! label_index label with
      | None => Panic "index out of range"
      | Some target =>
          let '(a, b, c) := encodeAddr target in
          Ok (<[Z.to_nat addr := mkInstr (Op i) a b c]> body)
      end
  end.

(** The index of [RegNum] selected by the [switch] of the second loop. *)
Definition regClass (kind : Kind) : nat :=
  if decide (kind_num Int ≤ kind_num kind ∧ kind_num kind ≤ kind_num Uint64)
  then 0%nat
  else if decide (kind = Float64 ∨ kind = Float32) then 1%nat
  else if decide (kind = String) then 2%nat
  else 3%nat.

(** One iteration of the second loop of [End]. *)
Definition commitReg (kind : Kind) (num : Z) (regnum : list Z) : list Z :=
  match regnum !! regClass kind with
  | Some cur =>
      if decide (cur < num) then <[regClass kind := num]> regnum else regnum
  | None => regnum
  end.

(** [End].  Go ranges over a map in an unspecified order; both loops reach
    the same result in every order (distinct addresses are patched
    independently, and the marks are maxima), [map_fold] fixes one. *)
Definition End_ (b : FunctionBuilder) : res FunctionBuilder :=
  body ←! map_fold (patchGoto (labels b)) (Ok (Body (fn b)))
            (default ∅ (gotos b));
  let regnum := map_fold commitReg (RegNum (fn b)) (maxRegs b) in
  Ok (set_gotos (set_fn b (mkFn regnum (Constants (fn b)) body)) None).

(** *** Call sequences

    "The behaviour of the builder is purely a function of the call
    sequence": a sequence of method calls is data, [run] replays it. *)

Inductive call :=
| CEnterScope | CExitScope | CEnterStack | CExitStack
| CNewRegister (kind : Kind)
| CNewLabel | CSetLabelAddr (label : Z) | CGoto (label : Z)
| CNop
| CAdd (k : bool) (x y z : Z) (kind : Kind)
| CSub (k : bool) (x y z : Z) (kind : Kind)
| CSubInv (k : bool) (x y z : Z) (kind : Kind)
| CMul (ky : bool) (x y z : Z) (kind : Kind)
| CDiv (ky : bool) (x y z : Z) (kind : Kind)
| CRem (ky : bool) (x y z : Z) (kind : Kind)
| CConcat (s t z : Z)
| CSelector (a field c : Z)
| CSend (ch v : Z)
| CMakeIntConstant (c : Z)
| CMakeFloatConstant (c : Z)
| CMakeStringConstant (c : string)
| CMakeGeneralConstant (v : iface)
| CMakeInterfaceConstant (v : iface).

Definition step (opc : Opcode → Z) (c : call) (b : FunctionBuilder)
  : res FunctionBuilder :=
  match c with
  | CEnterScope => Ok (EnterScope b)
  | CExitScope => ExitScope b
  | CEnterStack => Ok (EnterStack b)
  | CExitStack => ExitStack b
  | CNewRegister kind => Ok (NewRegister kind b).2
  | CNewLabel => Ok (NewLabel b).2
  | CSetLabelAddr label => SetLabelAddr label b
  | CGoto label => Goto opc label b
  | CNop => Ok (Nop opc b)
  | CAdd k x y z kind => Add opc k x y z kind b
  | CSub k x y z kind => Sub opc k x y z kind b
  | CSubInv k x y z kind => SubInv opc k x y z kind b
  | CMul ky x y z kind => Mul opc ky x y z kind b
  | CDiv ky x y z kind => Div opc ky x y z kind b
  | CRem ky x y z kind => Rem opc ky x y z kind b
  | CConcat s t z => Ok (Concat opc s t z b)
  | CSelector a field c => Ok (Selector opc a field c b)
  | CSend ch v => Ok (Send opc ch v b)
  | CMakeIntConstant c => r ←! MakeIntConstant c b; Ok r.2
  | CMakeFloatConstant c => r ←! MakeFloatConstant c b; Ok r.2
  | CMakeStringConstant c => r ←! MakeStringConstant c b; Ok r.2
  | CMakeGeneralConstant v => r ←! MakeGeneralConstant v b; Ok r.2
  | CMakeInterfaceConstant v => r ←! MakeInterfaceConstant v b; Ok r.2
  end.

Fixpoint run (opc : Opcode → Z) (cs : list call) (b : FunctionBuilder)
  : res FunctionBuilder :=
  match cs with
  | [] => Ok b
  | c :: cs => b' ←! step opc c b; run opc cs b'
  end.

(** The whole life of a builder: created on a fresh function, driven by
    [cs], finalized once. *)
Definition build (opc : Opcode → Z) (cs : list call) : res FunctionBuilder :=
  b ←! run opc cs (NewBuilder emptyFn); End_ b.

(** The operands of a call that name registers, each with the kind whose
    class it belongs to: the operand that a true [k] flag turns into a
    constant is not one of them.  [Selector] reads the general register [a];
    [Send] reads the channel, a general register. *)
Definition regOperands (c : call) : list (Kind * Z) :=
  match c with
  | CAdd k x y z kind | CSub k x y z kind | CSubInv k x y z kind
  | CMul k x y z kind | CDiv k x y z kind | CRem k x y z kind =>
      (kind, x) :: (if k then [] else [(kind, y)]) ++ [(kind, z)]
  | CConcat s t z => [(Interface, s); (Interface, t); (Interface, z)]
  | CSelector a _ _ => [(Interface, a)]
  | CSend ch _ => [(Interface, ch)]
  | _ => []
  end.

(** The committed high-water mark of the class of [kind]. *)
Definition highWaterMark (f : ScrigoFunction) (kind : Kind) : Z :=
  default 0 (RegNum f !! regClass (normKind kind)).

(** The invariant of the specification, for one call sequence: every
    register operand of every call is, in absolute value, at most the
    finalized mark of its class. *)
Definition operandsWithinMarks (opc : Opcode → Z) (cs : list call) : Prop :=
  ∀ b c kind r,
    build opc cs = Ok b → c ∈ cs → (kind, r) ∈ regOperands c →
    Z.abs r ≤ highWaterMark (fn b) kind.

(** [MakeInterfaceConstant] called once per element of [vs]; the returned
    indices are collected in call order. *)
Fixpoint makeInterfaceConstants (vs : list iface) (b : FunctionBuilder)
  : res (list Z * FunctionBuilder) :=
  match vs with
  | [] => Ok ([], b)
  | v :: vs =>
      r ←! MakeInterfaceConstant v b;
      rs ←! makeInterfaceConstants vs r.2;
      Ok (r.1 :: rs.1, rs.2)
  end.

(** *** The scenarios of the specification *)

(** An opcode numbering to run the scenarios with.  The real numbers are not
    in the sources; no result below depends on them. *)
Definition opcTable (o : Opcode) : Z :=
  match o with
  | OpNone => 0 | OpGoto => 1 | OpSelector => 2 | OpSend => 3 | OpConcat => 4
  | OpAddInt => 5 | OpAddInt32 => 6 | OpAddInt16 => 7 | OpAddInt8 => 8
  | OpAddFloat64 => 9 | OpAddFloat32 => 10
  | OpSubInt => 11 | OpSubInt32 => 12 | OpSubInt16 => 13 | OpSubInt8 => 14
  | OpSubFloat64 => 15 | OpSubFloat32 => 16
  | OpSubInvInt => 17 | OpSubInvInt32 => 18 | OpSubInvInt16 => 19
  | OpSubInvInt8 => 20 | OpSubInvFloat64 => 21 | OpSubInvFloat32 => 22
  | OpMulInt => 23 | OpMulInt32 => 24 | OpMulInt16 => 25 | OpMulInt8 => 26
  | OpMulFloat64 => 27 | OpMulFloat32 => 28
  | OpDivInt => 29 | OpDivInt32 => 30 | OpDivInt16 => 31 | OpDivInt8 => 32
  | OpDivUint64 => 33 | OpDivUint32 => 34 | OpDivUint16 => 35
  | OpDivUint8 => 36 | OpDivFloat64 => 37 | OpDivFloat32 => 38
  | OpRemInt => 39 | OpRemInt32 => 40 | OpRemInt16 => 41 | OpRemInt8 => 42
  | OpRemUint64 => 43 | OpRemUint32 => 44 | OpRemUint16 => 45
  | OpRemUint8 => 46
  end.

(** [EnterStack; r1 = NewRegister(Int); r2 = NewRegister(Int); ExitStack;
    r3 = NewRegister(Int); End()] on a fresh builder. *)
Definition registerReuse : res (Z * Z * Z * FunctionBuilder) :=
  let b := NewBuilder emptyFn in
  let b := EnterStack b in
  let '(r1, b) := NewRegister Int b in
  let '(r2, b) := NewRegister Int b in
  b ←! ExitStack b;
  let '(r3, b) := NewRegister Int b in
  b ←! End_ b;
  Ok (r1, r2, r3, b).

(** [lbl = NewLabel(); Goto(lbl); a = CurrentAddr(); Nop();
    SetLabelAddr(lbl); End()] on a fresh builder; the result is the address
    of the [Goto], the value [a] and the finalized builder. *)
Definition forwardJump (opc : Opcode → Z) : res (Z * Z * FunctionBuilder) :=
  let b := NewBuilder emptyFn in
  let '(lbl, b) := NewLabel b in
  let gotoAddr := CurrentAddr b in
  b ←! Goto opc lbl b;
  let a := CurrentAddr b in
  let b := Nop opc b in
  b ←! SetLabelAddr lbl b;
  b ←! End_ b;
  Ok (gotoAddr, a, b).

(** *** Statements about the marks *)

(** [m'] has every mark of [m], at least as high. *)
Definition marksLe (m m' : gmap Kind Z) : Prop :=
  ∀ k v, m !! k = Some v → ∃ v', m' !! k = Some v' ∧ v ≤ v'.

(** The mark of the normalized kind [nk] in [m] is at least [r]. *)
Definition covered (m : gmap Kind Z) (nk : Kind) (r : Z) : Prop :=
  ∃ v, m !! nk = Some v ∧ r ≤ v.

(** *** Statements about the constant pools *)

(** What the four [Make…Constant] methods have in common, for one of them:
    [make] appends to the pool that [pool] reads.  With [n] entries in the
    pool before the call: for [128 ≤ n ≤ 255] the call succeeds and returns
    [n - 256], a negative index, although the entry is stored at position
    [n]; the call succeeds whenever [n ≤ 255] and panics whenever
    [n > 255]. *)
Definition poolIndexWraps {A : Type}
    (make : A → FunctionBuilder → res (Z * FunctionBuilder))
    (pool : FunctionBuilder → list A) : Prop :=
  ∀ (c : A) (b : FunctionBuilder),
    let n := Z.of_nat (length (pool b)) in
    (128 ≤ n ≤ 255 →
       ∃ b', make c b = Ok (n - 256, b')
             ∧ pool b' = pool b ++ [c]
             ∧ pool b' !! length (pool b) = Some c
             ∧ -128 ≤ n - 256 < 0
             ∧ n - 256 ≠ n)
    ∧ (n ≤ 255 → ∃ r, make c b = Ok r)
    ∧ (255 < n → ∃ msg, make c b = Panic msg).

Definition intPool (b : FunctionBuilder) := CInt (Constants (fn b)).
Definition floatPool (b : FunctionBuilder) := CFloat (Constants (fn b)).
Definition stringPool (b : FunctionBuilder) := CString (Constants (fn b)).
Definition generalPool (b : FunctionBuilder) := CGeneral (Constants (fn b)).

(** A builder whose [Int] pool holds [n] zeros already. *)
Definition builderWithInts (n : nat) : FunctionBuilder :=
  NewBuilder (mkFn [0; 0; 0; 0] (mkConstants (replicate n 0) [] [] []) []).

End VM.

Module Tpl.

(** *** Contexts, positions, tokens *)

Inductive Context :=
| ContextNone | ContextText | ContextHTML | ContextCSS | ContextScript
| ContextAttribute | ContextUnquotedAttribute.

#[global] Instance Context_eq_dec : EqDecision Context.
Proof. solve_decision. Defined.

Definition Context_code (c : Context) : nat :=
  match c with
  | ContextNone => 0 | ContextText => 1 | ContextHTML => 2 | ContextCSS => 3
  | ContextScript => 4 | ContextAttribute => 5
  | ContextUnquotedAttribute => 6
  end%nat.

Definition code_Context (n : nat) : Context :=
  match n with
  | 0 => ContextNone | 1 => ContextText | 2 => ContextHTML | 3 => ContextCSS
  | 4 => ContextScript | 5 => ContextAttribute
  | _ => ContextUnquotedAttribute
  end%nat.

#[global] Instance Context_countable : Countable Context.
Proof. apply (inj_countable' Context_code code_Context). by intros []. Defined.

Record Position := mkPos { Line : Z; Column : Z; Start : Z; Stop : Z }.

#[global] Instance Position_eq_dec : EqDecision Position.
Proof. solve_decision. Defined.

(** [pos.End = tok.pos.End]. *)
Definition setStop (p : Position) (e : Z) : Position :=
  mkPos (Line p) (Column p) (Start p) e.

(** The token types that [parser.go] names. *)
Inductive tokenType :=
| tokenEOF | tokenText | tokenStartURL | tokenEndURL
| tokenStartStatement | tokenEndStatement | tokenStartValue | tokenEndValue
| tokenComment
| tokenFor | tokenIn | tokenRange | tokenBreak | tokenContinue
| tokenSwitch | tokenCase | tokenDefault | tokenFallthrough
| tokenLeftBraces | tokenRightBraces | tokenElse | tokenIf
| tokenInclude | tokenShow | tokenExtends | tokenImport | tokenMacro
| tokenEnd | tokenVar
| tokenSemicolon | tokenColon | tokenComma | tokenPeriod | tokenEllipses
| tokenIdentifier | tokenInterpretedString | tokenRawString
| tokenSimpleAssignment | tokenDeclaration
| tokenLeftParenthesis | tokenRightParenthesis
| tokenOther.

#[global] Instance tokenType_eq_dec : EqDecision tokenType.
Proof. solve_decision. Defined.

Record token := mkToken {
  typ : tokenType;
  pos : Position;
  txt : string;
  ctx : Context;
  lin : Z
}.

(** *** Expressions and nodes *)

(** The expression variants of package [ast]; operators are kept as their
    source text, a float literal as its digits. *)
Inductive Expression :=
| Identifier (name : string)
| IntLit (value : Z)
| FloatLit (digits : string)
| StringLit (text : string)
| UnaryOperator (op : string) (e : Expression)
| BinaryOperator (op : string) (e1 e2 : Expression)
| Call (f : Expression) (args : list Expression)
| Index (e i : Expression)
| Slicing (e : Expression) (low high : option Expression)
| Selector (e : Expression) (ident : string)
| Parenthesis (e : Expression).

(** [Cut] of a [Text] node. *)
Record Cut := mkCut { CutLeft : Z; CutRight : Z }.

(** The nodes.  A [Tree] is a node too (it is the root ancestor of the
    parser); [Then] of an [If] is a [Block], kept as the block's nodes; the
    cases of a switch are [NCase] nodes; [Extends], [Import] and [Include]
    carry the tree that expansion attaches, [None] before. *)
Inductive Node :=
| NTree (path : string) (nodes : list Node) (c : Context)
| NText (text : string) (cut : Cut)
| NURL (tag attr : string) (value : list Node)
| NValue (e : Expression) (c : Context)
| NComment (text : string)
| NExpr (e : Expression)
| NIf (p : Position) (cond : Expression) (then_ : list Node)
      (else_ : option Node)
| NBlock (nodes : list Node)
| NFor (body : list Node)
| NForRange (body : list Node)
| NSwitch (cases : list Node)
| NTypeSwitch (cases : list Node)
| NCase (p : Position) (expressions : option (list Expression))
        (body : list Node) (fallthrough : bool)
| NMacro (name : string) (body : list Node)
| NShowMacro (name : string)
| NExtends (p : Position) (path : string) (c : Context) (tree : option Node)
| NImport (p : Position) (path : string) (c : Context) (tree : option Node)
| NInclude (p : Position) (path : string) (c : Context) (tree : option Node).

Definition isText (n : Node) : bool :=
  match n with NText _ _ => true | _ => false end.

(** *** Errors *)

(** An argument of a [fmt.Errorf] call; a message is the format string with
    its arguments, formatting itself belongs to package [fmt]. *)
Inductive fmtArg :=
| AStr (s : string)
| AQuoted (s : string)
| ATok (t : token)
| AExpr (e : Expression)
| APos (p : Position).

Record message := Errorf { format : string; args : list fmtArg }.

Inductive error :=
| ErrInvalidPath
| ErrNotExist
| ErrReadTooLarge
| SyntaxError (path : string) (p : Position) (err : message)   (* *Error *)
| CycleError (chain : string)
| PlainError (err : message).

Definition nl : string := String (Ascii.ascii_of_nat 10) EmptyString.
Definition tab : string := String (Ascii.ascii_of_nat 9) EmptyString.

(** [CycleError.Error]. *)
Definition cycleText (chain : string) : string :=
  "cycle not allowed" +:+ nl +:+ chain.

(** [containsOnlySpaces]: space, tab, newline and carriage return. *)
Fixpoint containsOnlySpaces (bytes : string) : bool :=
  match bytes with
  | EmptyString => true
  | String b rest =>
      let n := Ascii.nat_of_ascii b in
      if bool_decide (n ≠ 32 ∧ n ≠ 9 ∧ n ≠ 10 ∧ n ≠ 13)%nat then false
      else containsOnlySpaces rest
  end.

(** *** The parser

    [parseStatement] panics with an [*Error] on a violation and
    [ParseSource] recovers it into the returned error: [Fail].  Any other
    panic is [GoPanic].  The statements kinds that are not embedded here
    give [Unmodelled]; no theorem speaks about them. *)

Inductive outcome (A : Type) : Type :=
| Done (a : A)
| Fail (e : error)
| GoPanic (msg : string)
| Unmodelled.
Arguments Done {A} a.
Arguments Fail {A} e.
Arguments GoPanic {A} msg.
Arguments Unmodelled {A}.

Definition outcome_bind {A B} (m : outcome A) (k : A → outcome B)
  : outcome B :=
  match m with
  | Done a => k a
  | Fail e => Fail e
  | GoPanic s => GoPanic s
  | Unmodelled => Unmodelled
  end.

Notation "x ←? m ; k" := (outcome_bind m (λ x, k))
  (at level 100, m at next level, right associativity, only parsing).

(** The parsing state.  The lexer's channel is the list of the tokens still
    to come.  [ancestors] holds the open containers from the root to the
    parent; in Go they are pointers into one tree, here each ancestor is the
    node with the children it has received itself, and the entry that its
    own parent keeps for it is the node as it was when it was opened: the
    checks of the parser read the kind of a node and the length of a child
    list, never the children of a node that is still open further up. *)
Record parsing := mkParsing {
  lex : list token;
  lexErr : option error;
  isExtended : bool;
  isInMacro : bool;
  cutSpacesToken : bool;
  pctx : Context;
  ancestors : list Node;
  lastFallthroughTokenPos : Position
}.

Definition set_lex (p : parsing) (l : list token) :=
  mkParsing l (lexErr p) (isExtended p) (isInMacro p) (cutSpacesToken p)
    (pctx p) (ancestors p) (lastFallthroughTokenPos p).
Definition set_isExtended (p : parsing) (v : bool) :=
  mkParsing (lex p) (lexErr p) v (isInMacro p) (cutSpacesToken p)
    (pctx p) (ancestors p) (lastFallthroughTokenPos p).
Definition set_cutSpacesToken (p : parsing) (v : bool) :=
  mkParsing (lex p) (lexErr p) (isExtended p) (isInMacro p) v
    (pctx p) (ancestors p) (lastFallthroughTokenPos p).
Definition set_ancestors (p : parsing) (a : list Node) :=
  mkParsing (lex p) (lexErr p) (isExtended p) (isInMacro p)
    (cutSpacesToken p) (pctx p) a (lastFallthroughTokenPos p).

(** The state [ParseSource] starts from: the empty tree is the only
    ancestor. *)
Definition newParsing (src : list token) (c : Context) : parsing :=
  mkParsing src None false false false c [NTree EmptyString [] c] (mkPos 0 0 0 0).

(** [next]: on a closed channel it panics, with the error of the lexer if
    there is one; [ParseSource] recovers that panic only if the error is an
    [Error] of the parser. *)
Definition next (p : parsing) : outcome (token * parsing) :=
  match lex p with
  | t :: rest => Done (t, set_lex p rest)
  | [] =>
      match lexErr p with
      | None => GoPanic "next called after EOF"
      | Some (SyntaxError path position m) =>
          Fail (SyntaxError path position m)
      | Some _ => GoPanic "lexer error"
      end
  end.

Definition isCase (n : Node) : bool :=
  match n with NCase _ _ _ _ => true | _ => false end.

(** Appends [node] to the body of the last case of [cases]. *)
Definition addToLastCase (cases : list Node) (node : Node)
  : outcome (list Node) :=
  match last cases with
  | Some (NCase p es body ft) =>
      Done (removelast cases ++ [NCase p es (body ++ [node]) ft])
  | _ => GoPanic "index out of range"
  end.

Definition addChild (parent node : Node) : outcome Node :=
  match parent with
  | NTree path nodes c => Done (NTree path (nodes ++ [node]) c)
  | NURL tag attr value => Done (NURL tag attr (value ++ [node]))
  | NMacro name body => Done (NMacro name (body ++ [node]))
  | NFor body => Done (NFor (body ++ [node]))
  | NForRange body => Done (NForRange (body ++ [node]))
  | NIf p cond then_ else_ =>
      match else_ with
      | Some _ => GoPanic "child already added to if node"
      | None => Done (NIf p cond then_ (Some node))
      end
  | NBlock nodes => Done (NBlock (nodes ++ [node]))
  | NSwitch cases =>
      if isCase node then Done (NSwitch (cases ++ [node]))
      else cases' ←? addToLastCase cases node; Done (NSwitch cases')
  | NTypeSwitch cases =>
      if isCase node then Done (NTypeSwitch (cases ++ [node]))
      else cases' ←? addToLastCase cases node; Done (NTypeSwitch cases')
  | _ => GoPanic "template/parser: unexpected parent node"
  end.

(** [addChild(parent, node)] where [parent] is the last ancestor. *)
Definition addToParent (p : parsing) (node : Node) : outcome parsing :=
  match last (ancestors p) with
  | None => GoPanic "index out of range"
  | Some parent =>
      parent' ←? addChild parent node;
      Done (set_ancestors p (removelast (ancestors p) ++ [parent']))
  end.

(** A nil slice is [None]; [len] and [range] read it as empty. *)
Definition sliceOf {A} (s : option (list A)) : list A := default [] s.

(** The test that closes most statements:
    [(p.ctx == ContextNone && tok.typ != t) ||
     (p.ctx != ContextNone && tok.typ != tokenEndStatement)]. *)
Definition badEnd (p : parsing) (tok : token) (t : tokenType) : bool :=
  (bool_decide (pctx p = ContextNone) && bool_decide (typ tok ≠ t))
  || (bool_decide (pctx p ≠ ContextNone)
      && bool_decide (typ tok ≠ tokenEndStatement)).

(** The loop over the expressions of a case of a type switch: the error of
    the first expression that is refused, if there is one. *)
Fixpoint typeSwitchCaseCheck (tokpos : Position) (es : list Expression)
  : option error :=
  match es with
  | [] => None
  | e :: es =>
      match e with
      | Identifier name =>
          if bool_decide (name = "true" ∨ name = "false")
          then Some (SyntaxError EmptyString tokpos
                       (Errorf "%s (type bool) is not a type" [AStr name]))
          else typeSwitchCaseCheck tokpos es
      | IntLit _ =>
          Some (SyntaxError EmptyString tokpos
                  (Errorf "%s (type int) is not a type" [AExpr e]))
      | FloatLit _ =>
          Some (SyntaxError EmptyString tokpos
                  (Errorf "%s (type float) is not a type" [AExpr e]))
      | StringLit _ =>
          Some (SyntaxError EmptyString tokpos
                  (Errorf "%s (type string) is not a type" [AExpr e]))
      | _ =>
          Some (SyntaxError EmptyString tokpos (Errorf "%s is not a type" [AExpr e]))
      end
  end.

Definition isTypeSwitch (n : Node) : bool :=
  match n with NTypeSwitch _ => true | _ => false end.

(** The [tokenCase] branch from the return of [parseExprList] on:
    [expressions] and [tok] are what it returned, [pos] is the position of
    the statement. *)
Definition finishCase (p : parsing) (parent : Node) (pos : Position)
    (expressions : option (list Expression)) (tok : token)
  : outcome parsing :=
  if badEnd p tok tokenColon
  then Fail (SyntaxError EmptyString (Tpl.pos tok)
               (Errorf "unexpected %s, expecting %%}" [ATok tok]))
  else
    let pos := setStop pos (Stop (Tpl.pos tok)) in
    match (if isTypeSwitch parent
           then typeSwitchCaseCheck (Tpl.pos tok) (sliceOf expressions)
           else None) with
    | Some e => Fail e
    | None => addToParent p (NCase pos expressions [] false)
    end.

Section Parser.

(** The collaborators that live outside [parser.go]: the expression parser
    (it takes the pending token, the four flags and the lexer, and returns
    the expressions, the token that ends them and the lexer), the method
    [parseSwitch] (it returns the switch node and the lexer), and the two
    path helpers. *)
Context (parseExprList :
           option token → bool → bool → bool → bool → list token →
           outcome (option (list Expression) * token * list token)).
Context (parseSwitch : parsing → Position → outcome (Node * list token)).
Context (unquoteString : string → string) (validPath : string → bool).

Definition parseStatement (p : parsing) (tok : token) : outcome parsing :=
  let pos := Tpl.pos tok in
  r ←? (if bool_decide (pctx p ≠ ContextNone) then next p
                else Done (tok, p));
  let '(tok, p) := r in
  match last (ancestors p) with
  | None => GoPanic "index out of range"
  | Some parent =>
    let l : Z :=
      match parent with
      | NSwitch cases | NTypeSwitch cases => Z.of_nat (length cases)
      | _ => -1
      end in
    if bool_decide (l = 0)
       && bool_decide (typ tok ≠ tokenCase ∧ typ tok ≠ tokenDefault
                       ∧ typ tok ≠ tokenEnd)
    then Fail (SyntaxError EmptyString (Tpl.pos tok)
                 (Errorf "unexpected %s, expecting case of default or {%% end %%}"
                    [ATok tok]))
    else
    match typ tok with

    | tokenSwitch =>
        r ←? parseSwitch p pos;
        let '(node, rest) := r in
        p ←? addToParent (set_lex p rest) node;
        Done (set_cutSpacesToken (set_ancestors p (ancestors p ++ [node]))
                true)

    | tokenCase =>
        match parent with
        | NSwitch _ | NTypeSwitch _ =>
            r ←? parseExprList None false false false false (lex p);
            let '(expressions, tok, rest) := r in
            finishCase (set_lex p rest) parent pos expressions tok
        | _ => Fail (SyntaxError EmptyString (Tpl.pos tok) (Errorf "unexpected case" []))
        end

    | tokenIf =>
        let ifPos := Tpl.pos tok in
        r ←? parseExprList None true false false true (lex p);
        let '(expressions, tok, rest) := r in
        let p := set_lex p rest in
        match sliceOf expressions with
        | [] => Fail (SyntaxError EmptyString (Tpl.pos tok)
                        (Errorf "unexpected %s, expecting expression"
                           [ATok tok]))
        | expr :: more =>
            if bool_decide (more ≠ [] ∨ typ tok = tokenSimpleAssignment
                            ∨ typ tok = tokenDeclaration)
            then Unmodelled      (* parseAssignment *)
            else if badEnd p tok tokenLeftBraces
            then Fail (SyntaxError EmptyString (Tpl.pos tok)
                         (Errorf "unexpected %s, expecting %%}" [ATok tok]))
            else
              let pos := setStop pos (Stop (Tpl.pos tok)) in
              let then_ := NBlock [] in
              let ifPos :=
                match parent with NIf _ _ _ _ => ifPos | _ => pos end in
              let node := NIf ifPos expr [] None in
              p ←? addToParent p node;
              Done (set_cutSpacesToken
                      (set_ancestors p (ancestors p ++ [node; then_])) true)
        end

    | tokenExtends =>
        if bool_decide (pctx p = ContextNone)
        then Fail (SyntaxError EmptyString (Tpl.pos tok)
                     (Errorf "extends statement not in template" []))
        else if isExtended p
        then Fail (SyntaxError EmptyString (Tpl.pos tok)
                     (Errorf "extends already exists" []))
        else
        match ancestors p with
        | NTree _ nodes _ :: _ =>
            if match nodes with
               | [] => false
               | first :: others =>
                   negb (isText first) || bool_decide (others ≠ [])
               end
            then Fail (SyntaxError EmptyString (Tpl.pos tok)
                         (Errorf "extends can only be the first statement" []))
            else
            match (if bool_decide (ctx tok ≠ pctx p) then
                     match ctx tok with
                     | ContextAttribute | ContextUnquotedAttribute =>
                         Some "extends inside an attribute value"
                     | ContextScript => Some "extends inside a script tag"
                     | ContextCSS => Some "extends inside a style tag"
                     | _ => None
                     end
                   else None) with
            | Some m => Fail (SyntaxError EmptyString (Tpl.pos tok) (Errorf m []))
            | None =>
                r ←? next p;
                let '(tok, p) := r in
                if bool_decide (typ tok ≠ tokenInterpretedString
                                ∧ typ tok ≠ tokenRawString)
                then Fail (SyntaxError EmptyString (Tpl.pos tok)
                             (Errorf "unexpected %s, expecting string"
                                [ATok tok]))
                else
                  let path := unquoteString (txt tok) in
                  if negb (validPath path)
                  then Fail (SyntaxError EmptyString (Tpl.pos tok)
                               (Errorf "invalid extends path %q"
                                  [AQuoted path]))
                  else
                    r ←? next p;
                    let '(tok, p) := r in
                    if bool_decide (typ tok ≠ tokenEndStatement)
                    then Fail (SyntaxError EmptyString (Tpl.pos tok)
                                 (Errorf "unexpected %s, expecting %%}"
                                    [ATok tok]))
                    else
                      let pos := setStop pos (Stop (Tpl.pos tok)) in
                      p ←? addToParent p (NExtends pos path (ctx tok) None);
                      Done (set_isExtended p true)
            end
        | _ => GoPanic "interface conversion: ast.Node is not *ast.Tree"
        end

    | _ => Unmodelled
    end
  end.

(** One turn of the loop of [ParseSource] in a template context, for the
    token [tok] just received: the [switch] on the type of the token.  The
    line variables of the loop and the call of [cutSpaces] that opens a
    turn are added in [TplX.parseTokenInLine]. *)
Definition parseToken (p : parsing) (tok : token) : outcome parsing :=
  match last (ancestors p) with
  | None => GoPanic "index out of range"
  | Some parent =>
    match typ tok with
    | tokenEOF =>
        if bool_decide (1 < length (ancestors p))%nat
        then Fail (SyntaxError EmptyString (Tpl.pos tok)
                     (Errorf "unexpected EOF, expecting {%% end %%}" []))
        else Done p
    | tokenText =>
        let text := NText (txt tok) (mkCut 0 0) in
        match parent with
        | NSwitch cases =>
            match last cases with
            | None =>
                if containsOnlySpaces (txt tok) then Done p
                else Fail (SyntaxError EmptyString (Tpl.pos tok)
                             (Errorf "unexpected text, expecting case of default or {%% end %%}" []))
            | Some (NCase _ _ _ true) =>
                if containsOnlySpaces (txt tok) then Done p
                else Fail (SyntaxError EmptyString (lastFallthroughTokenPos p)
                             (Errorf "fallthrough statement out of place" []))
            | Some _ => addToParent p text
            end
        | _ => addToParent p text
        end
    | tokenStartStatement => parseStatement p tok
    | tokenComment =>
        let n := String.length (txt tok) in
        p ←? addToParent p (NComment (String.substring 2 (n - 4) (txt tok)));
        Done (set_cutSpacesToken p true)
    | tokenStartURL | tokenEndURL | tokenStartValue => Unmodelled
    | _ => Fail (SyntaxError EmptyString (Tpl.pos tok)
                   (Errorf "unexpected %s" [ATok tok]))
    end
  end.

(** [for tok := range p.lex.tokens]: the loop ends when the channel is
    closed.  Every turn takes at least one token, so [fuel] at least the
    number of tokens is enough. *)
Fixpoint parseLoop (fuel : nat) (p : parsing) : outcome parsing :=
  match lex p with
  | [] => Done p
  | tok :: rest =>
      match fuel with
      | O => Unmodelled
      | S fuel =>
          p ←? parseToken (set_lex p rest) tok;
          parseLoop fuel p
      end
  end.

(** [ParseSource] in a template context, on the tokens that the lexer
    produces for the source. *)
Definition ParseSource (src : list token) (c : Context)
  : outcome Node :=
  if bool_decide (c = ContextText ∨ c = ContextHTML ∨ c = ContextCSS
                  ∨ c = ContextScript)
  then
    p ←? parseLoop (length src) (newParsing src c);
    match lexErr p, ancestors p with
    | Some e, _ => Fail e
    | None, tree :: _ => Done tree
    | None, [] => GoPanic "index out of range"
    end
  else if bool_decide (c = ContextNone) then Unmodelled
  else Fail (PlainError (Errorf "template/parser: invalid context. Valid contexts are None, Text, HTML, CSS and Script" [])).

End Parser.

(** *** Statements about the parser *)

(** A type-like case expression for the parser: an identifier other than
    [true] and [false]. *)
Definition isTypeName (e : Expression) : bool :=
  match e with
  | Identifier name => negb (bool_decide (name = "true" ∨ name = "false"))
  | _ => false
  end.

(** The literals that the specification lists: boolean, int, float and
    string. *)
Definition isListedLiteral (e : Expression) : bool :=
  match e with
  | Identifier name => bool_decide (name = "true" ∨ name = "false")
  | IntLit _ | FloatLit _ | StringLit _ => true
  | _ => false
  end.

(** The reading of the specification: in a type switch, a case whose
    expressions are none of the listed literals is accepted. *)
Definition unlistedCasesAccepted : Prop :=
  ∀ (tokpos : Position) (es : list Expression),
    Forall (λ e, isListedLiteral e = false) es →
    typeSwitchCaseCheck tokpos es = None.

Definition hasNonText (nodes : list Node) : bool :=
  existsb (λ n, negb (isText n)) nodes.

Definition rootNodes (p : parsing) : list Node :=
  match ancestors p with
  | NTree _ nodes _ :: _ => nodes
  | _ => []
  end.

Definition openSwitchWithoutCases (n : Node) : bool :=
  match n with
  | NSwitch [] | NTypeSwitch [] => true
  | _ => false
  end.

(** The reading of the specification for [extends], on a parser
    [parseStatement]: whenever the statement read is an [extends], the file
    has no [extends] yet and the tree already holds a node that is not text,
    the statement is refused as not being the first. *)
Definition extendsAfterNodeRefusedAsNotFirst
    (parseStatement : parsing → token → outcome parsing) : Prop :=
  ∀ p tok0 tok rest,
    pctx p ≠ ContextNone → isExtended p = false →
    lex p = tok :: rest → typ tok = tokenExtends →
    hasNonText (rootNodes p) = true →
    ∃ path position,
      parseStatement p tok0 =
        Fail (SyntaxError path position
                (Errorf "extends can only be the first statement" [])).

(** *** Sample collaborators and sources *)

(** An expression parser for single identifiers: it returns the identifier
    at the head of the tokens and the token after it, or no expression and
    the head token. *)
Definition identExprList (tok0 : option token) (f1 f2 f3 f4 : bool)
    (l : list token)
  : outcome (option (list Expression) * token * list token) :=
  match l with
  | t :: e :: rest =>
      if bool_decide (typ t = tokenIdentifier)
      then Done (Some [Identifier (txt t)], e, rest)
      else Done (None, t, e :: rest)
  | [t] => Done (None, t, [])
  | [] => GoPanic "next called after EOF"
  end.

(** A [parseSwitch] for [switch x]: an expression switch without cases. *)
Definition identSwitch (p : parsing) (pos : Position)
  : outcome (Node * list token) :=
  match lex p with
  | t :: e :: rest =>
      if bool_decide (typ t = tokenIdentifier ∧ typ e = tokenEndStatement)
      then Done (NSwitch [], rest)
      else Fail (SyntaxError EmptyString (Tpl.pos e)
                   (Errorf "unexpected %s, expecting %%}" [ATok e]))
  | _ => GoPanic "next called after EOF"
  end.

(** The text between the quotes of a string token. *)
Definition stripQuotes (s : string) : string :=
  String.substring 1 (String.length s - 2) s.

Definition anyPath (s : string) : bool := true.

Definition tk (t : tokenType) (s : string) (start : Z) : token :=
  mkToken t (mkPos 1 (start + 1) start (start + Z.of_nat (String.length s) - 1))
    s ContextHTML 1.

(** [{% if x %}{% extends "/base" %}]. *)
Definition ifThenExtends : list token :=
  [ tk tokenStartStatement "{%" 0; tk tokenIf "if" 3;
    tk tokenIdentifier "x" 6; tk tokenEndStatement "%}" 8;
    tk tokenStartStatement "{%" 10; tk tokenExtends "extends" 13;
    tk tokenRawString "`/base`" 21; tk tokenEndStatement "%}" 29;
    tk tokenEOF EmptyString 31 ].

(** [{% extends "/base" %}{% extends "/other" %}]. *)
Definition extendsTwice : list token :=
  [ tk tokenText " " 0;
    tk tokenStartStatement "{%" 1; tk tokenExtends "extends" 4;
    tk tokenRawString "`/base`" 12; tk tokenEndStatement "%}" 20;
    tk tokenStartStatement "{%" 22; tk tokenExtends "extends" 25;
    tk tokenRawString "`/other`" 33; tk tokenEndStatement "%}" 42;
    tk tokenEOF EmptyString 44 ].

(** [{% switch x %}{% extends "/base" %}]. *)
Definition switchThenExtends : list token :=
  [ tk tokenStartStatement "{%" 0; tk tokenSwitch "switch" 3;
    tk tokenIdentifier "x" 10; tk tokenEndStatement "%}" 12;
    tk tokenStartStatement "{%" 14; tk tokenExtends "extends" 17;
    tk tokenRawString "`/base`" 25; tk tokenEndStatement "%}" 33;
    tk tokenEOF EmptyString 35 ].

(** The state in which [{% if x %}] at the start of a file leaves the
    parser, with [extends "/base" %}] still to come. *)
Definition openIfState : parsing :=
  let node := NIf (mkPos 1 1 0 9) (Identifier "x") [] None in
  mkParsing
    [ tk tokenExtends "extends" 13; tk tokenRawString "`/base`" 21;
      tk tokenEndStatement "%}" 29; tk tokenEOF EmptyString 31 ]
    None false false true ContextHTML
    [NTree EmptyString [node] ContextHTML; node; NBlock []]
    (mkPos 0 0 0 0).

Definition sampleParse (src : list token) : outcome Node :=
  ParseSource identExprList identSwitch stripQuotes anyPath src ContextHTML.

(** *** The tree cache *)

Record TreeData := mkTree {
  TPath : string;
  TNodes : list Node;
  TCtx : Context
}.

Definition treeNode (t : TreeData) : Node :=
  NTree (TPath t) (TNodes t) (TCtx t).

(** Modelled from the spec: the cache itself is not part of the sources
    (only its test is).  This is its contract as one caller at a time sees
    it: [Get] returns a completed tree if there is one; if the key is
    reserved it waits for the reservation to be released, which nobody will
    do when the caller is alone ([GetBlocked]); otherwise it reserves the key
    for the caller and reports absence.  [Add] stores the tree, [Done]
    releases the reservation. *)
Record cache := mkCache {
  completed : gmap (string * Context) TreeData;
  reserved : gset (string * Context)
}.

Definition emptyCache : cache := mkCache ∅ ∅.

Inductive getResult :=
| GetHit (t : TreeData)
| GetMiss (c : cache)
| GetBlocked.

Definition cacheGet (c : cache) (path : string) (x : Context) : getResult :=
  match completed c !! (path, x) with
  | Some t => GetHit t
  | None =>
      if bool_decide ((path, x) ∈ reserved c) then GetBlocked
      else GetMiss (mkCache (completed c) ({[ (path, x) ]} ∪ reserved c))
  end.

Definition cacheAdd (c : cache) (path : string) (x : Context)
    (t : TreeData) : cache :=
  mkCache (<[(path, x) := t]> (completed c)) (reserved c).

Definition cacheDone (c : cache) (path : string) (x : Context) : cache :=
  mkCache (completed c) (reserved c ∖ {[ (path, x) ]}).

(** *** The expander *)

(** What a call of the expander can come to: a value, a returned error, a
    wait that never ends, a run-time panic, or the end of the fuel that
    bounds the depth of the recursion through the reader. *)
Inductive xres (A : Type) : Type :=
| XOk (a : A)
| XErr (e : error)
| XBlocked
| XPanic (msg : string)
| XOutOfFuel.
Arguments XOk {A} a.
Arguments XErr {A} e.
Arguments XBlocked {A}.
Arguments XPanic {A} msg.
Arguments XOutOfFuel {A}.

(** The expansion state; the reader is fixed and is kept apart. *)
Record expansion := mkExpansion {
  trees : cache;
  paths : list string
}.

Definition xbind {A B} (m : expansion * xres A)
    (k : expansion → A → expansion * xres B) : expansion * xres B :=
  match m with
  | (pp, XOk a) => k pp a
  | (pp, XErr e) => (pp, XErr e)
  | (pp, XBlocked) => (pp, XBlocked)
  | (pp, XPanic s) => (pp, XPanic s)
  | (pp, XOutOfFuel) => (pp, XOutOfFuel)
  end.

(** [strings.LastIndex(s, "/")], scanning from position [i] with the last
    match so far in [acc]. *)
Fixpoint lastIndexSlashFrom (i : Z) (acc : Z) (s : string) : Z :=
  match s with
  | EmptyString => acc
  | String c rest =>
      lastIndexSlashFrom (i + 1)
        (if Ascii.eqb c (Ascii.ascii_of_nat 47) then i else acc) rest
  end.

Definition lastIndexSlash (s : string) : Z := lastIndexSlashFrom 0 (-1) s.

(** [s[0] == '/'] and [s[1:]] on a non-empty string. *)
Definition headIsSlash (s : string) : bool :=
  match s with
  | String c _ => Ascii.eqb c (Ascii.ascii_of_nat 47)
  | EmptyString => false
  end.

Definition dropHead (s : string) : string :=
  match s with
  | String _ rest => rest
  | EmptyString => EmptyString
  end.

(** The error that a directive returns when [parsePath] failed with
    [err]. *)
Definition directiveError (notExistFormat cyclePrefix : string)
    (p : Position) (npath absPath : string) (err : error) : error :=
  match err with
  | ErrInvalidPath =>
      PlainError (Errorf "invalid path %q at %s" [AQuoted npath; APos p])
  | ErrNotExist => SyntaxError EmptyString p (Errorf notExistFormat [AQuoted absPath])
  | CycleError chain => CycleError (cyclePrefix +:+ chain)
  | _ => err
  end.

(** An [Error] whose [Path] is still empty gets [path]. *)
Definition fillPath (path : string) (err : error) : error :=
  match err with
  | SyntaxError EmptyString p m => SyntaxError path p m
  | _ => err
  end.

Section Expander.

(** [toAbsolutePath] is declared outside [parser.go]; the reader is the
    interface that the parser consumes. *)
Context (toAbsolutePath : string → string → error + string).
Context (read : string → Context → error + TreeData).

Definition abs (pp : expansion) (path : string) : xres string :=
  match path with
  | EmptyString => XPanic "index out of range"
  | _ =>
      if headIsSlash path then
        match toAbsolutePath "/" (dropHead path) with
        | inl e => XErr e
        | inr a => XOk a
        end
      else
        match last (paths pp) with
        | None => XPanic "index out of range"
        | Some parent =>
            let dir := String.substring 0 (Z.to_nat (lastIndexSlash parent + 1))
                         parent in
            match toAbsolutePath dir path with
            | inl e => XErr e
            | inr a => XOk a
            end
        end
  end.

Section ExpandNodes.

(** [pp.parsePath], the recursion through it is closed below. *)
Context (parsePath : expansion → string → Context →
                     expansion * xres TreeData).

(** The cases [Extends], [Import] and [Include] after their own checks:
    resolve the path, parse it, and give the tree to attach. *)
Definition attach (notExistFormat cyclePrefix : string) (pp : expansion)
    (p : Position) (npath : string) (nctx : Context)
  : expansion * xres (option Node) :=
  match abs pp npath with
  | XOk absPath =>
      match parsePath pp absPath nctx with
      | (pp, XOk t) => (pp, XOk (Some (treeNode t)))
      | (pp, XErr err) =>
          (pp, XErr (directiveError notExistFormat cyclePrefix p npath
                       absPath err))
      | (pp, XBlocked) => (pp, XBlocked)
      | (pp, XPanic s) => (pp, XPanic s)
      | (pp, XOutOfFuel) => (pp, XOutOfFuel)
      end
  | XErr e => (pp, XErr e)
  | XBlocked => (pp, XBlocked)
  | XPanic s => (pp, XPanic s)
  | XOutOfFuel => (pp, XOutOfFuel)
  end.

(** One turn of the loop of [expand]: the node with the trees attached
    below it. *)
Fixpoint expandNode (pp : expansion) (n : Node) {struct n}
  : expansion * xres Node :=
  let expandNodes :=
    fix go (pp : expansion) (ns : list Node) {struct ns}
      : expansion * xres (list Node) :=
      match ns with
      | [] => (pp, XOk [])
      | m :: ms =>
          xbind (expandNode pp m) (λ pp m',
          xbind (go pp ms) (λ pp ms', (pp, XOk (m' :: ms'))))
      end in
  let expandCases :=
    fix go (pp : expansion) (cs : list Node) {struct cs}
      : expansion * xres (list Node) :=
      match cs with
      | [] => (pp, XOk [])
      | NCase p es body ft :: cs' =>
          xbind (expandNodes pp body) (λ pp body',
          xbind (go pp cs') (λ pp cs'',
            (pp, XOk (NCase p es body' ft :: cs''))))
      | c :: cs' =>
          xbind (go pp cs') (λ pp cs'', (pp, XOk (c :: cs'')))
      end in
  match n with
  | NIf p cond then_ else_ =>
      xbind (expandNodes pp then_) (λ pp then',
        match else_ with
        | Some (NIf _ _ _ _ as e) =>
            xbind (expandNode pp e) (λ pp e',
              (pp, XOk (NIf p cond then' (Some e'))))
        | Some (NBlock ns) =>
            xbind (expandNodes pp ns) (λ pp ns',
              (pp, XOk (NIf p cond then' (Some (NBlock ns')))))
        | _ => (pp, XOk (NIf p cond then' else_))
        end)
  | NFor body =>
      xbind (expandNodes pp body) (λ pp body', (pp, XOk (NFor body')))
  | NForRange body =>
      xbind (expandNodes pp body) (λ pp body', (pp, XOk (NForRange body')))
  | NSwitch cases =>
      xbind (expandCases pp cases) (λ pp cases', (pp, XOk (NSwitch cases')))
  | NTypeSwitch cases =>
      xbind (expandCases pp cases) (λ pp cases',
        (pp, XOk (NTypeSwitch cases')))
  | NMacro name body =>
      xbind (expandNodes pp body) (λ pp body', (pp, XOk (NMacro name body')))
  | NExtends p npath nctx _ =>
      if bool_decide (1 < length (paths pp))%nat
      then (pp, XErr (SyntaxError EmptyString p
                        (Errorf "extended, imported and included paths can not have extends" [])))
      else
        xbind (attach "extends path %q does not exist" "imports " pp p npath
                 nctx)
          (λ pp t, (pp, XOk (NExtends p npath nctx t)))
  | NImport p npath nctx _ =>
      xbind (attach "import path %q does not exist" "imports " pp p npath
               nctx)
        (λ pp t, (pp, XOk (NImport p npath nctx t)))
  | NInclude p npath nctx _ =>
      xbind (attach "included path %q does not exist" "include " pp p npath
               nctx)
        (λ pp t, (pp, XOk (NInclude p npath nctx t)))
  | _ => (pp, XOk n)
  end.

(** [expand]: the nodes in order, stopping at the first error. *)
Fixpoint expand (pp : expansion) (nodes : list Node) (x : Context)
  : expansion * xres (list Node) :=
  match nodes with
  | [] => (pp, XOk [])
  | n :: ns =>
      xbind (expandNode pp n) (λ pp n',
      xbind (expand pp ns x) (λ pp ns', (pp, XOk (n' :: ns'))))
  end.

End ExpandNodes.

(** [defer pp.trees.done(path, ctx)]. *)
Definition deferDone {A} (path : string) (x : Context)
    (r : expansion * xres A) : expansion * xres A :=
  (mkExpansion (cacheDone (trees r.1) path x) (paths r.1), r.2).

Fixpoint parsePath (fuel : nat) (pp : expansion) (path : string)
    (x : Context) {struct fuel} : expansion * xres TreeData :=
  match fuel with
  | O => (pp, XOutOfFuel)
  | S fuel =>
      if bool_decide (path ∈ paths pp) then (pp, XErr (CycleError path))
      else
        match cacheGet (trees pp) path x with
        | GetHit t => (pp, XOk t)
        | GetBlocked => (pp, XBlocked)
        | GetMiss c =>
            let pp := mkExpansion c (paths pp) in
            deferDone path x
              match read path x with
              | inl err => (pp, XErr err)
              | inr t =>
                  let pp := mkExpansion (trees pp) (paths pp ++ [path]) in
                  match expand (parsePath fuel) pp (TNodes t) x with
                  | (pp, XOk nodes) =>
                      let t := mkTree path nodes (TCtx t) in
                      let pp := mkExpansion (trees pp)
                                  (removelast (paths pp)) in
                      (mkExpansion (cacheAdd (trees pp) path x t) (paths pp),
                       XOk t)
                  | (pp, XErr err) => (pp, XErr (fillPath path err))
                  | (pp, XBlocked) => (pp, XBlocked)
                  | (pp, XPanic s) => (pp, XPanic s)
                  | (pp, XOutOfFuel) => (pp, XOutOfFuel)
                  end
              end
        end
  end.

(** [Parser.Parse]; the parser is its cache, which the call returns
    updated. *)
Definition Parse (fuel : nat) (c : cache) (path : string) (x : Context)
  : cache * xres TreeData :=
  match path with
  | EmptyString => (c, XErr ErrInvalidPath)
  | _ =>
      let path := if headIsSlash path then dropHead path else path in
      match toAbsolutePath "/" path with
      | inl err => (c, XErr err)
      | inr path =>
          match parsePath fuel (mkExpansion c []) path x with
          | (pp, XOk t) => (trees pp, XOk t)
          | (pp, XErr err) =>
              (trees pp,
               XErr match err with
                    | SyntaxError EmptyString p m => SyntaxError path p m
                    | SyntaxError _ _ _ => err
                    | CycleError chain =>
                        CycleError (path +:+ nl +:+ tab +:+ chain)
                    | _ => err
                    end)
          | (pp, XBlocked) => (trees pp, XBlocked)
          | (pp, XPanic s) => (trees pp, XPanic s)
          | (pp, XOutOfFuel) => (trees pp, XOutOfFuel)
          end
      end
  end.

End Expander.

(** [strings.Contains(s, sub)]. *)
Fixpoint contains (s sub : string) : bool :=
  String.prefix sub s
  || match s with
     | EmptyString => false
     | String _ rest => contains rest sub
     end.

(** *** The cycle scenario: [/a] includes [/b], [/b] includes [/a] *)

(** The reading of the specification: the result is a cycle error whose
    text names both [/a] and [/b]. *)
Definition cycleTextNamesBothPaths (r : xres TreeData) : Prop :=
  ∃ chain, r = XErr (CycleError chain)
           ∧ contains (cycleText chain) "/a" = true
           ∧ contains (cycleText chain) "/b" = true.

Definition cycleRead (path : string) (x : Context) : error + TreeData :=
  if bool_decide (path = "/a")
  then inr (mkTree EmptyString [NInclude (mkPos 1 1 0 18) "/b" x None] x)
  else if bool_decide (path = "/b")
  then inr (mkTree EmptyString [NInclude (mkPos 1 1 0 18) "/a" x None] x)
  else inl ErrNotExist.

(** A stand-in for [toAbsolutePath] on paths that need no cleaning. *)
Definition joinPath (dir path : string) : error + string :=
  inr (dir +:+ path).

End Tpl.

(** ** More of the builder *)

Module VMX.
Import VM.

(** *** Names and scopes *)

(** [BindVarReg]: [scopes[len-1][name] = reg]. *)
Definition BindVarReg (name : string) (reg : Z) (b : FunctionBuilder)
  : res FunctionBuilder :=
  match last (scopes b) with
  | None => Panic "index out of range"
  | Some top =>
      Ok (set_scopes b (removelast (scopes b) ++ [<[name := reg]> top]))
  end.

(** The loop [for i := len(scopes) - 1; i >= 0; i--] of [IsVariable] and
    [ScopeLookup], on the first [i] scopes: the register of [n] in the
    innermost of them that binds it. *)
Fixpoint scanScopes (frames : list (gmap string Z)) (i : nat) (n : string)
  : option Z :=
  match i with
  | O => None
  | S j =>
      match frames !! j with
      | Some frame =>
          match frame !! n with
          | Some reg => Some reg
          | None => scanScopes frames j n
          end
      | None => scanScopes frames j n
      end
  end.

Definition IsVariable (n : string) (b : FunctionBuilder) : bool :=
  bool_decide (is_Some (scanScopes (scopes b) (length (scopes b)) n)).

Definition ScopeLookup (n : string) (b : FunctionBuilder) : res Z :=
  match scanScopes (scopes b) (length (scopes b)) n with
  | Some reg => Ok reg
  | None => Panic ("bug: " +:+ n +:+ " not found")
  end.

(** *** The table of types

    [AddType] and [Type] read and write [fn.Types] only; they are given the
    table and return it.  A [reflect.Type] is a value of a type with
    decidable equality. *)

Section Types.

Context {T : Type} `{EqDecision T}.

(** The index of the first entry equal to [typ], counting from [i]. *)
Fixpoint firstIndex (typ : T) (types : list T) (i : Z) : option Z :=
  match types with
  | [] => None
  | t :: ts =>
      if decide (t = typ) then Some i else firstIndex typ ts (i + 1)
  end.

(** The index of the last entry equal to [typ], counting from [i]: the loop
    of [Type] has no [break]. *)
Fixpoint lastIndex (typ : T) (types : list T) (i : Z) (found : option Z)
  : option Z :=
  match types with
  | [] => found
  | t :: ts =>
      lastIndex typ ts (i + 1) (if decide (t = typ) then Some i else found)
  end.

Definition AddType (typ : T) (types : list T) : res (Z * list T) :=
  let index := Z.of_nat (length types) in
  if decide (255 < index) then Panic "types limit reached"
  else
    match firstIndex typ types 0 with
    | Some i => Ok (to_uint8 i, types)
    | None => Ok (to_uint8 index, types ++ [typ])
    end.

Definition Type__ (typ : T) (types : list T) : res (Z * list T) :=
  match lastIndex typ types 0 None with
  | Some i => Ok (to_int8 i, types)
  | None =>
      if decide (length types = 256%nat) then Panic "types limit reached"
      else Ok (to_int8 (Z.of_nat (length types)), types ++ [typ])
  end.

End Types.

(** *** Statements *)

(** The calls that leave the stack of scopes and of shifts alone. *)
Definition flat (c : call) : bool :=
  match c with
  | CEnterScope | CExitScope | CEnterStack | CExitStack => false
  | _ => true
  end.

(** Call sequences in which every [EnterStack] has its [ExitStack] and
    every [EnterScope] its [ExitScope], properly nested. *)
Inductive balanced : list call → Prop :=
| balanced_nil : balanced []
| balanced_flat c cs : flat c = true → balanced cs → balanced (c :: cs)
| balanced_stack cs1 cs2 :
    balanced cs1 → balanced cs2 →
    balanced (CEnterStack :: cs1 ++ CExitStack :: cs2)
| balanced_scope cs1 cs2 :
    balanced cs1 → balanced cs2 →
    balanced (CEnterScope :: cs1 ++ CExitScope :: cs2).

Definition nonneg (m : gmap Kind Z) : Prop := ∀ k v, m !! k = Some v → 0 ≤ v.

(** A saved shift, read back as [ExitStack] reads it, is within the marks
    [m]. *)
Definition shiftWithin (m : gmap Kind Z) (s : StackShift) : Prop :=
  let '(s0, s1, s2, s3) := s in
  to_uint8 s0 ≤ regs_get m Int ∧ to_uint8 s1 ≤ regs_get m Float64
  ∧ to_uint8 s2 ≤ regs_get m String ∧ to_uint8 s3 ≤ regs_get m Interface.

(** The invariant of the register maps: counts and marks are values of
    [uint8], no count is above its mark, and neither is a saved count. *)
Definition regsInv (b : FunctionBuilder) : Prop :=
  nonneg (numRegs b) ∧ nonneg (maxRegs b)
  ∧ (∀ k, regs_get (numRegs b) k ≤ regs_get (maxRegs b) k)
  ∧ (∀ k, regs_get (maxRegs b) k ≤ 255)
  ∧ Forall (shiftWithin (maxRegs b)) (scopeShifts b).

(** The four register counts are values of [uint8]. *)
Definition countsInRange (b : FunctionBuilder) : Prop :=
  ∀ k, 0 ≤ regs_get (numRegs b) k ≤ 255.

(** The calls that append an instruction. *)
Definition emits (c : call) : bool :=
  match c with
  | CGoto _ | CNop | CAdd _ _ _ _ _ | CSub _ _ _ _ _ | CSubInv _ _ _ _ _
  | CMul _ _ _ _ _ | CDiv _ _ _ _ _ | CRem _ _ _ _ _ | CConcat _ _ _
  | CSelector _ _ _ | CSend _ _ => true
  | _ => false
  end.

(** The number of instructions that a call sequence appends. *)
Definition emitted (cs : list call) : nat :=
  sum_list_with (λ c, if emits c then 1%nat else 0%nat) cs.

(** The pending jumps of a builder are sound: each one is recorded at the
    address of an instruction of the body, for a label that exists. *)
Definition gotosValid (b : FunctionBuilder) : Prop :=
  ∃ g, gotos b = Some g
       ∧ ∀ addr label, g !! addr = Some label →
           0 ≤ addr
           ∧ (Z.to_nat addr < length (Body (fn b)))%nat
           ∧ (label_index label < length (labels b))%nat.

(** The instruction that [End] writes over [i] for a jump to [target]. *)
Definition patched (i : Instruction) (target : Z) : Instruction :=
  let '(a, b, c) := encodeAddr target in mkInstr (Op i) a b c.

(** What the four [Make…Constant] methods do below 128 entries, for one of
    them: the index returned is the position of the new entry, which holds
    the constant; the entries before it stay, and a second call with the
    same constant gets the next index. *)
Definition poolRoundTrip {A : Type}
    (make : A → FunctionBuilder → res (Z * FunctionBuilder))
    (pool : FunctionBuilder → list A) : Prop :=
  ∀ (c : A) (b : FunctionBuilder),
    (length (pool b) < 128)%nat →
    ∃ b', make c b = Ok (Z.of_nat (length (pool b)), b')
          ∧ pool b' = pool b ++ [c]
          ∧ pool b' !! length (pool b) = Some c
          ∧ ((length (pool b) < 127)%nat →
             ∃ b'', make c b' = Ok (Z.of_nat (length (pool b)) + 1, b'')
                    ∧ pool b'' !! S (length (pool b)) = Some c).

(** The marks are kept under the four kinds that [allocRegister] writes:
    every key is its own class. *)
Definition normKeys (m : gmap Kind Z) : Prop :=
  ∀ k, is_Some (m !! k) → normKind k = k.

End VMX.

(** ** Every emitter of the builder *)

Module VMAll.
Import VM VMX.

(** *** What the emitters take from other files *)

(** [reflect.Type] belongs to package [reflect]: values with an equality
    that can be tested and a kind, among them the types that [builder.go]
    names ([intType], [float64Type], [stringType] and the arguments of
    [reflect.TypeOf] in [Len]). *)
Class ReflectType (T : Type) := {
  reflectType_eq :: EqDecision T;
  typeKind : T → Kind;
  intType : T;
  float64Type : T;
  stringType : T;
  bytesType : T;
  stringsType : T;
  ifacesType : T;
  mapStringString : T;
  mapStringInt : T;
  mapStringIface : T
}.

(** The operators of package [ast] that [BinaryBitOperation] names; every
    other operator is [OperatorOther]. *)
Inductive OperatorType :=
| OperatorAnd | OperatorOr | OperatorXor | OperatorAndNot
| OperatorLeftShift | OperatorRightShift | OperatorOther.

(** The move types that [Move] names; their numbers are in a file that is
    not part of the sources. *)
Inductive MoveType :=
| IntInt | FloatFloat | StringString
| IntGeneral | FloatGeneral | StringGeneral | GeneralGeneral.

(** The opcodes of the emitters below; as for [Opcode], the numbers are an
    argument. *)
Inductive OpcodeMore :=
| OpAppend | OpAppendSlice
| OpAssert | OpAssertInt | OpAssertFloat64 | OpAssertString
| OpAnd | OpOr | OpXor | OpAndNot
| OpLeftShift | OpLeftShift8 | OpLeftShift16 | OpLeftShift32
| OpRightShift | OpRightShiftU
| OpBind | OpCall | OpCallNative | OpCallIndirect | OpCap | OpCase
| OpConvert | OpConvertUint | OpConvertInt | OpConvertString | OpConvertFloat
| OpCopy | OpDefer | OpDelete | OpRangeString | OpFunc | OpGetFunc | OpGetVar
| OpGo | OpIfInt | OpIfFloat | OpIfString
| OpIndex | OpSliceIndex | OpStringIndex | OpMapIndex
| OpLen | OpLoadNumber | OpMakeChan | OpMakeMap | OpMakeSlice | OpMove
| OpNew | OpPanic | OpPrint | OpReceive | OpRecover | OpReturn | OpSelect
| OpSetVar | OpSetMap | OpSetSlice | OpTailCall.

Section AllEmitters.

Context {T : Type} `{ReflectType T}.
Context (opc : Opcode → Z) (opm : OpcodeMore → Z) (mvt : MoveType → Z).

(** *** The builder with the tables of its function

    [core] is the builder as far as [VM] has it; [Types], [Literals] (each
    literal by its type) and [Lines] are the fields [fn.Types],
    [fn.Literals] and [fn.Lines] of the function under construction. *)
Record FullBuilder := mkFull {
  core : FunctionBuilder;
  Types : list T;
  Literals : list T;
  Lines : option (gmap Z Z)
}.

Definition NewFullBuilder (f : ScrigoFunction) : FullBuilder :=
  mkFull (NewBuilder f) [] [] None.

Definition set_core (b : FullBuilder) (c : FunctionBuilder) :=
  mkFull c (Types b) (Literals b) (Lines b).
Definition set_Types (b : FullBuilder) (t : list T) :=
  mkFull (core b) t (Literals b) (Lines b).
Definition set_Literals (b : FullBuilder) (l : list T) :=
  mkFull (core b) (Types b) l (Lines b).
Definition set_Lines (b : FullBuilder) (l : option (gmap Z Z)) :=
  mkFull (core b) (Types b) (Literals b) l.

(** [builder.allocRegister(kind, reg)]. *)
Definition alloc (kind : Kind) (reg : Z) (b : FullBuilder) : FullBuilder :=
  set_core b (allocRegister kind reg (core b)).

(** [fn.Body = append(fn.Body, i)]. *)
Definition appendInstr (i : Instruction) (b : FullBuilder) : FullBuilder :=
  set_core b (emit i (core b)).

(** [uint32(len(fn.Body) - n)]. *)
Definition bodyAddr (n : Z) (b : FullBuilder) : Z :=
  to_uint32 (Z.of_nat (length (Body (fn (core b)))) - n).

Definition AddLine (pc line : Z) (b : FullBuilder) : FullBuilder :=
  match Lines b with
  | None => set_Lines b (Some {[pc := line]})
  | Some l => set_Lines b (Some (<[pc := line]> l))
  end.

(** [Instruction{Op: Operation(shift[0]), A: shift[1], B: shift[2],
    C: shift[3]}]. *)
Definition shiftInstr (shift : StackShift) : Instruction :=
  let '(s0, s1, s2, s3) := shift in mkInstr s0 s1 s2 s3.

(** *** The emitters *)

Definition Append (first length s : Z) (b : FullBuilder) : FullBuilder :=
  let b := alloc Interface s b in
  appendInstr (mkInstr (opm OpAppend) first length s) b.

Definition AppendSlice (t s : Z) (b : FullBuilder) : FullBuilder :=
  let b := alloc Interface t b in
  let b := alloc Interface s b in
  appendInstr (mkInstr (opm OpAppendSlice) t 0 s) b.

Definition Assert (e : Z) (typ : T) (z : Z) (b : FullBuilder)
  : FullBuilder :=
  let b := alloc Interface e b in
  let '(op, tr, b) :=
    if decide (typ = intType) then
      (opm OpAssertInt, 0, alloc Int z b)
    else if decide (typ = float64Type) then
      (opm OpAssertFloat64, 0, alloc Float64 z b)
    else if decide (typ = stringType) then
      (opm OpAssertString, 0, alloc String z b)
    else
      let b := alloc Interface z b in
      match lastIndex typ (Types b) 0 None with
      | Some i => (opm OpAssert, to_int8 i, b)
      | None =>
          (opm OpAssert, to_int8 (Z.of_nat (length (Types b))),
           set_Types b (Types b ++ [typ]))
      end in
  appendInstr (mkInstr op e tr z) b.

Definition BinaryBitOperation (operator : OperatorType) (ky : bool)
    (x y dst : Z) (kind : Kind) (b : FullBuilder) : FullBuilder :=
  let op :=
    match operator with
    | OperatorAnd => opm OpAnd
    | OperatorOr => opm OpOr
    | OperatorXor => opm OpXor
    | OperatorAndNot => opm OpAndNot
    | OperatorLeftShift =>
        match kind with
        | Int8 | Uint8 => opm OpLeftShift8
        | Int16 | Uint16 => opm OpLeftShift16
        | Int32 | Uint32 => opm OpLeftShift32
        | _ => opm OpLeftShift
        end
    | OperatorRightShift =>
        match kind with
        | Uint | Uint8 | Uint16 | Uint32 | Uint64 => opm OpRightShiftU
        | _ => opm OpRightShift
        end
    | OperatorOther => 0
    end in
  appendInstr (mkInstr (flag ky op) x y dst) b.

Definition Bind (cv r : Z) (b : FullBuilder) : FullBuilder :=
  let b := alloc Interface r b in
  appendInstr (mkInstr (opm OpBind) 0 (to_int8 cv) r) b.

Definition Call (f : Z) (shift : StackShift) (line : Z) (b : FullBuilder)
  : FullBuilder :=
  let b := appendInstr (mkInstr (opm OpCall) f 0 0) b in
  let b := appendInstr (shiftInstr shift) b in
  AddLine (bodyAddr 2 b) line b.

Definition CallNative (f numVariadic : Z) (shift : StackShift)
    (b : FullBuilder) : FullBuilder :=
  let b := appendInstr (mkInstr (opm OpCallNative) f 0 numVariadic) b in
  appendInstr (shiftInstr shift) b.

Definition CallIndirect (f numVariadic : Z) (shift : StackShift)
    (b : FullBuilder) : FullBuilder :=
  let b := appendInstr (mkInstr (opm OpCallIndirect) f 0 numVariadic) b in
  appendInstr (shiftInstr shift) b.

Definition Cap (s z : Z) (b : FullBuilder) : FullBuilder :=
  let b := alloc Interface s b in
  let b := alloc Int z b in
  appendInstr (mkInstr (opm OpCap) s 0 z) b.

Definition Case (kvalue : bool) (dir value ch : Z) (kind : Kind)
    (b : FullBuilder) : FullBuilder :=
  let b := if negb kvalue && bool_decide (value ≠ 0)
           then alloc kind value b else b in
  let b := if bool_decide (ch ≠ 0) then alloc Interface ch b else b in
  appendInstr (mkInstr (flag kvalue (opm OpCase)) (to_int8 dir) value ch) b.

Definition Convert (src : Z) (typ : T) (dst : Z) (srcKind : Kind)
    (b : FullBuilder) : res FullBuilder :=
  r ←! Type__ typ (Types b);
  let '(regType, types) := r in
  let b := set_Types b types in
  let b := alloc Interface dst b in
  let op :=
    match kindToType srcKind with
    | TypeIface => opm OpConvert
    | TypeInt =>
        match srcKind with
        | Uint | Uint8 | Uint16 | Uint32 | Uint64 | Uintptr =>
            opm OpConvertUint
        | _ => opm OpConvertInt
        end
    | TypeString => opm OpConvertString
    | TypeFloat => opm OpConvertFloat
    end in
  Ok (appendInstr (mkInstr op src regType dst) b).

Definition Copy (dst src n : Z) (b : FullBuilder) : FullBuilder :=
  let b := alloc Interface dst b in
  let b := alloc Interface src b in
  appendInstr (mkInstr (opm OpCopy) src n dst) b.

Definition Defer (f numVariadic : Z) (off arg : StackShift)
    (b : FullBuilder) : FullBuilder :=
  let b := alloc Interface f b in
  let b := appendInstr (mkInstr (opm OpDefer) f 0 numVariadic) b in
  let b := appendInstr (shiftInstr off) b in
  appendInstr (shiftInstr arg) b.

Definition Delete (m k : Z) (b : FullBuilder) : FullBuilder :=
  let b := alloc Interface m b in
  let b := alloc Interface k b in
  appendInstr (mkInstr (opm OpDelete) m k 0) b.

Definition Range (expr : Z) (kind : Kind) (b : FullBuilder)
  : res FullBuilder :=
  match kind with
  | String => Ok (appendInstr (mkInstr (opm OpRangeString) 0 0 expr) b)
  | _ => Panic "TODO: not implemented"
  end.

(** [Func] returns the new literal; it is the last of [Literals]. *)
Definition Func (r : Z) (typ : T) (b : FullBuilder) : res FullBuilder :=
  let n := Z.of_nat (length (Literals b)) in
  if decide (n = 256) then Panic "ScrigoFunctions limit reached"
  else
    let b := alloc Interface r b in
    let b := set_Literals b (Literals b ++ [typ]) in
    Ok (appendInstr (mkInstr (opm OpFunc) 0 (to_int8 n) r) b).

Definition GetFunc (native : bool) (f z : Z) (b : FullBuilder)
  : FullBuilder :=
  let b := alloc Interface z b in
  let a := if native then 1 else 0 in
  appendInstr (mkInstr (opm OpGetFunc) a f z) b.

Definition GetVar (v z : Z) (b : FullBuilder) : FullBuilder :=
  let b := alloc Interface z b in
  appendInstr (mkInstr (opm OpGetVar) (to_int8 v) 0 z) b.

Definition Go (b : FullBuilder) : FullBuilder :=
  appendInstr (mkInstr (opm OpGo) 0 0 0) b.

Definition If (k : bool) (x o y : Z) (kind : Kind) (b : FullBuilder)
  : res FullBuilder :=
  let b := alloc kind x b in
  let b := if k then b else alloc kind y b in
  op ←! match kindToType kind with
        | TypeInt => Ok (opm OpIfInt)
        | TypeFloat => Ok (opm OpIfFloat)
        | TypeString => Ok (opm OpIfString)
        | TypeIface => Panic "If: invalid type"
        end;
  Ok (appendInstr (mkInstr (flag k op) x (to_int8 o) y) b).

Definition Index (ki : bool) (expr i dst : Z) (exprType : T)
    (b : FullBuilder) : FullBuilder :=
  let op :=
    match typeKind exprType with
    | Slice => opm OpSliceIndex
    | String => opm OpStringIndex
    | Map => opm OpMapIndex
    | _ => opm OpIndex
    end in
  appendInstr (mkInstr (flag ki op) expr i dst) b.

Definition Len (s l : Z) (t : T) (b : FullBuilder) : FullBuilder :=
  let b := alloc Interface s b in
  let b := alloc Int l b in
  let a :=
    if decide (t = stringType) then 0
    else if decide (t = bytesType) then 2
    else if decide (t = stringsType) then 4
    else if decide (t = ifacesType) then 5
    else if decide (t = mapStringString) then 6
    else if decide (t = mapStringInt) then 7
    else if decide (t = mapStringIface) then 8
    else 1 in
  appendInstr (mkInstr (opm OpLen) a s l) b.

Definition LoadNumber (typ : Type_) (index dst : Z) (b : FullBuilder)
  : res FullBuilder :=
  a ←! match typ with
       | TypeInt => Ok 0
       | TypeFloat => Ok 1
       | _ => Panic "LoadNumber only accepts TypeInt or TypeFloat as type"
       end;
  Ok (appendInstr (mkInstr (opm OpLoadNumber) a index dst) b).

Definition MakeChan (typ : Z) (kCapacity : bool) (capacity dst : Z)
    (b : FullBuilder) : FullBuilder :=
  appendInstr (mkInstr (flag kCapacity (opm OpMakeChan)) typ capacity dst) b.

Definition MakeMap (typ : Z) (kSize : bool) (size dst : Z)
    (b : FullBuilder) : FullBuilder :=
  appendInstr (mkInstr (flag kSize (opm OpMakeMap)) typ size dst) b.

Definition MakeSlice (kLen kCap : bool) (sliceType : T) (len cap dst : Z)
    (b : FullBuilder) : res FullBuilder :=
  let b := alloc Interface dst b in
  r ←! Type__ sliceType (Types b);
  let '(t, types) := r in
  let b := set_Types b types in
  let k :=
    if bool_decide (len = 0) && bool_decide (cap = 0) then 1
    else Z.lor (if kLen then Z.shiftl 1 1 else 0)
               (if kCap then Z.shiftl 1 2 else 0) in
  let b := appendInstr (mkInstr (opm OpMakeSlice) t k dst) b in
  Ok (if decide (1 < k) then appendInstr (mkInstr 0 len cap 0) b else b).

Definition Move (k : bool) (x z : Z) (srcKind dstKind : Kind)
    (b : FullBuilder) : FullBuilder :=
  let b := if k then b else alloc srcKind x b in
  let b := alloc srcKind z b in
  let moveType :=
    match kindToType dstKind with
    | TypeInt => IntInt
    | TypeFloat => FloatFloat
    | TypeString => StringString
    | TypeIface =>
        match kindToType srcKind with
        | TypeInt => IntGeneral
        | TypeFloat => FloatGeneral
        | TypeString => StringGeneral
        | TypeIface => GeneralGeneral
        end
    end in
  appendInstr (mkInstr (flag k (opm OpMove)) (to_int8 (mvt moveType)) x z) b.

Definition New (typ : T) (z : Z) (b : FullBuilder) : res FullBuilder :=
  let b := alloc Interface z b in
  r ←! AddType typ (Types b);
  let '(a, types) := r in
  let b := set_Types b types in
  Ok (appendInstr (mkInstr (opm OpNew) (to_int8 a) 0 z) b).

Definition Panic_ (v line : Z) (b : FullBuilder) : FullBuilder :=
  let b := alloc Interface v b in
  let b := appendInstr (mkInstr (opm OpPanic) v 0 0) b in
  AddLine (bodyAddr 1 b) line b.

Definition Print_ (arg : Z) (b : FullBuilder) : FullBuilder :=
  appendInstr (mkInstr (opm OpPrint) arg 0 0) b.

Definition Receive (ch ok dst : Z) (b : FullBuilder) : FullBuilder :=
  appendInstr (mkInstr (opm OpReceive) ch ok dst) b.

Definition Recover (r : Z) (b : FullBuilder) : FullBuilder :=
  let b := alloc Interface r b in
  appendInstr (mkInstr (opm OpRecover) 0 0 r) b.

Definition Return (b : FullBuilder) : FullBuilder :=
  appendInstr (mkInstr (opm OpReturn) 0 0 0) b.

Definition Select (b : FullBuilder) : FullBuilder :=
  appendInstr (mkInstr (opm OpSelect) 0 0 0) b.

Definition SetVar (r v : Z) (b : FullBuilder) : FullBuilder :=
  appendInstr (mkInstr (opm OpSetVar) 0 r (to_int8 v)) b.

Definition SetMap (k : bool) (m value key : Z) (b : FullBuilder)
  : FullBuilder :=
  appendInstr (mkInstr (flag k (opm OpSetMap)) m value key) b.

Definition SetSlice (k : bool) (slice value index : Z) (elemKind : Kind)
    (b : FullBuilder) : FullBuilder :=
  appendInstr (mkInstr (flag k (opm OpSetSlice)) slice value index) b.

Definition TailCall (f line : Z) (b : FullBuilder) : FullBuilder :=
  let b := appendInstr (mkInstr (opm OpTailCall) f 0 0) b in
  AddLine (bodyAddr 1 b) line b.

(** *** The methods on the tables and on the scopes *)

(** [builder.Type(typ)] and [builder.AddType(typ)] on the table of the
    builder: the index and the builder afterwards. *)
Definition TypeIndex (typ : T) (b : FullBuilder) : res (Z * FullBuilder) :=
  r ←! Type__ typ (Types b); Ok (r.1, set_Types b r.2).

Definition AddTypeIndex (typ : T) (b : FullBuilder)
  : res (Z * FullBuilder) :=
  r ←! AddType typ (Types b); Ok (r.1, set_Types b r.2).

Definition BindVar (name : string) (reg : Z) (b : FullBuilder)
  : res FullBuilder :=
  core' ←! BindVarReg name reg (core b); Ok (set_core b core').

(** *** Call sequences over every method

    [FBase] is a call of [VM.call]: the scopes and stacks, [NewRegister],
    the labels, the constants, and the eleven emitters [Add], [Concat],
    [Div], [Goto], [Mul], [Nop], [Rem], [Selector], [Send], [Sub] and
    [SubInv].  The other constructors are the other thirty-eight emitters
    and the methods [BindVarReg], [AddType], [Type] and [AddLine].  The
    methods left are [IsVariable], [ScopeLookup] and [CurrentAddr], which
    only read, and [SetClosureRefs], [SetFileLine], [AddVariable],
    [AddNativeFunction] and [AddScrigoFunction], which write fields of the
    function that no other method reads. *)
Inductive fullCall :=
| FBase (c : call)
| FBindVarReg (name : string) (reg : Z)
| FAddType (typ : T)
| FType (typ : T)
| FAddLine (pc line : Z)
| FAppend (first length s : Z)
| FAppendSlice (t s : Z)
| FAssert (e : Z) (typ : T) (z : Z)
| FBinaryBitOperation (operator : OperatorType) (ky : bool) (x y dst : Z)
    (kind : Kind)
| FBind (cv r : Z)
| FCall (f : Z) (shift : StackShift) (line : Z)
| FCallNative (f numVariadic : Z) (shift : StackShift)
| FCallIndirect (f numVariadic : Z) (shift : StackShift)
| FCap (s z : Z)
| FCase (kvalue : bool) (dir value ch : Z) (kind : Kind)
| FConvert (src : Z) (typ : T) (dst : Z) (srcKind : Kind)
| FCopy (dst src n : Z)
| FDefer (f numVariadic : Z) (off arg : StackShift)
| FDelete (m k : Z)
| FRange (expr : Z) (kind : Kind)
| FFunc (r : Z) (typ : T)
| FGetFunc (native : bool) (f z : Z)
| FGetVar (v z : Z)
| FGo
| FIf (k : bool) (x o y : Z) (kind : Kind)
| FIndex (ki : bool) (expr i dst : Z) (exprType : T)
| FLen (s l : Z) (t : T)
| FLoadNumber (typ : Type_) (index dst : Z)
| FMakeChan (typ : Z) (kCapacity : bool) (capacity dst : Z)
| FMakeMap (typ : Z) (kSize : bool) (size dst : Z)
| FMakeSlice (kLen kCap : bool) (sliceType : T) (len cap dst : Z)
| FMove (k : bool) (x z : Z) (srcKind dstKind : Kind)
| FNew (typ : T) (z : Z)
| FPanic (v line : Z)
| FPrint (arg : Z)
| FReceive (ch ok dst : Z)
| FRecover (r : Z)
| FReturn
| FSelect
| FSetVar (r v : Z)
| FSetMap (k : bool) (m value key : Z)
| FSetSlice (k : bool) (slice value index : Z) (elemKind : Kind)
| FTailCall (f line : Z).

Definition stepFull (c : fullCall) (b : FullBuilder) : res FullBuilder :=
  match c with
  | FBase c => core' ←! step opc c (core b); Ok (set_core b core')
  | FBindVarReg name reg => BindVar name reg b
  | FAddType typ => r ←! AddTypeIndex typ b; Ok r.2
  | FType typ => r ←! TypeIndex typ b; Ok r.2
  | FAddLine pc line => Ok (AddLine pc line b)
  | FAppend first length s => Ok (Append first length s b)
  | FAppendSlice t s => Ok (AppendSlice t s b)
  | FAssert e typ z => Ok (Assert e typ z b)
  | FBinaryBitOperation operator ky x y dst kind =>
      Ok (BinaryBitOperation operator ky x y dst kind b)
  | FBind cv r => Ok (Bind cv r b)
  | FCall f shift line => Ok (Call f shift line b)
  | FCallNative f numVariadic shift => Ok (CallNative f numVariadic shift b)
  | FCallIndirect f numVariadic shift =>
      Ok (CallIndirect f numVariadic shift b)
  | FCap s z => Ok (Cap s z b)
  | FCase kvalue dir value ch kind => Ok (Case kvalue dir value ch kind b)
  | FConvert src typ dst srcKind => Convert src typ dst srcKind b
  | FCopy dst src n => Ok (Copy dst src n b)
  | FDefer f numVariadic off arg => Ok (Defer f numVariadic off arg b)
  | FDelete m k => Ok (Delete m k b)
  | FRange expr kind => Range expr kind b
  | FFunc r typ => Func r typ b
  | FGetFunc native f z => Ok (GetFunc native f z b)
  | FGetVar v z => Ok (GetVar v z b)
  | FGo => Ok (Go b)
  | FIf k x o y kind => If k x o y kind b
  | FIndex ki expr i dst exprType => Ok (Index ki expr i dst exprType b)
  | FLen s l t => Ok (Len s l t b)
  | FLoadNumber typ index dst => LoadNumber typ index dst b
  | FMakeChan typ kCapacity capacity dst =>
      Ok (MakeChan typ kCapacity capacity dst b)
  | FMakeMap typ kSize size dst => Ok (MakeMap typ kSize size dst b)
  | FMakeSlice kLen kCap sliceType len cap dst =>
      MakeSlice kLen kCap sliceType len cap dst b
  | FMove k x z srcKind dstKind => Ok (Move k x z srcKind dstKind b)
  | FNew typ z => New typ z b
  | FPanic v line => Ok (Panic_ v line b)
  | FPrint arg => Ok (Print_ arg b)
  | FReceive ch ok dst => Ok (Receive ch ok dst b)
  | FRecover r => Ok (Recover r b)
  | FReturn => Ok (Return b)
  | FSelect => Ok (Select b)
  | FSetVar r v => Ok (SetVar r v b)
  | FSetMap k m value key => Ok (SetMap k m value key b)
  | FSetSlice k slice value index elemKind =>
      Ok (SetSlice k slice value index elemKind b)
  | FTailCall f line => Ok (TailCall f line b)
  end.

Fixpoint runFull (cs : list fullCall) (b : FullBuilder) : res FullBuilder :=
  match cs with
  | [] => Ok b
  | c :: cs => b' ←! stepFull c b; runFull cs b'
  end.

(** The whole life of a builder, over every method: created on a fresh
    function, driven by [cs], finalized once. *)
Definition buildFull (cs : list fullCall) : res FullBuilder :=
  b ←! runFull cs (NewFullBuilder emptyFn);
  core' ←! End_ (core b);
  Ok (set_core b core').

(** *** What each method registers *)

(** The kind under which [Assert] registers its destination. *)
Definition assertKind (typ : T) : Kind :=
  if decide (typ = intType) then Int
  else if decide (typ = float64Type) then Float64
  else if decide (typ = stringType) then String
  else Interface.

(** The operands that the method of a call passes to [allocRegister], each
    with the kind it is passed under, in the order of the calls.
    [NewRegister] is not in the table: the register it passes is the one it
    computes. *)
Definition allocated (c : fullCall) : list (Kind * Z) :=
  match c with
  | FBase (CAdd k x y z kind) =>
      (kind, x) :: (if k then [] else [(kind, y)]) ++ [(kind, z)]
  | FBase (CSub k x y z _) | FBase (CSubInv k x y z _) =>
      (Int, x) :: (if k then [] else [(Int, y)]) ++ [(Int, z)]
  | FBase (CMul _ x y z kind) | FBase (CDiv _ x y z kind)
  | FBase (CRem _ x y z kind) => [(kind, x); (kind, y); (kind, z)]
  | FBase (CConcat s t z) => [(Interface, s); (Interface, t); (Interface, z)]
  | FBase _ => []
  | FAppend _ _ s => [(Interface, s)]
  | FAppendSlice t s => [(Interface, t); (Interface, s)]
  | FAssert e typ z => [(Interface, e); (assertKind typ, z)]
  | FBind _ r => [(Interface, r)]
  | FCap s z => [(Interface, s); (Int, z)]
  | FCase kvalue _ value ch kind =>
      (if negb kvalue && bool_decide (value ≠ 0) then [(kind, value)] else [])
      ++ (if bool_decide (ch ≠ 0) then [(Interface, ch)] else [])
  | FConvert _ _ dst _ => [(Interface, dst)]
  | FCopy dst src _ => [(Interface, dst); (Interface, src)]
  | FDefer f _ _ _ => [(Interface, f)]
  | FDelete m k => [(Interface, m); (Interface, k)]
  | FFunc r _ => [(Interface, r)]
  | FGetFunc _ _ z => [(Interface, z)]
  | FGetVar _ z => [(Interface, z)]
  | FIf k x _ y kind => (kind, x) :: (if k then [] else [(kind, y)])
  | FLen s l _ => [(Interface, s); (Int, l)]
  | FMakeSlice _ _ _ _ _ dst => [(Interface, dst)]
  | FMove k x z srcKind _ =>
      (if k then [] else [(srcKind, x)]) ++ [(srcKind, z)]
  | FNew _ z => [(Interface, z)]
  | FPanic v _ => [(Interface, v)]
  | FRecover r => [(Interface, r)]
  | _ => []
  end.

(** [allocRegister] called once for each pair of [l], in order. *)
Definition allocAll (l : list (Kind * Z)) (b : FunctionBuilder)
  : FunctionBuilder :=
  foldl (λ b p, allocRegister p.1 p.2 b) b l.

Definition isNewRegister (c : fullCall) : bool :=
  match c with FBase (CNewRegister _) => true | _ => false end.

(** [r] is a register that [NewRegister(kind)] returned in the course of
    [cs]. *)
Definition issued (cs : list fullCall) (kind : Kind) (r : Z) : Prop :=
  ∃ cs1 cs2 b1,
    cs = cs1 ++ FBase (CNewRegister kind) :: cs2
    ∧ runFull cs1 (NewFullBuilder emptyFn) = Ok b1
    ∧ (NewRegister kind (core b1)).1 = r.

End AllEmitters.

Arguments FullBuilder T : clear implicits.
Arguments fullCall T : clear implicits.

(** *** Samples to run the methods with *)

(** A numbering of the other opcodes, after that of [opcTable]; no result
    depends on it. *)
Definition opmTable (o : OpcodeMore) : Z :=
  match o with
  | OpAppend => 47 | OpAppendSlice => 48 | OpAssert => 49
  | OpAssertInt => 50 | OpAssertFloat64 => 51 | OpAssertString => 52
  | OpAnd => 53 | OpOr => 54 | OpXor => 55 | OpAndNot => 56
  | OpLeftShift => 57 | OpLeftShift8 => 58 | OpLeftShift16 => 59
  | OpLeftShift32 => 60 | OpRightShift => 61 | OpRightShiftU => 62
  | OpBind => 63 | OpCall => 64 | OpCallNative => 65 | OpCallIndirect => 66
  | OpCap => 67 | OpCase => 68 | OpConvert => 69 | OpConvertUint => 70
  | OpConvertInt => 71 | OpConvertString => 72 | OpConvertFloat => 73
  | OpCopy => 74 | OpDefer => 75 | OpDelete => 76 | OpRangeString => 77
  | OpFunc => 78 | OpGetFunc => 79 | OpGetVar => 80 | OpGo => 81
  | OpIfInt => 82 | OpIfFloat => 83 | OpIfString => 84 | OpIndex => 85
  | OpSliceIndex => 86 | OpStringIndex => 87 | OpMapIndex => 88
  | OpLen => 89 | OpLoadNumber => 90 | OpMakeChan => 91 | OpMakeMap => 92
  | OpMakeSlice => 93 | OpMove => 94 | OpNew => 95 | OpPanic => 96
  | OpPrint => 97 | OpReceive => 98 | OpRecover => 99 | OpReturn => 100
  | OpSelect => 101 | OpSetVar => 102 | OpSetMap => 103 | OpSetSlice => 104
  | OpTailCall => 105
  end.

Definition mvtTable (m : MoveType) : Z :=
  match m with
  | IntInt => 0 | FloatFloat => 1 | StringString => 2
  | IntGeneral => 3 | FloatGeneral => 4 | StringGeneral => 5
  | GeneralGeneral => 6
  end.

(** A few types: the ones that [builder.go] names, and named types of any
    kind. *)
Inductive sampleType :=
| SInt | SFloat64 | SString | SBytes | SStrings | SIfaces
| SMapStringString | SMapStringInt | SMapStringIface
| SNamed (name : string) (kind : Kind).

#[global] Instance sampleType_eq_dec : EqDecision sampleType.
Proof. solve_decision. Defined.

#[global] Instance sampleReflect : ReflectType sampleType := {|
  typeKind t :=
    match t with
    | SInt => Int
    | SFloat64 => Float64
    | SString => String
    | SBytes | SStrings | SIfaces => Slice
    | SMapStringString | SMapStringInt | SMapStringIface => Map
    | SNamed _ kind => kind
    end;
  intType := SInt;
  float64Type := SFloat64;
  stringType := SString;
  bytesType := SBytes;
  stringsType := SStrings;
  ifacesType := SIfaces;
  mapStringString := SMapStringString;
  mapStringInt := SMapStringInt;
  mapStringIface := SMapStringIface
|}.

(** [r = NewRegister(Interface); Selector(r, 0, r)] and
    [x = NewRegister(Float64); y = NewRegister(Float64); Sub(false, x, y, y,
    Float64)], with the registers as [NewRegister] returns them on a fresh
    builder. *)
Definition issuedSelector : list (fullCall sampleType) :=
  [FBase (CNewRegister Interface); FBase (CSelector 1 0 1)].
Definition issuedFloatSub : list (fullCall sampleType) :=
  [FBase (CNewRegister Float64); FBase (CNewRegister Float64);
   FBase (CSub false 1 2 2 Float64)].

End VMAll.

(** ** More of the parser and of the expander *)

Module TplX.
Import Tpl.

(** *** Cutting the spaces of a line *)

(** A [Text] node: its bytes and its cut. *)
Record Text := mkText { TextBytes : list Ascii.ascii; TextCut : Cut }.

(** [c != ' ' && c != '\t' && c != '\r'] is false. *)
Definition isLineSpace (c : Ascii.ascii) : bool :=
  let n := Ascii.nat_of_ascii c in
  bool_decide (n = 32 ∨ n = 9 ∨ n = 13)%nat.

Definition isNewline (c : Ascii.ascii) : bool :=
  bool_decide (Ascii.nat_of_ascii c = 10)%nat.

(** The first loop of [cutSpaces], [for i := len(txt) - 1; i >= 0; i--],
    with [n] indices still to visit: [Some firstCut] when the loop ends or
    breaks, [None] when the function returns from inside it. *)
Fixpoint scanBack (txt : list Ascii.ascii) (n : nat) : option Z :=
  match n with
  | O => Some 0
  | S i =>
      match txt !! i with
      | Some c =>
          if isNewline c then Some (Z.of_nat i + 1)
          else if isLineSpace c then scanBack txt i
          else None
      | None => None
      end
  end.

(** The second loop, [for i := 0; i < len(txt); i++], at index [i] with
    [fuel] indices still to visit. *)
Fixpoint scanForward (txt : list Ascii.ascii) (i fuel : nat) : option Z :=
  match fuel with
  | O => Some (Z.of_nat (length txt))
  | S fuel =>
      match txt !! i with
      | Some c =>
          if isNewline c then Some (Z.of_nat i + 1)
          else if isLineSpace c then scanForward txt (S i) fuel
          else None
      | None => Some (Z.of_nat (length txt))
      end
  end.

(** [cutSpaces]; [first] and [last] are different nodes, the result is the
    two nodes after the call. *)
Definition cutSpaces (first last : option Text)
  : option Text * option Text :=
  match (match first with
         | Some f => scanBack (TextBytes f) (length (TextBytes f))
         | None => Some 0
         end) with
  | None => (first, last)
  | Some firstCut =>
      let cutFirst :=
        match first with
        | Some f =>
            Some (mkText (TextBytes f)
                    (mkCut (CutLeft (TextCut f))
                       (Z.of_nat (length (TextBytes f)) - firstCut)))
        | None => None
        end in
      match last with
      | Some l =>
          match scanForward (TextBytes l) 0 (length (TextBytes l)) with
          | None => (first, last)
          | Some lastCut =>
              (cutFirst,
               Some (mkText (TextBytes l)
                       (mkCut lastCut (CutRight (TextCut l)))))
          end
      | None => (cutFirst, None)
      end
  end.

(** *** Sizes and leaves of trees *)

(** The number of nodes below a node, the attached trees left out. *)
Fixpoint nodeSize (n : Node) : nat :=
  let listSize :=
    fix go (ns : list Node) : nat :=
      match ns with
      | [] => 0%nat
      | m :: ms => (nodeSize m + go ms)%nat
      end in
  match n with
  | NTree _ nodes _ => S (listSize nodes)
  | NURL _ _ value => S (listSize value)
  | NIf _ _ then_ else_ =>
      S (listSize then_
         + match else_ with Some m => nodeSize m | None => 0 end)%nat
  | NBlock nodes => S (listSize nodes)
  | NFor body | NForRange body => S (listSize body)
  | NSwitch cases | NTypeSwitch cases => S (listSize cases)
  | NCase _ _ body _ => S (listSize body)
  | NMacro _ body => S (listSize body)
  | _ => 1%nat
  end.

Fixpoint nodesSize (ns : list Node) : nat :=
  match ns with
  | [] => 0%nat
  | m :: ms => (nodeSize m + nodesSize ms)%nat
  end.

(** The nodes that [expand] passes over: everything but the containers it
    descends into and the three directives. *)
Definition isLeaf (n : Node) : bool :=
  match n with
  | NIf _ _ _ _ | NFor _ | NForRange _ | NSwitch _ | NTypeSwitch _
  | NMacro _ _ | NExtends _ _ _ _ | NImport _ _ _ _ | NInclude _ _ _ _ =>
      false
  | _ => true
  end.

(** The loop over the cases of a switch in [expand]. *)
Fixpoint expandCases
    (toAbsolutePath : string → string → error + string)
    (parsePath : expansion → string → Context → expansion * xres TreeData)
    (pp : expansion) (cs : list Node) : expansion * xres (list Node) :=
  match cs with
  | [] => (pp, XOk [])
  | NCase p es body ft :: cs' =>
      xbind (expand toAbsolutePath parsePath pp body ContextNone)
        (λ pp body',
           xbind (expandCases toAbsolutePath parsePath pp cs')
             (λ pp cs'', (pp, XOk (NCase p es body' ft :: cs''))))
  | c :: cs' =>
      xbind (expandCases toAbsolutePath parsePath pp cs')
        (λ pp cs'', (pp, XOk (c :: cs'')))
  end.

(** A cache whose trees carry the path they are stored under. *)
Definition wellKeyed (c : cache) : Prop :=
  ∀ path x t, completed c !! (path, x) = Some t → TPath t = path.

(** A call of the expander keeps the house in order: the keys reserved in
    the cache are the same after it as before, whatever the outcome; the
    trees that were in the cache are still there; the trees stay keyed by
    their paths; and if the call returns a value the path stack is the same
    too. *)
Definition tidy {A} (pp : expansion) (r : expansion * xres A) : Prop :=
  reserved (trees r.1) = reserved (trees pp)
  ∧ completed (trees pp) ⊆ completed (trees r.1)
  ∧ (wellKeyed (trees pp) → wellKeyed (trees r.1))
  ∧ (∀ a, r.2 = XOk a → paths r.1 = paths pp).

(** *** The directives *)

(** The three directives that [expand] resolves. *)
Inductive directive := DExtends | DImport | DInclude.

Definition directiveNode (d : directive) (p : Position) (npath : string)
    (nctx : Context) (t : option Node) : Node :=
  match d with
  | DExtends => NExtends p npath nctx t
  | DImport => NImport p npath nctx t
  | DInclude => NInclude p npath nctx t
  end.

(** The format of the error of [expand] for a target that does not
    exist. *)
Definition notExistFormat (d : directive) : string :=
  match d with
  | DExtends => "extends path %q does not exist"
  | DImport => "import path %q does not exist"
  | DInclude => "included path %q does not exist"
  end.

(** [return path, err] of [abs]. *)
Definition resolved (r : error + string) : xres string :=
  match r with
  | inl e => XErr e
  | inr a => XOk a
  end.

(** No directive in any place that [expand] visits: the bodies of [If]
    (with the chain of its [Else]), [For], [ForRange], [Macro], and of the
    cases of [Switch] and [TypeSwitch]. *)
Fixpoint directiveFree (n : Node) : bool :=
  let all :=
    fix go (ns : list Node) : bool :=
      match ns with
      | [] => true
      | m :: ms => directiveFree m && go ms
      end in
  let allCases :=
    fix go (cs : list Node) : bool :=
      match cs with
      | [] => true
      | NCase _ _ body _ :: cs' => all body && go cs'
      | _ :: cs' => go cs'
      end in
  match n with
  | NIf _ _ then_ else_ =>
      all then_
      && match else_ with
         | Some (NIf _ _ _ _ as e) => directiveFree e
         | Some (NBlock ns) => all ns
         | _ => true
         end
  | NFor body | NForRange body | NMacro _ body => all body
  | NSwitch cases | NTypeSwitch cases => allCases cases
  | NExtends _ _ _ _ | NImport _ _ _ _ | NInclude _ _ _ _ => false
  | _ => true
  end.

Fixpoint casesFree (cs : list Node) : bool :=
  match cs with
  | [] => true
  | NCase _ _ body _ :: cs' => forallb directiveFree body && casesFree cs'
  | _ :: cs' => casesFree cs'
  end.

(** A reader for the examples: [/page] is a text followed by a directive
    for [target], [/base] is a text, [/part] opens with an extends, nothing
    else exists. *)
Definition sampleRead (d : directive) (target : string) (path : string)
    (x : Context) : error + TreeData :=
  if bool_decide (path = "/page")
  then inr (mkTree EmptyString
              [NText "hello" (mkCut 0 0);
               directiveNode d (mkPos 1 6 5 25) target x None] x)
  else if bool_decide (path = "/base")
  then inr (mkTree EmptyString [NText "base" (mkCut 0 0)] x)
  else if bool_decide (path = "/part")
  then inr (mkTree EmptyString
              [NExtends (mkPos 1 1 0 20) "/base" x None] x)
  else inl ErrNotExist.

(** *** Words for the statements about [cutSpaces] *)

(** A run of spaces, tabs and carriage returns. *)
Definition blank (l : list Ascii.ascii) : Prop :=
  Forall (λ c, isLineSpace c = true) l.

(** A byte that stops the cut: neither a newline nor one of those. *)
Definition solid (c : Ascii.ascii) : bool :=
  negb (isNewline c) && negb (isLineSpace c).

(** What comes before the blank end of the first text: nothing or a line
    break ([lineEnd]), or a byte that stops the cut ([solidEnd]). *)
Definition lineEnd (pre : list Ascii.ascii) : bool :=
  match last pre with None => true | Some c => isNewline c end.

Definition solidEnd (pre : list Ascii.ascii) : bool :=
  match last pre with None => false | Some c => solid c end.

(** What comes after the blank start of the last text. *)
Definition lineStart (post : list Ascii.ascii) : bool :=
  match post with [] => true | c :: _ => isNewline c end.

Definition solidStart (post : list Ascii.ascii) : bool :=
  match post with [] => false | c :: _ => solid c end.

(** The line break itself is cut with the spaces before it. *)
Definition lineBreak (post : list Ascii.ascii) : Z :=
  match post with [] => 0 | _ => 1 end.

(** *** Trees without their attachments *)

(** A node with the [Tree] field of every directive that [expand] reaches
    set back to nil. *)
Fixpoint bare (n : Node) : Node :=
  let all :=
    fix go (ns : list Node) : list Node :=
      match ns with
      | [] => []
      | m :: ms => bare m :: go ms
      end in
  let allCases :=
    fix go (cs : list Node) : list Node :=
      match cs with
      | [] => []
      | NCase p es body ft :: cs' => NCase p es (all body) ft :: go cs'
      | c :: cs' => c :: go cs'
      end in
  match n with
  | NIf p cond then_ else_ =>
      NIf p cond (all then_)
        match else_ with
        | Some (NIf _ _ _ _ as e) => Some (bare e)
        | Some (NBlock ns) => Some (NBlock (all ns))
        | _ => else_
        end
  | NFor body => NFor (all body)
  | NForRange body => NForRange (all body)
  | NMacro name body => NMacro name (all body)
  | NSwitch cases => NSwitch (allCases cases)
  | NTypeSwitch cases => NTypeSwitch (allCases cases)
  | NExtends p npath nctx _ => NExtends p npath nctx None
  | NImport p npath nctx _ => NImport p npath nctx None
  | NInclude p npath nctx _ => NInclude p npath nctx None
  | _ => n
  end.

Fixpoint bareCases (cs : list Node) : list Node :=
  match cs with
  | [] => []
  | NCase p es body ft :: cs' => NCase p es (map bare body) ft :: bareCases cs'
  | c :: cs' => c :: bareCases cs'
  end.

(** *** Plain text *)

(** The node that [ParseSource] makes of a text token: [Cut] is zero. *)
Definition textNode (t : token) : Node := NText (txt t) (mkCut 0 0).

(** *** The lines of [ParseSource]

    In a template context the loop of [ParseSource] keeps three variables
    beside the parsing state, and on the first token of a line (and on the
    token that ends the source) it calls [cutSpaces] for the line before,
    if that line held one statement or comment and nothing else but text.
    [cutSpaces] writes the [Cut] of [Text] nodes through pointers into the
    tree; the embedding has no such pointers, so a turn in which [cutSpaces]
    writes is [Unmodelled], and the other turns are embedded in full. *)

#[global] Instance Cut_eq_dec : EqDecision Cut.
Proof. solve_decision. Defined.

#[global] Instance Text_eq_dec : EqDecision Text.
Proof. solve_decision. Defined.

(** [line], [firstText] (the node by its value) and [tokensInLine]. *)
Record lineVars := mkLineVars {
  line : Z;
  firstText : option Text;
  tokensInLine : Z
}.

(** [var text *ast.Text; if tok.typ == tokenText { text = ast.NewText(tok.pos,
    tok.txt, ast.Cut{}) }]. *)
Definition newText (tok : token) : option Text :=
  if bool_decide (typ tok = tokenText)
  then Some (mkText (String.list_ascii_of_string (txt tok)) (mkCut 0 0))
  else None.

(** The [if line < tok.lin || tok.pos.End == end] that opens a turn of the
    loop; [srcEnd] is [len(src) - 1]. *)
Definition startLine (srcEnd : Z) (v : lineVars) (p : parsing) (tok : token)
  : outcome (lineVars * parsing) :=
  let text := newText tok in
  if bool_decide (line v < lin tok ∨ Stop (pos tok) = srcEnd) then
    if cutSpacesToken p && bool_decide (tokensInLine v = 1)
       && negb (bool_decide
                  (cutSpaces (firstText v) text = (firstText v, text)))
    then Unmodelled
    else Done (mkLineVars (lin tok) text 0, set_cutSpacesToken p false)
  else Done (v, p).

(** The branches of the [switch] that run [tokensInLine++]. *)
Definition countsInLine (tok : token) : bool :=
  bool_decide (typ tok = tokenStartStatement ∨ typ tok = tokenStartValue
               ∨ typ tok = tokenComment).

Section Lines.

Context (parseExprList :
           option token → bool → bool → bool → bool → list token →
           outcome (option (list Expression) * token * list token)).
Context (parseSwitch : parsing → Position → outcome (Node * list token)).
Context (unquoteString : string → string) (validPath : string → bool).

(** One turn of the loop with its line variables. *)
Definition parseTokenInLine (srcEnd : Z) (v : lineVars) (p : parsing)
    (tok : token) : outcome (lineVars * parsing) :=
  r ←? startLine srcEnd v p tok;
  let '(v, p) := r in
  p ←? parseToken parseExprList parseSwitch unquoteString validPath p tok;
  Done (if countsInLine tok
        then mkLineVars (line v) (firstText v) (tokensInLine v + 1)
        else v,
        p).

Fixpoint parseLines (fuel : nat) (srcEnd : Z) (v : lineVars) (p : parsing)
  : outcome parsing :=
  match lex p with
  | [] => Done p
  | tok :: rest =>
      match fuel with
      | O => Unmodelled
      | S fuel =>
          r ←? parseTokenInLine srcEnd v (set_lex p rest) tok;
          let '(v, p) := r in
          parseLines fuel srcEnd v p
      end
  end.

(** [ParseSource] in a template context with its line variables, on a
    source of [srcLen] bytes for which the lexer produces the tokens
    [toks]. *)
Definition ParseSourceLines (srcLen : Z) (toks : list token) (c : Context)
  : outcome Node :=
  if bool_decide (c = ContextText ∨ c = ContextHTML ∨ c = ContextCSS
                  ∨ c = ContextScript)
  then
    p ←? parseLines (length toks) (srcLen - 1) (mkLineVars 0 None 0)
           (newParsing toks c);
    match lexErr p, ancestors p with
    | Some e, _ => Fail e
    | None, tree :: _ => Done tree
    | None, [] => GoPanic "index out of range"
    end
  else if bool_decide (c = ContextNone) then Unmodelled
  else Fail (PlainError (Errorf "template/parser: invalid context. Valid contexts are None, Text, HTML, CSS and Script" [])).

End Lines.

End TplX.

(** * Theorems *)

Module VMFacts.
Import VM.

(** ** Fixed-width conversions *)

Lemma to_int8_small z : -128 ≤ z ≤ 127 → to_int8 z = z.
Proof. intros H. unfold to_int8. rewrite Z.mod_small by lia. lia. Qed.

Lemma to_int8_high z : 128 ≤ z ≤ 255 → to_int8 z = z - 256.
Proof.
  intros H. unfold to_int8.
  replace (z + 128) with (z - 128 + 1 * 256) by lia.
  rewrite Z_mod_plus_full, Z.mod_small by lia. lia.
Qed.

Lemma to_uint8_small z : 0 ≤ z ≤ 255 → to_uint8 z = z.
Proof. intros H. unfold to_uint8. apply Z.mod_small. lia. Qed.

Lemma to_uint8_to_int8 z : to_uint8 (to_int8 z) = to_uint8 z.
Proof.
  unfold to_uint8, to_int8.
  rewrite Zminus_mod_idemp_l. f_equal. lia.
Qed.

Lemma to_uint8_idem z : to_uint8 (to_uint8 z) = to_uint8 z.
Proof. unfold to_uint8. apply Z.mod_mod. lia. Qed.

Lemma to_uint8_testbit z i :
  0 ≤ i → Z.testbit (to_uint8 z) i = (i <? 8) && Z.testbit z i.
Proof.
  intros Hi. unfold to_uint8. change 256 with (2 ^ 8).
  destruct (Z.ltb_spec i 8).
  - by rewrite Z.mod_pow2_bits_low.
  - by rewrite Z.mod_pow2_bits_high.
Qed.

(** ** C7: the address round trip *)

(** C7.  For every [v] in [[0, 2^24)], decoding the three operand bytes that
    [encodeAddr] produces (byte 0 in [A], byte 1 in [B], byte 2 in [C],
    little-endian) gives [v] back. *)
Theorem decodeAddr_encodeAddr (v : Z) :
  0 ≤ v < 2 ^ 24 →
  let '(a, b, c) := encodeAddr v in decodeAddr a b c = v.
Proof.
  intros Hv. unfold encodeAddr, decodeAddr.
  rewrite !to_uint8_to_int8, !to_uint8_idem.
  apply Z.bits_inj'. intros i Hi.
  rewrite !Z.lor_spec, !Z.shiftl_spec by lia.
  rewrite (to_uint8_testbit v i) by lia.
  destruct (Z.ltb_spec i 8) as [H8|H8]; cbn [andb orb].
  - rewrite (Z.testbit_neg_r _ (i - 8)), (Z.testbit_neg_r _ (i - 16)) by lia.
    by rewrite !orb_false_r.
  - rewrite (to_uint8_testbit _ (i - 8)), Z.shiftr_spec by lia.
    replace (i - 8 + 8) with i by lia.
    destruct (Z.ltb_spec (i - 8) 8) as [H16|H16]; cbn [andb orb].
    + rewrite (Z.testbit_neg_r _ (i - 16)) by lia. by rewrite orb_false_r.
    + rewrite (to_uint8_testbit _ (i - 16)), Z.shiftr_spec by lia.
      replace (i - 16 + 16) with i by lia.
      destruct (Z.ltb_spec (i - 16) 8) as [H24|H24]; cbn [andb]; [done|].
      symmetry. rewrite <- (Z.mod_small v (2 ^ 24)) by lia.
      apply Z.mod_pow2_bits_high. lia.
Qed.

Lemma decodeAddr_encodeAddr_witness :
  let '(a, b, c) := encodeAddr 70000 in decodeAddr a b c = 70000.
Proof. apply (decodeAddr_encodeAddr 70000). lia. Defined.

(** ** C1 and C2: the two builder scenarios *)

(** C1.  [EnterStack; r1 = NewRegister(Int); r2 = NewRegister(Int);
    ExitStack; r3 = NewRegister(Int); End()] on a fresh builder returns
    [r1 = 1], [r2 = 2], [r3 = 1], and the finalized mark of the [Int] class,
    [RegNum[0]], is 2. *)
Theorem registerReuse_result :
  ∃ b, registerReuse = Ok (1, 2, 1, b) ∧ RegNum (fn b) !! 0%nat = Some 2.
Proof. eexists. split; vm_compute; reflexivity. Qed.

(** C2.  [lbl = NewLabel(); Goto(lbl); a = CurrentAddr(); Nop();
    SetLabelAddr(lbl); End()] on a fresh builder: after finalization the
    operands of the [Goto] instruction decode, as a little-endian 24-bit
    value, to [a + 1]. *)
Theorem forwardJump_result (opc : Opcode → Z) :
  ∃ gotoAddr a b i,
    forwardJump opc = Ok (gotoAddr, a, b)
    ∧ Body (fn b) !! Z.to_nat gotoAddr = Some i
    ∧ Op i = opc OpGoto
    ∧ decodeAddr (A i) (B i) (C i) = a + 1.
Proof.
  do 4 eexists. split; [vm_compute; reflexivity|].
  split; [vm_compute; reflexivity|]. split; reflexivity.
Qed.

(** ** C6 and C10: indices of constants *)

Lemma MakeInterfaceConstant_below c b :
  (length (generalPool b) < 128)%nat →
  MakeInterfaceConstant c b =
    Ok (- (Z.of_nat (length (generalPool b)) + 1),
        set_fn b (set_Constants (fn b)
          (mkConstants (intPool b) (floatPool b) (stringPool b)
             (generalPool b ++ [c])))).
Proof.
  intros Hlen. unfold MakeInterfaceConstant, generalPool in *.
  case_decide as Hr; [lia|].
  rewrite to_int8_small by lia. do 2 f_equal. lia.
Qed.

Lemma MakeInterfaceConstant_at_128 c b :
  length (generalPool b) = 128%nat →
  MakeInterfaceConstant c b = Panic "interface refs limit reached".
Proof.
  intros Hlen. unfold MakeInterfaceConstant, generalPool in *.
  rewrite Hlen. by case_decide.
Qed.

(** Indices returned by [length vs] successive calls from a pool of [n]
    entries. *)
Lemma makeInterfaceConstants_from vs : ∀ b,
  (length (generalPool b) + length vs ≤ 128)%nat →
  ∃ b', makeInterfaceConstants vs b =
          Ok (map (λ i, - (Z.of_nat i + 1))
                (seq (length (generalPool b)) (length vs)), b')
        ∧ generalPool b' = generalPool b ++ vs.
Proof.
  induction vs as [|v vs IH]; intros b Hlen; cbn [makeInterfaceConstants].
  - eexists. split; [reflexivity|]. by rewrite app_nil_r.
  - cbn [length] in Hlen.
    rewrite MakeInterfaceConstant_below by lia. cbn [res_bind fst snd].
    set (b1 := set_fn b _).
    assert (generalPool b1 = generalPool b ++ [v]) as Hb1 by reflexivity.
    destruct (IH b1) as (b' & Hrun & Hpool).
    { rewrite Hb1, length_app. cbn [length]. lia. }
    rewrite Hrun. cbn [res_bind fst snd].
    exists b'. split.
    + rewrite Hb1, length_app. cbn [length seq map].
      by rewrite Nat.add_1_r.
    + by rewrite Hpool, Hb1, <- app_assoc.
Qed.



Ltac pool_wraps :=
  intros c b; cbv zeta; split; [|split];
  [ intros Hn; eexists; split;
    [ match goal with |- ?f _ _ = _ => unfold f end;
      case_decide; [lia|]; rewrite to_int8_high by lia; reflexivity
    | cbn; split; [reflexivity|];
      split; [by apply list_lookup_middle|lia] ]
  | intros Hn; match goal with |- ∃ _, ?f _ _ = _ => unfold f end;
    case_decide; [lia|]; eexists; reflexivity
  | intros Hn; match goal with |- ∃ _, ?f _ _ = _ => unfold f end;
    case_decide; [|lia]; eexists; reflexivity ].

Lemma MakeIntConstant_wraps : poolIndexWraps MakeIntConstant intPool.
Proof. unfold poolIndexWraps, intPool. pool_wraps. Qed.

Lemma MakeFloatConstant_wraps : poolIndexWraps MakeFloatConstant floatPool.
Proof. unfold poolIndexWraps, floatPool. pool_wraps. Qed.

Lemma MakeStringConstant_wraps : poolIndexWraps MakeStringConstant stringPool.
Proof. unfold poolIndexWraps, stringPool. pool_wraps. Qed.

Lemma MakeGeneralConstant_wraps :
  poolIndexWraps MakeGeneralConstant generalPool.
Proof. unfold poolIndexWraps, generalPool. pool_wraps. Qed.

(** C10.  Once a pool holds 128 entries or more, [MakeIntConstant],
    [MakeFloatConstant], [MakeStringConstant] and [MakeGeneralConstant]
    return the pool length wrapped to a signed byte: a negative number
    ([-128] for the entry stored at position 128) that is not the position
    of the entry; the calls succeed as long as the pool holds at most 255
    entries before them and panic only from 256 on.  The index collides with
    the interface subspace: the 128th [MakeInterfaceConstant] of a builder
    returns [-128], and the [MakeGeneralConstant] that follows returns
    [-128] again for another entry. *)
Theorem constant_index_wraps_negative :
  poolIndexWraps MakeIntConstant intPool
  ∧ poolIndexWraps MakeFloatConstant floatPool
  ∧ poolIndexWraps MakeStringConstant stringPool
  ∧ poolIndexWraps MakeGeneralConstant generalPool
  ∧ (∀ vs v w, length vs = 127%nat →
       ∃ idx b1 b2 b3,
         makeInterfaceConstants vs (NewBuilder emptyFn) = Ok (idx, b1)
         ∧ MakeInterfaceConstant v b1 = Ok (-128, b2)
         ∧ generalPool b2 !! 127%nat = Some v
         ∧ MakeGeneralConstant w b2 = Ok (-128, b3)
         ∧ generalPool b3 !! 128%nat = Some w).
Proof.
  split; [apply MakeIntConstant_wraps|].
  split; [apply MakeFloatConstant_wraps|].
  split; [apply MakeStringConstant_wraps|].
  split; [apply MakeGeneralConstant_wraps|].
  intros vs v w Hlen.
  destruct (makeInterfaceConstants_from vs (NewBuilder emptyFn))
    as (b1 & Hrun & Hpool); [cbn; lia|].
  cbn in Hpool.
  assert (length (generalPool b1) = 127%nat) as Hlen1 by (by rewrite Hpool).
  pose proof (MakeInterfaceConstant_below v b1) as Hv.
  specialize (Hv ltac:(lia)).
  rewrite Hlen1 in Hv at 1. change (- (Z.of_nat 127 + 1)) with (-128) in Hv.
  set (b2 := set_fn b1 _) in Hv.
  assert (generalPool b2 = generalPool b1 ++ [v]) as Hpool2 by reflexivity.
  destruct (MakeGeneralConstant_wraps w b2) as (Hw & _).
  cbv zeta in Hw.
  assert (length (generalPool b2) = 128%nat) as Hlen2.
  { rewrite Hpool2, length_app, Hpool, Hlen. reflexivity. }
  rewrite Hlen2 in Hw. destruct Hw as (b3 & Hw & _ & Hat & _); [lia|].
  eexists _, b1, b2, b3. split; [exact Hrun|]. split; [exact Hv|].
  split; [|split; [exact Hw|exact Hat]].
  rewrite Hpool2, Hpool. rewrite <- Hlen. apply list_lookup_middle. done.
Qed.

Lemma constant_index_wraps_negative_witness :
  (∃ b', MakeIntConstant 5 (builderWithInts 128) = Ok (-128, b')
         ∧ intPool b' !! 128%nat = Some 5)
  ∧ (∃ msg, MakeIntConstant 5 (builderWithInts 256) = Panic msg)
  ∧ (∃ idx b1 b2 b3,
       makeInterfaceConstants (replicate 127 INil) (NewBuilder emptyFn)
         = Ok (idx, b1)
       ∧ MakeInterfaceConstant (IInt 1) b1 = Ok (-128, b2)
       ∧ MakeGeneralConstant (IInt 2) b2 = Ok (-128, b3)).
Proof.
  destruct constant_index_wraps_negative as (Hi & _ & _ & _ & Hc).
  split; [|split].
  - destruct (Hi 5 (builderWithInts 128)) as (H & _).
    destruct H as (b' & Hr & _ & Hat & _); [vm_compute; split; discriminate|].
    exists b'. split; [exact Hr|exact Hat].
  - destruct (Hi 5 (builderWithInts 256)) as (_ & _ & H).
    apply H. vm_compute. reflexivity.
  - destruct (Hc (replicate 127 INil) (IInt 1) (IInt 2))
      as (idx & b1 & b2 & b3 & H1 & H2 & _ & H3 & _).
    { by rewrite length_replicate. }
    exists idx, b1, b2, b3. split; [exact H1|]. split; [exact H2|exact H3].
Defined.

(** ** C3: registered operands and the committed marks *)

Lemma marksLe_refl m : marksLe m m.
Proof. intros k v Hk. exists v. split; [done|lia]. Qed.

Lemma marksLe_trans m1 m2 m3 : marksLe m1 m2 → marksLe m2 m3 → marksLe m1 m3.
Proof.
  intros H12 H23 k v Hk.
  destruct (H12 k v Hk) as (v2 & Hk2 & Hle2).
  destruct (H23 k v2 Hk2) as (v3 & Hk3 & Hle3).
  exists v3. split; [done|lia].
Qed.

Lemma marksLe_insert m k v :
  (∀ w, m !! k = Some w → w ≤ v) → marksLe m (<[k := v]> m).
Proof.
  intros Hv k' v' Hk'. destruct (decide (k = k')) as [->|Hne].
  - exists v. rewrite lookup_insert_eq. split; [done|]. by apply Hv.
  - exists v'. rewrite lookup_insert_ne by done. split; [done|lia].
Qed.

Lemma allocRegister_fn kind r b : fn (allocRegister kind r b) = fn b.
Proof.
  unfold allocRegister. case_decide; [|done].
  destruct (maxRegs b !! normKind kind) as [num|]; [case_decide|];
    cbn [numRegs set_maxRegs];
    (destruct (numRegs b !! normKind kind) as [num'|]; [case_decide|]);
    reflexivity.
Qed.

Lemma allocRegister_maxRegs kind r b :
  maxRegs (allocRegister kind r b) =
    if decide (0 < r) then
      match maxRegs b !! normKind kind with
      | Some num =>
          if decide (num < to_uint8 r)
          then <[normKind kind := to_uint8 r]> (maxRegs b) else maxRegs b
      | None => <[normKind kind := to_uint8 r]> (maxRegs b)
      end
    else maxRegs b.
Proof.
  unfold allocRegister. case_decide; [|done].
  destruct (maxRegs b !! normKind kind) as [num|]; [case_decide|];
    cbn [numRegs set_maxRegs];
    (destruct (numRegs b !! normKind kind) as [num'|]; [case_decide|]);
    reflexivity.
Qed.

Lemma allocRegister_mono kind r b :
  marksLe (maxRegs b) (maxRegs (allocRegister kind r b)).
Proof.
  rewrite allocRegister_maxRegs. case_decide; [|apply marksLe_refl].
  destruct (maxRegs b !! normKind kind) as [num|] eqn:Hk.
  - case_decide; [|apply marksLe_refl].
    apply marksLe_insert. intros w Hw. simplify_eq. lia.
  - apply marksLe_insert. intros w Hw. simplify_eq.
Qed.

(** What [allocRegister] is for: a positive register is covered by the mark
    of its class afterwards. *)
Lemma allocRegister_covers kind r b :
  0 < r ≤ 127 →
  ∃ v, maxRegs (allocRegister kind r b) !! normKind kind = Some v ∧ r ≤ v.
Proof.
  intros Hr. rewrite allocRegister_maxRegs.
  rewrite to_uint8_small by lia. case_decide; [|lia].
  destruct (maxRegs b !! normKind kind) as [num|] eqn:Hk.
  - case_decide.
    + exists r. rewrite lookup_insert_eq. split; [done|lia].
    + exists num. split; [done|lia].
  - exists r. rewrite lookup_insert_eq. split; [done|lia].
Qed.

Lemma covered_mono m m' nk r :
  covered m nk r → marksLe m m' → covered m' nk r.
Proof.
  intros (v & Hv & Hle) Hm. destruct (Hm _ _ Hv) as (v' & Hv' & Hle').
  exists v'. split; [done|lia].
Qed.

Lemma covered_alloc kind r b :
  0 < r ≤ 127 →
  covered (maxRegs (allocRegister kind r b)) (normKind kind) r.
Proof. apply allocRegister_covers. Qed.

Create HintDb marks.
#[local] Hint Resolve marksLe_refl allocRegister_mono : marks.
#[local] Hint Extern 2 (marksLe _ (maxRegs (allocRegister _ _ _))) =>
  eapply marksLe_trans; [|apply allocRegister_mono] : marks.

(** The arithmetic emitters return the builder after their
    [allocRegister] calls with one more instruction. *)
Ltac open_emitter H :=
  match type of H with
  | ?f _ ?k _ _ _ ?kind _ = Ok _ =>
      unfold f in H; destruct kind; destruct k; cbn in H;
      try discriminate H; injection H as <-
  end.

Lemma step_marks opc c b b' :
  step opc c b = Ok b' →
  marksLe (maxRegs b) (maxRegs b') ∧ RegNum (fn b') = RegNum (fn b).
Proof.
  intros H. destruct c; cbn [step] in H.
  - injection H as <-. split; [apply marksLe_refl|done].
  - unfold ExitScope in H. destruct (scopes b); [done|].
    unfold ExitStack in H.
    destruct (last _) as [[[[s0 s1] s2] s3]|]; [|done].
    injection H as <-. split; [apply marksLe_refl|done].
  - injection H as <-. split; [apply marksLe_refl|done].
  - unfold ExitStack in H.
    destruct (last _) as [[[[s0 s1] s2] s3]|]; [|done].
    injection H as <-. split; [apply marksLe_refl|done].
  - injection H as <-. unfold NewRegister. cbn [snd].
    rewrite allocRegister_fn. split; [apply allocRegister_mono|done].
  - injection H as <-. split; [apply marksLe_refl|done].
  - unfold SetLabelAddr in H. case_decide; [|done].
    injection H as <-. split; [apply marksLe_refl|done].
  - unfold Goto in H. repeat case_decide; try done.
    + destruct (labels b !! _) as [addr|]; [|done].
      case_decide.
      * destruct (gotos b); [|done].
        injection H as <-. split; [apply marksLe_refl|done].
      * destruct (encodeAddr addr) as [[a0 b0] c0].
        injection H as <-. split; [apply marksLe_refl|done].
    + injection H as <-. split; [apply marksLe_refl|done].
  - injection H as <-. split; [apply marksLe_refl|done].
  - open_emitter H; cbn; rewrite ?allocRegister_fn;
      (split; [auto 6 with marks|done]).
  - open_emitter H; cbn; rewrite ?allocRegister_fn;
      (split; [auto 6 with marks|done]).
  - open_emitter H; cbn; rewrite ?allocRegister_fn;
      (split; [auto 6 with marks|done]).
  - open_emitter H; cbn; rewrite ?allocRegister_fn;
      (split; [auto 6 with marks|done]).
  - open_emitter H; cbn; rewrite ?allocRegister_fn;
      (split; [auto 6 with marks|done]).
  - open_emitter H; cbn; rewrite ?allocRegister_fn;
      (split; [auto 6 with marks|done]).
  - injection H as <-. unfold Concat. cbn. rewrite ?allocRegister_fn.
    split; [auto 6 with marks|done].
  - injection H as <-. split; [apply marksLe_refl|done].
  - injection H as <-. split; [apply marksLe_refl|done].
  - unfold MakeIntConstant in H. case_decide; [done|].
    injection H as <-. split; [apply marksLe_refl|done].
  - unfold MakeFloatConstant in H. case_decide; [done|].
    injection H as <-. split; [apply marksLe_refl|done].
  - unfold MakeStringConstant in H. case_decide; [done|].
    injection H as <-. split; [apply marksLe_refl|done].
  - unfold MakeGeneralConstant in H. case_decide; [done|].
    injection H as <-. split; [apply marksLe_refl|done].
  - unfold MakeInterfaceConstant in H. case_decide; [done|].
    injection H as <-. split; [apply marksLe_refl|done].
Qed.

Lemma run_marks opc cs : ∀ b b',
  run opc cs b = Ok b' →
  marksLe (maxRegs b) (maxRegs b') ∧ RegNum (fn b') = RegNum (fn b).
Proof.
  induction cs as [|c cs IH]; intros b b' H; cbn [run] in H.
  - injection H as <-. split; [apply marksLe_refl|done].
  - destruct (step opc c b) as [b1|] eqn:Hstep; [|done].
    cbn [res_bind] in H.
    destruct (step_marks _ _ _ _ Hstep) as [Hm1 Hr1].
    destruct (IH _ _ H) as [Hm2 Hr2].
    split; [by eapply marksLe_trans|congruence].
Qed.

(** *** Finalization commits every mark *)

Lemma regClass_lt k : (regClass k < 4)%nat.
Proof. unfold regClass. repeat case_decide; lia. Qed.

Lemma commitReg_length k v r : length (commitReg k v r) = length r.
Proof.
  unfold commitReg. destruct (r !! regClass k); [|done].
  case_decide; [apply length_insert|done].
Qed.

Lemma commitReg_mono k v r i x :
  r !! i = Some x → ∃ y, commitReg k v r !! i = Some y ∧ x ≤ y.
Proof.
  intros Hi. unfold commitReg.
  destruct (r !! regClass k) as [cur|] eqn:Hk; [|exists x; split; [done|lia]].
  case_decide as Hlt; [|exists x; split; [done|lia]].
  destruct (decide (regClass k = i)) as [<-|Hne].
  - exists v. rewrite list_lookup_insert_eq by (by eapply lookup_lt_Some).
    split; [done|]. simplify_eq. lia.
  - exists x. rewrite list_lookup_insert_ne by done. split; [done|lia].
Qed.

Lemma commitReg_covers k v r :
  length r = 4%nat → ∃ hw, commitReg k v r !! regClass k = Some hw ∧ v ≤ hw.
Proof.
  intros Hlen. unfold commitReg.
  destruct (r !! regClass k) as [cur|] eqn:Hk.
  - case_decide.
    + exists v. rewrite list_lookup_insert_eq by (by eapply lookup_lt_Some).
      split; [done|lia].
    + exists cur. split; [done|lia].
  - apply lookup_ge_None in Hk. pose proof (regClass_lt k). lia.
Qed.

Lemma commit_all r m :
  length r = 4%nat →
  ∀ k v, m !! k = Some v →
    ∃ hw, map_fold commitReg r m !! regClass k = Some hw ∧ v ≤ hw.
Proof.
  intros Hlen.
  cut (length (map_fold commitReg r m) = 4%nat
       ∧ ∀ k v, m !! k = Some v →
           ∃ hw, map_fold commitReg r m !! regClass k = Some hw ∧ v ≤ hw).
  { intros [_ H]. exact H. }
  apply (map_fold_weak_ind
           (λ acc m, length acc = 4%nat
                     ∧ ∀ k v, m !! k = Some v →
                         ∃ hw, acc !! regClass k = Some hw ∧ v ≤ hw)).
  - split; [done|]. intros k v Hk. by rewrite lookup_empty in Hk.
  - intros i x m' acc Hnone [Hl IH]. split.
    + by rewrite commitReg_length.
    + intros k v Hk. destruct (decide (i = k)) as [->|Hne].
      * rewrite lookup_insert_eq in Hk. simplify_eq.
        by apply commitReg_covers.
      * rewrite lookup_insert_ne in Hk by done.
        destruct (IH k v Hk) as (hw & Hhw & Hle).
        destruct (commitReg_mono i x acc _ _ Hhw) as (y & Hy & Hle').
        exists y. split; [done|lia].
Qed.

Lemma End_marks b b' :
  End_ b = Ok b' → length (RegNum (fn b)) = 4%nat →
  ∀ k v, maxRegs b !! k = Some v →
    ∃ hw, RegNum (fn b') !! regClass k = Some hw ∧ v ≤ hw.
Proof.
  intros H Hlen k v Hk. unfold End_ in H.
  destruct (map_fold _ _ _) as [body|]; [|done].
  cbn [res_bind] in H. injection H as <-. cbn [fn set_gotos set_fn RegNum].
  by apply commit_all.
Qed.

Import VMX VMAll.

(** *** Every method *)

Lemma allocAll_marks l : ∀ b, marksLe (maxRegs b) (maxRegs (allocAll l b)).
Proof.
  induction l as [|[k r] l IH]; intros b; [apply marksLe_refl|].
  cbn [allocAll foldl fst snd].
  eapply marksLe_trans; [apply (allocRegister_mono k r)|apply IH].
Qed.

Lemma allocAll_covers l kind r : ∀ b,
  (kind, r) ∈ l → 0 < r ≤ 127 →
  covered (maxRegs (allocAll l b)) (normKind kind) r.
Proof.
  induction l as [|[k' r'] l IH]; intros b Hin Hr.
  - by apply elem_of_nil in Hin.
  - cbn [allocAll foldl fst snd].
    apply elem_of_cons in Hin as [[= <- <-]|Hin].
    + eapply covered_mono; [by apply covered_alloc|apply allocAll_marks].
    + by apply IH.
Qed.

Section AllFacts.

Context {T : Type} `{ReflectType T}.
Context (opc : Opcode → Z) (opm : OpcodeMore → Z) (mvt : MoveType → Z).

Abbreviation stepFull := (VMAll.stepFull opc opm mvt).
Abbreviation runFull := (VMAll.runFull opc opm mvt).
Abbreviation buildFull := (VMAll.buildFull opc opm mvt).
Abbreviation issued := (VMAll.issued opc opm mvt).

Lemma fn_alloc k r (b : FullBuilder T) :
  fn (core (alloc k r b)) = fn (core b).
Proof. apply allocRegister_fn. Qed.

Lemma RegNum_append i (b : FullBuilder T) :
  RegNum (fn (core (appendInstr i b))) = RegNum (fn (core b)).
Proof. reflexivity. Qed.

Lemma RegNum_alloc k r (b : FullBuilder T) :
  RegNum (fn (core (alloc k r b))) = RegNum (fn (core b)).
Proof. by rewrite fn_alloc. Qed.

Lemma core_AddLine pc line (b : FullBuilder T) :
  core (AddLine pc line b) = core b.
Proof. unfold AddLine. by destruct (Lines b). Qed.

Lemma core_set_Types (b : FullBuilder T) t : core (set_Types b t) = core b.
Proof. reflexivity. Qed.

Lemma core_set_Literals (b : FullBuilder T) t :
  core (set_Literals b t) = core b.
Proof. reflexivity. Qed.

Lemma maxRegs_append i (b : FullBuilder T) :
  maxRegs (core (appendInstr i b)) = maxRegs (core b).
Proof. reflexivity. Qed.

Lemma core_alloc k r (b : FullBuilder T) :
  core (alloc k r b) = allocRegister k r (core b).
Proof. reflexivity. Qed.

(** The marks after a call of [VM.call] other than [NewRegister] are the
    marks after registering what the table gives for it. *)
Lemma step_registers c b b' :
  step opc c b = Ok b' → (∀ k, c ≠ CNewRegister k) →
  maxRegs b' = maxRegs (allocAll (allocated (T := T) (FBase c)) b).
Proof.
  intros Hs Hn. destruct c; cbn [step] in Hs; cbn [allocated allocAll foldl].
  - by injection Hs as <-.
  - unfold ExitScope in Hs. destruct (scopes b); [done|].
    unfold ExitStack in Hs.
    destruct (last _) as [[[[s0 s1] s2] s3]|]; [|done]. by injection Hs as <-.
  - by injection Hs as <-.
  - unfold ExitStack in Hs.
    destruct (last _) as [[[[s0 s1] s2] s3]|]; [|done]. by injection Hs as <-.
  - by destruct (Hn kind).
  - by injection Hs as <-.
  - unfold SetLabelAddr in Hs. case_decide; [|done]. by injection Hs as <-.
  - unfold Goto in Hs. repeat case_decide; try done.
    + destruct (labels b !! _) as [addr|]; [|done].
      case_decide.
      * destruct (gotos b); [|done]. by injection Hs as <-.
      * destruct (encodeAddr addr) as [[a0 b0] c0]. by injection Hs as <-.
    + by injection Hs as <-.
  - by injection Hs as <-.
  - unfold Add in Hs; destruct kind, k; cbn in Hs; try discriminate Hs;
      by injection Hs as <-.
  - unfold Sub in Hs; destruct kind, k; cbn in Hs; try discriminate Hs;
      by injection Hs as <-.
  - unfold SubInv in Hs; destruct kind, k; cbn in Hs; try discriminate Hs;
      by injection Hs as <-.
  - unfold Mul in Hs; destruct kind, ky; cbn in Hs; try discriminate Hs;
      by injection Hs as <-.
  - unfold Div in Hs; destruct kind, ky; cbn in Hs; try discriminate Hs;
      by injection Hs as <-.
  - unfold Rem in Hs; destruct kind, ky; cbn in Hs; try discriminate Hs;
      by injection Hs as <-.
  - by injection Hs as <-.
  - by injection Hs as <-.
  - by injection Hs as <-.
  - unfold MakeIntConstant in Hs. case_decide; [done|]. by injection Hs as <-.
  - unfold MakeFloatConstant in Hs. case_decide; [done|].
    by injection Hs as <-.
  - unfold MakeStringConstant in Hs. case_decide; [done|].
    by injection Hs as <-.
  - unfold MakeGeneralConstant in Hs. case_decide; [done|].
    by injection Hs as <-.
  - unfold MakeInterfaceConstant in Hs. case_decide; [done|].
    by injection Hs as <-.
Qed.


(** The marks after a call other than [NewRegister] are the marks after
    registering what the table gives for it: the table is exact. *)
Lemma stepFull_registers c (b b' : FullBuilder T) :
  stepFull c b = Ok b' → isNewRegister c = false →
  maxRegs (core b') = maxRegs (allocAll (allocated c) (core b)).
Proof.
  intros Hs Hn. destruct c; cbn [VMAll.stepFull] in Hs;
    try (injection Hs as <-; reflexivity).
  - (* a call of [VM.call] *)
    destruct (step opc c (core b)) as [core'|] eqn:Hstep; [|done].
    injection Hs as <-. cbn [core set_core].
    apply (step_registers _ _ _ Hstep).
    intros k ->. discriminate Hn.
  - (* BindVarReg *)
    unfold BindVar, BindVarReg in Hs. destruct (last _); [|done].
    by injection Hs as <-.
  - (* AddType *)
    unfold AddTypeIndex in Hs. destruct (AddType typ (Types b)); [|done].
    by injection Hs as <-.
  - (* Type *)
    unfold TypeIndex in Hs. destruct (Type__ typ (Types b)); [|done].
    by injection Hs as <-.
  - (* AddLine *)
    injection Hs as <-. by rewrite core_AddLine.
  - (* Assert *)
    injection Hs as <-. cbn [allocated]. unfold Assert, assertKind.
    repeat case_decide; try reflexivity.
    destruct (lastIndex typ _ 0 None); reflexivity.
  - (* Call *)
    injection Hs as <-. unfold Call. by rewrite core_AddLine.
  - (* Case *)
    injection Hs as <-. unfold Case. cbn [allocated].
    by destruct (negb kvalue && bool_decide (value ≠ 0)),
      (bool_decide (ch ≠ 0)).
  - (* Convert *)
    unfold Convert in Hs. destruct (Type__ typ (Types b)) as [[rt ts]|]; [|done].
    by injection Hs as <-.
  - (* Range *)
    unfold Range in Hs. destruct kind; try discriminate Hs.
    by injection Hs as <-.
  - (* Func *)
    unfold Func in Hs. case_decide; [done|]. by injection Hs as <-.
  - (* If *)
    unfold If in Hs. destruct (kindToType kind), k; cbn in Hs;
      try discriminate Hs; by injection Hs as <-.
  - (* LoadNumber *)
    unfold LoadNumber in Hs. destruct typ; cbn in Hs; try discriminate Hs;
      by injection Hs as <-.
  - (* MakeSlice *)
    unfold MakeSlice in Hs. cbn [Types alloc set_core] in Hs.
    destruct (Type__ sliceType (Types b)) as [[rt ts]|]; [|done].
    cbn [res_bind] in Hs. injection Hs as <-. by case_decide.
  - (* Move *)
    injection Hs as <-. unfold Move. cbn [allocated]. by destruct k.
  - (* New *)
    unfold New in Hs. cbn [Types alloc set_core] in Hs.
    destruct (AddType typ (Types b)) as [[rt ts]|]; [|done].
    by injection Hs as <-.
  - (* Panic *)
    injection Hs as <-. unfold Panic_. by rewrite core_AddLine.
  - (* TailCall *)
    injection Hs as <-. unfold TailCall. by rewrite core_AddLine.
Qed.


Lemma RegNum_set_Types (b : FullBuilder T) t :
  RegNum (fn (core (set_Types b t))) = RegNum (fn (core b)).
Proof. reflexivity. Qed.

Lemma RegNum_set_Literals (b : FullBuilder T) t :
  RegNum (fn (core (set_Literals b t))) = RegNum (fn (core b)).
Proof. reflexivity. Qed.

Ltac regnum :=
  cbv zeta;
  repeat first
    [ rewrite core_AddLine
    | rewrite RegNum_append
    | rewrite RegNum_alloc
    | rewrite RegNum_set_Types
    | rewrite RegNum_set_Literals ];
  try reflexivity.

(** No method but [End] writes the committed marks. *)
Lemma stepFull_RegNum c (b b' : FullBuilder T) :
  stepFull c b = Ok b' → RegNum (fn (core b')) = RegNum (fn (core b)).
Proof.
  intros Hs. destruct c; cbn [VMAll.stepFull] in Hs;
    try (injection Hs as <-;
         unfold Append, AppendSlice, BinaryBitOperation, Bind, Call,
           CallNative, CallIndirect, Cap, Copy, Defer, Delete, GetFunc,
           GetVar, Go, Index, Len, MakeChan, MakeMap, Panic_, Print_,
           Receive, Recover, Return, Select, SetVar, SetMap, SetSlice,
           TailCall;
         by regnum).
  - destruct (step opc c (core b)) as [core'|] eqn:Hstep; [|done].
    injection Hs as <-. cbn [core set_core].
    apply (step_marks _ _ _ _ Hstep).
  - unfold BindVar, BindVarReg in Hs. destruct (last _); [|done].
    by injection Hs as <-.
  - unfold AddTypeIndex in Hs. destruct (AddType typ (Types b)); [|done].
    by injection Hs as <-.
  - unfold TypeIndex in Hs. destruct (Type__ typ (Types b)); [|done].
    by injection Hs as <-.
  - injection Hs as <-. unfold Assert. repeat case_decide; try by regnum.
    destruct (lastIndex typ _ 0 None); by regnum.
  - injection Hs as <-. unfold Case.
    destruct (negb kvalue && bool_decide (value ≠ 0)),
      (bool_decide (ch ≠ 0)); by regnum.
  - unfold Convert in Hs. destruct (Type__ typ (Types b)) as [[rt ts]|]; [|done].
    injection Hs as <-. by regnum.
  - unfold Range in Hs. destruct kind; try discriminate Hs.
    injection Hs as <-. by regnum.
  - unfold Func in Hs. case_decide; [done|]. injection Hs as <-. by regnum.
  - unfold If in Hs. destruct (kindToType kind), k; cbn [res_bind] in Hs;
      try discriminate Hs; injection Hs as <-; by regnum.
  - unfold LoadNumber in Hs. destruct typ; cbn [res_bind] in Hs;
      try discriminate Hs; injection Hs as <-; by regnum.
  - unfold MakeSlice in Hs. cbn [Types alloc set_core] in Hs.
    destruct (Type__ sliceType (Types b)) as [[rt ts]|]; [|done].
    cbn [res_bind] in Hs. injection Hs as <-. case_decide; by regnum.
  - injection Hs as <-. unfold Move. destruct k; by regnum.
  - unfold New in Hs. cbn [Types alloc set_core] in Hs.
    destruct (AddType typ (Types b)) as [[rt ts]|]; [|done].
    injection Hs as <-. by regnum.
Qed.

Lemma isNewRegister_inv (c : fullCall T) :
  isNewRegister c = true → ∃ kind, c = FBase (CNewRegister kind).
Proof.
  intros Hn. destruct c; try discriminate Hn.
  destruct c; try discriminate Hn. by eexists.
Qed.

Lemma stepFull_marks c (b b' : FullBuilder T) :
  stepFull c b = Ok b' → marksLe (maxRegs (core b)) (maxRegs (core b')).
Proof.
  intros Hs. destruct (isNewRegister c) eqn:Hn.
  - apply isNewRegister_inv in Hn as [kind ->].
    cbn [VMAll.stepFull step res_bind] in Hs. injection Hs as <-.
    apply allocRegister_mono.
  - rewrite (stepFull_registers _ _ _ Hs Hn). apply allocAll_marks.
Qed.

Lemma runFull_marks cs : ∀ (b b' : FullBuilder T),
  runFull cs b = Ok b' →
  marksLe (maxRegs (core b)) (maxRegs (core b'))
  ∧ RegNum (fn (core b')) = RegNum (fn (core b)).
Proof.
  induction cs as [|c cs IH]; intros b b' Hr; cbn [VMAll.runFull] in Hr.
  - injection Hr as <-. split; [apply marksLe_refl|done].
  - destruct (stepFull c b) as [b1|] eqn:Hstep; [|done].
    cbn [res_bind] in Hr. destruct (IH _ _ Hr) as [Hm Hn]. split.
    + eapply marksLe_trans; [by eapply stepFull_marks|done].
    + rewrite Hn. by eapply stepFull_RegNum.
Qed.

(** What a call registers stays covered to the end of the run. *)
Lemma runFull_covers cs : ∀ (b b' : FullBuilder T) c kind r,
  runFull cs b = Ok b' → c ∈ cs → (kind, r) ∈ allocated c → 0 < r ≤ 127 →
  covered (maxRegs (core b')) (normKind kind) r.
Proof.
  induction cs as [|c0 cs IH]; intros b b' c kind r Hr Hc Hin Hrange.
  - by apply elem_of_nil in Hc.
  - cbn [VMAll.runFull] in Hr.
    destruct (stepFull c0 b) as [b1|] eqn:Hstep; [|done].
    cbn [res_bind] in Hr.
    apply elem_of_cons in Hc as [->|Hc]; [|by eapply IH].
    eapply covered_mono; [|by apply (runFull_marks cs b1 b')].
    destruct (isNewRegister c0) eqn:Hn.
    + apply isNewRegister_inv in Hn as [kind' ->].
      by apply elem_of_nil in Hin.
    + rewrite (stepFull_registers _ _ _ Hstep Hn). by apply allocAll_covers.
Qed.

Lemma runFull_app cs1 : ∀ cs2 (b b' : FullBuilder T),
  runFull (cs1 ++ cs2) b = Ok b' →
  ∃ b1, runFull cs1 b = Ok b1 ∧ runFull cs2 b1 = Ok b'.
Proof.
  induction cs1 as [|c cs1 IH]; intros cs2 b b' Hr.
  - by exists b.
  - cbn [app VMAll.runFull] in Hr |- *.
    destruct (stepFull c b) as [b1|]; [|done]. cbn [res_bind] in Hr |- *.
    by apply IH.
Qed.

(** On the calls of [VM.call] the two replays agree. *)
Lemma runFull_base cs : ∀ (b : FullBuilder T),
  runFull (map FBase cs) b
  = (core' ←! run opc cs (core b); Ok (set_core b core')).
Proof.
  induction cs as [|c cs IH]; intros b; [by destruct b|].
  cbn [map VMAll.runFull VMAll.stepFull run].
  destruct (step opc c (core b)) as [b1|]; [|done].
  cbn [res_bind]. rewrite IH. cbn [core set_core].
  by destruct (run opc cs b1).
Qed.

Lemma buildFull_base cs :
  buildFull (map FBase cs)
  = (b ←! build opc cs; Ok (mkFull b [] [] None)).
Proof.
  unfold VMAll.buildFull, build. rewrite runFull_base.
  cbn [core NewFullBuilder].
  destruct (run opc cs (NewBuilder emptyFn)) as [b1|]; [|done].
  cbn [res_bind core set_core]. by destruct (End_ b1).
Qed.

(** A positive register that [NewRegister] returns stays covered to the end
    of the run. *)
Lemma runFull_issued cs (b : FullBuilder T) kind r :
  runFull cs (NewFullBuilder emptyFn) = Ok b → issued cs kind r → 0 < r →
  covered (maxRegs (core b)) (normKind kind) r.
Proof.
  intros Hr (cs1 & cs2 & b1 & -> & Hr1 & Hreg) Hpos.
  apply runFull_app in Hr as (b1' & Hr1' & Hr2).
  rewrite Hr1 in Hr1'. injection Hr1' as <-.
  cbn [VMAll.runFull VMAll.stepFull step res_bind] in Hr2.
  eapply covered_mono; [|exact (proj1 (runFull_marks cs2 _ b Hr2))].
  cbn [core set_core]. unfold NewRegister in Hreg |- *. cbn [fst snd] in *.
  rewrite Hreg.
  assert (r ≤ 127).
  { rewrite <- Hreg. unfold to_int8.
    pose proof (Z.mod_pos_bound
                  (to_int8 (regs_get (numRegs (core b1)) (normKind kind)) + 1
                   + 128) 256). unfold to_int8 in *. lia. }
  replace (normKind kind) with (normKind (normKind kind)) at 2
    by (by destruct kind).
  apply covered_alloc. lia.
Qed.

Lemma Body_appendInstr i (b : FullBuilder T) :
  Body (fn (core (appendInstr i b))) = Body (fn (core b)) ++ [i].
Proof. reflexivity. Qed.

Lemma Body_alloc k r (b : FullBuilder T) :
  Body (fn (core (alloc k r b))) = Body (fn (core b)).
Proof. by rewrite fn_alloc. Qed.

Lemma Body_emit i b : Body (fn (emit i b)) = Body (fn b) ++ [i].
Proof. reflexivity. Qed.

Lemma Body_allocRegister k r b :
  Body (fn (allocRegister k r b)) = Body (fn b).
Proof. by rewrite allocRegister_fn. Qed.

Ltac body_norm :=
  cbv zeta;
  repeat first
    [ rewrite core_AddLine
    | rewrite Body_appendInstr
    | rewrite Body_alloc
    | rewrite Body_emit
    | rewrite Body_allocRegister
    | rewrite core_set_Types
    | rewrite core_set_Literals ].

Ltac first_instr Hin :=
  body_norm; rewrite <- ?app_assoc; eexists;
  (split; [by apply list_lookup_middle|]);
  cbn [VM.A VM.B VM.C];
  repeat (apply elem_of_cons in Hin as [[= -> ->]|Hin]; [auto|]);
  by apply elem_of_nil in Hin.

(** What a method registers is an operand of the instruction that it
    appends (the first one, where it appends several). *)
Lemma stepFull_operands c (b b' : FullBuilder T) kind r :
  stepFull c b = Ok b' → (kind, r) ∈ allocated c →
  ∃ i, Body (fn (core b')) !! length (Body (fn (core b))) = Some i
       ∧ (A i = r ∨ B i = r ∨ C i = r).
Proof.
  intros Hs Hin.
  destruct c as [c| | | | | | | | | | | | | | | | | | | | | | | | | | | | | | | | | | | | | | | | | |];
    cbn [allocated] in Hin;
    try (by apply elem_of_nil in Hin);
    cbn [VMAll.stepFull] in Hs.
  - destruct (step opc c (core b)) as [core'|] eqn:Hstep; [|done].
    injection Hs as <-. cbn [core set_core].
    destruct c; try (by apply elem_of_nil in Hin); cbn [step] in Hstep.
    + unfold Add in Hstep; destruct kind0, k; cbn [res_bind] in Hstep;
        try discriminate Hstep; injection Hstep as <-; first_instr Hin.
    + unfold Sub in Hstep; destruct kind0, k; cbn [res_bind] in Hstep;
        try discriminate Hstep; injection Hstep as <-; first_instr Hin.
    + unfold SubInv in Hstep; destruct kind0, k; cbn [res_bind] in Hstep;
        try discriminate Hstep; injection Hstep as <-; first_instr Hin.
    + unfold Mul in Hstep; destruct kind0, ky; cbn [res_bind] in Hstep;
        try discriminate Hstep; injection Hstep as <-; first_instr Hin.
    + unfold Div in Hstep; destruct kind0, ky; cbn [res_bind] in Hstep;
        try discriminate Hstep; injection Hstep as <-; first_instr Hin.
    + unfold Rem in Hstep; destruct kind0, ky; cbn [res_bind] in Hstep;
        try discriminate Hstep; injection Hstep as <-; first_instr Hin.
    + injection Hstep as <-. unfold Concat. first_instr Hin.
  - injection Hs as <-. unfold Append. first_instr Hin.
  - injection Hs as <-. unfold AppendSlice. first_instr Hin.
  - injection Hs as <-. unfold Assert.
    repeat case_decide; try first_instr Hin.
    destruct (lastIndex typ _ 0 None); first_instr Hin.
  - injection Hs as <-. unfold Bind. first_instr Hin.
  - injection Hs as <-. unfold Cap. first_instr Hin.
  - injection Hs as <-. unfold Case.
    destruct (negb kvalue && bool_decide (value ≠ 0)),
      (bool_decide (ch ≠ 0)); first_instr Hin.
  - unfold Convert in Hs.
    destruct (Type__ typ (Types b)) as [[rt ts]|]; [|done].
    injection Hs as <-. first_instr Hin.
  - injection Hs as <-. unfold Copy. first_instr Hin.
  - injection Hs as <-. unfold Defer. first_instr Hin.
  - injection Hs as <-. unfold Delete. first_instr Hin.
  - unfold Func in Hs. case_decide; [done|]. injection Hs as <-.
    first_instr Hin.
  - injection Hs as <-. unfold GetFunc. first_instr Hin.
  - injection Hs as <-. unfold GetVar. first_instr Hin.
  - unfold If in Hs. destruct (kindToType kind0), k; cbn [res_bind] in Hs;
      try discriminate Hs; injection Hs as <-; first_instr Hin.
  - injection Hs as <-. unfold Len. first_instr Hin.
  - unfold MakeSlice in Hs. cbn [Types alloc set_core] in Hs.
    destruct (Type__ sliceType (Types b)) as [[rt ts]|]; [|done].
    cbn [res_bind] in Hs. injection Hs as <-.
    case_decide; first_instr Hin.
  - injection Hs as <-. unfold Move. destruct k; first_instr Hin.
  - unfold New in Hs. cbn [Types alloc set_core] in Hs.
    destruct (AddType typ (Types b)) as [[rt ts]|]; [|done].
    injection Hs as <-. first_instr Hin.
  - injection Hs as <-. unfold Panic_. first_instr Hin.
  - injection Hs as <-. unfold Recover. first_instr Hin.
Qed.


End AllFacts.


(** The float operands of a [Sub] are within the mark of their class when
    [NewRegister] made them, although [Sub] registers them as integers. *)
Example Sub_float_issued :
  ∃ b, buildFull opcTable opmTable mvtTable issuedFloatSub = Ok b
       ∧ Body (fn (core b)) = [mkInstr (opcTable OpSubFloat64) 1 2 2]
       ∧ highWaterMark (fn (core b)) Float64 = 2.
Proof. eexists. split; [vm_compute; reflexivity|]. by vm_compute. Qed.


(** [Sub] and [SubInv] with a float kind register their operands in the
    [Int] class: the [Float] mark stays at 0 under the operand 3, and the
    [Int] mark is raised instead. *)
Example Sub_float_registers_int :
  ∃ b, build opcTable [CSub false 1 2 3 Float64] = Ok b
       ∧ Body (fn b) = [mkInstr (opcTable OpSubFloat64) 1 2 3]
       ∧ highWaterMark (fn b) Float64 = 0
       ∧ highWaterMark (fn b) Int = 3.
Proof. eexists. split; [vm_compute; reflexivity|]. by vm_compute. Qed.

End VMFacts.

Module TplFacts.
Import Tpl.

(** ** C4: the position of [extends] *)

Section ParserFacts.

Context (parseExprList :
           option token → bool → bool → bool → bool → list token →
           outcome (option (list Expression) * token * list token)).
Context (parseSwitch : parsing → Position → outcome (Node * list token)).
Context (unquoteString : string → string) (validPath : string → bool).

Abbreviation parseStatement :=
  (Tpl.parseStatement parseExprList parseSwitch unquoteString validPath).

Lemma hasNonText_first_check nodes :
  hasNonText nodes = true →
  match nodes with
  | [] => false
  | first :: others => negb (isText first) || bool_decide (others ≠ [])
  end = true.
Proof.
  destruct nodes as [|first others]; [done|]. cbn [hasNonText existsb].
  destruct (isText first); cbn [negb orb]; [|done].
  destruct others; [done|]. intros _. by apply bool_decide_eq_true.
Qed.

(** The checks that an [extends] statement meets, in their order. *)
Lemma parseStatement_extends p tok0 tok rest parent :
  pctx p ≠ ContextNone → lex p = tok :: rest → typ tok = tokenExtends →
  last (ancestors p) = Some parent →
  (openSwitchWithoutCases parent = true →
     parseStatement p tok0 =
       Fail (SyntaxError EmptyString (pos tok)
               (Errorf "unexpected %s, expecting case of default or {%% end %%}"
                  [ATok tok])))
  ∧ (openSwitchWithoutCases parent = false → isExtended p = true →
       parseStatement p tok0 =
         Fail (SyntaxError EmptyString (pos tok)
                 (Errorf "extends already exists" [])))
  ∧ (openSwitchWithoutCases parent = false → isExtended p = false →
     ∀ path nodes c others,
       ancestors p = NTree path nodes c :: others →
       hasNonText nodes = true →
       parseStatement p tok0 =
         Fail (SyntaxError EmptyString (pos tok)
                 (Errorf "extends can only be the first statement" []))).
Proof.
  intros Hctx Hlex Htyp Hparent.
  unfold Tpl.parseStatement. rewrite bool_decide_eq_true_2 by done.
  unfold next. rewrite Hlex. cbn [outcome_bind ancestors set_lex pctx typ].
  rewrite Hparent, Htyp.
  split; [|split].
  - intros Hsw. destruct parent as [| | | | | | | | | |cases|cases| | | | | |];
      try discriminate Hsw; destruct cases; try discriminate Hsw; reflexivity.
  - intros Hsw Hext.
    replace (bool_decide _ && bool_decide _) with false.
    2:{ destruct parent as [| | | | | | | | | |cases|cases| | | | | |];
          try reflexivity; destruct cases; try discriminate Hsw; reflexivity. }
    change (isExtended (set_lex p rest)) with (isExtended p).
    rewrite bool_decide_eq_false_2 by done. by rewrite Hext.
  - intros Hsw Hext path nodes c others Hanc Hnon.
    replace (bool_decide _ && bool_decide _) with false.
    2:{ destruct parent as [| | | | | | | | | |cases|cases| | | | | |];
          try reflexivity; destruct cases; try discriminate Hsw; reflexivity. }
    change (isExtended (set_lex p rest)) with (isExtended p).
    rewrite bool_decide_eq_false_2 by done.
    rewrite Hext, Hanc. by rewrite hasNonText_first_check.
Qed.

(** An [if] statement at the top level of the file leaves an [If] node
    in the tree and goes into its block. *)
Lemma parseStatement_if_top p0 t0 tokIf rest0 path nodes c p1 :
  pctx p0 ≠ ContextNone → lex p0 = tokIf :: rest0 → typ tokIf = tokenIf →
  ancestors p0 = [NTree path nodes c] →
  parseStatement p0 t0 = Done p1 →
  ∃ node, isText node = false
          ∧ ancestors p1 = [NTree path (nodes ++ [node]) c; node; NBlock []]
          ∧ isExtended p1 = isExtended p0
          ∧ pctx p1 = pctx p0.
Proof.
  intros Hctx Hlex Htyp Hanc. unfold Tpl.parseStatement.
  rewrite bool_decide_eq_true_2 by done.
  unfold next. rewrite Hlex. cbn [outcome_bind ancestors set_lex pctx typ lex].
  rewrite Hanc, Htyp. cbn [last bool_decide andb].
  destruct (parseExprList _ _ _ _ _ _) as [[[es tok] rest]| | |]; try done.
  cbn [outcome_bind]. destruct (sliceOf es) as [|expr more]; [done|].
  change (bool_decide (-1 = 0)) with false. cbn [andb].
  case_bool_decide; [done|].
  destruct (badEnd _ _ _); [done|].
  unfold addToParent. cbn [ancestors set_lex]. rewrite Hanc.
  cbn [last addChild outcome_bind removelast app].
  intros [= <-]. eexists. split; [|split; [reflexivity|split; reflexivity]].
  reflexivity.
Qed.

Lemma hasNonText_app_non_text nodes node :
  isText node = false → hasNonText (nodes ++ [node]) = true.
Proof.
  intros H. unfold hasNonText. rewrite existsb_app. cbn. rewrite H.
  by rewrite orb_true_r.
Qed.

(** C4, as the code has it.  In a template context an [extends] statement
    meets three checks in this order.  If the innermost open container is a
    switch or a type switch that has no case yet, the statement is refused
    with "unexpected ..., expecting case of default or end".  Otherwise, if
    the file has an [extends] already, it is refused with "extends already
    exists"; otherwise, if the tree holds a node that is not text, it is
    refused with "extends can only be the first statement".  In particular
    this is the answer to an [extends] that follows an [if] opened at the
    top of the file. *)
Theorem extends_first_and_once p tok0 tok rest parent :
  pctx p ≠ ContextNone → lex p = tok :: rest → typ tok = tokenExtends →
  last (ancestors p) = Some parent →
  (openSwitchWithoutCases parent = true →
     parseStatement p tok0 =
       Fail (SyntaxError EmptyString (pos tok)
               (Errorf "unexpected %s, expecting case of default or {%% end %%}"
                  [ATok tok])))
  ∧ (openSwitchWithoutCases parent = false → isExtended p = true →
       parseStatement p tok0 =
         Fail (SyntaxError EmptyString (pos tok)
                 (Errorf "extends already exists" [])))
  ∧ (openSwitchWithoutCases parent = false → isExtended p = false →
     ∀ path nodes c others,
       ancestors p = NTree path nodes c :: others →
       hasNonText nodes = true →
       parseStatement p tok0 =
         Fail (SyntaxError EmptyString (pos tok)
                 (Errorf "extends can only be the first statement" [])))
  ∧ (∀ p0 t0 tokIf rest0 path nodes c,
       pctx p0 ≠ ContextNone → isExtended p0 = false →
       lex p0 = tokIf :: rest0 → typ tokIf = tokenIf →
       ancestors p0 = [NTree path nodes c] →
       parseStatement p0 t0 = Done p →
       parseStatement p tok0 =
         Fail (SyntaxError EmptyString (pos tok)
                 (Errorf "extends can only be the first statement" []))).
Proof.
  intros Hctx Hlex Htyp Hparent.
  destruct (parseStatement_extends p tok0 tok rest parent Hctx Hlex Htyp
              Hparent) as (H1 & H2 & H3).
  split; [exact H1|]. split; [exact H2|]. split; [exact H3|].
  intros p0 t0 tokIf rest0 path nodes c Hctx0 Hext0 Hlex0 Htyp0 Hanc0 Hif.
  destruct (parseStatement_if_top _ _ _ _ _ _ _ _ Hctx0 Hlex0 Htyp0 Hanc0 Hif)
    as (node & Hnode & Hanc & Hext & _).
  rewrite Hanc in Hparent. cbn in Hparent. injection Hparent as <-.
  eapply H3; [done|congruence|exact Hanc|].
  by apply hasNonText_app_non_text.
Qed.

End ParserFacts.

Lemma extends_first_and_once_witness :
  Tpl.parseStatement identExprList identSwitch stripQuotes anyPath
    openIfState (tk tokenStartStatement "{%" 10)
  = Fail (SyntaxError EmptyString (mkPos 1 14 13 19)
            (Errorf "extends can only be the first statement" [])).
Proof.
  refine (proj1 (proj2 (proj2
    (extends_first_and_once identExprList identSwitch stripQuotes anyPath
       openIfState (tk tokenStartStatement "{%" 10)
       (tk tokenExtends "extends" 13)
       [tk tokenRawString "`/base`" 21; tk tokenEndStatement "%}" 29;
        tk tokenEOF EmptyString 31]
       (NBlock []) _ _ _ _))) _ _ EmptyString _ ContextHTML _ _ _);
    first [reflexivity | discriminate].
Defined.

(** The scenario of the specification, from the tokens of the file. *)
Example ifThenExtends_refused :
  sampleParse ifThenExtends
  = Fail (SyntaxError EmptyString (mkPos 1 14 13 19)
            (Errorf "extends can only be the first statement" [])).
Proof. vm_compute. reflexivity. Qed.

Example extendsTwice_refused :
  sampleParse extendsTwice
  = Fail (SyntaxError EmptyString (mkPos 1 26 25 31)
            (Errorf "extends already exists" [])).
Proof. vm_compute. reflexivity. Qed.

(** C4, as the specification has it, fails on [{% switch x %}{% extends
    "/base" %}]: the switch is a node of the tree that is not text, and the
    [extends] after it is refused, but as a statement out of place in a
    switch, not as an [extends] that is not the first statement. *)
Lemma extends_after_open_switch :
  sampleParse switchThenExtends
  = Fail (SyntaxError EmptyString (mkPos 1 18 17 23)
            (Errorf "unexpected %s, expecting case of default or {%% end %%}"
               [ATok (tk tokenExtends "extends" 17)]))
  ∧ ¬ extendsAfterNodeRefusedAsNotFirst
        (Tpl.parseStatement identExprList identSwitch stripQuotes anyPath).
Proof.
  split; [vm_compute; reflexivity|].
  intros H.
  destruct (H (mkParsing
                 [ tk tokenExtends "extends" 17;
                   tk tokenRawString "`/base`" 25;
                   tk tokenEndStatement "%}" 33; tk tokenEOF EmptyString 35 ]
                 None false false true ContextHTML
                 [NTree EmptyString [NSwitch []] ContextHTML; NSwitch []]
                 (mkPos 0 0 0 0))
              (tk tokenStartStatement "{%" 14)
              (tk tokenExtends "extends" 17)
              [ tk tokenRawString "`/base`" 25;
                tk tokenEndStatement "%}" 33; tk tokenEOF EmptyString 35 ])
    as (path & position & Hfail); [done..|].
  vm_compute in Hfail. discriminate Hfail.
Qed.

(** ** C8: the cases of a type switch *)

Lemma typeSwitchCaseCheck_accepts tokpos es :
  Forall (λ e, isTypeName e = true) es →
  typeSwitchCaseCheck tokpos es = None.
Proof.
  induction 1 as [|e es He _ IH]; [done|]. cbn [typeSwitchCaseCheck].
  destruct e; try discriminate He. cbn [isTypeName] in He.
  apply negb_true_iff in He. by rewrite He.
Qed.

Lemma typeSwitchCaseCheck_refuses tokpos es :
  Exists (λ e, isTypeName e = false) es →
  ∃ m, typeSwitchCaseCheck tokpos es = Some (SyntaxError EmptyString tokpos m)
       ∧ contains (format m) "is not a type" = true.
Proof.
  induction es as [|e es IH]; intros Hex; [by apply Exists_nil in Hex|].
  cbn [typeSwitchCaseCheck].
  destruct e; try (eexists; split; [reflexivity|by vm_compute]).
  destruct (bool_decide (name = "true" ∨ name = "false")) eqn:Hname.
  - eexists. split; [reflexivity|by vm_compute].
  - apply IH. apply Exists_cons in Hex as [He|Hex]; [|done].
    cbn [isTypeName] in He. rewrite Hname in He. discriminate He.
Qed.

Lemma listedLiteral_not_typeName e :
  isListedLiteral e = true → isTypeName e = false.
Proof.
  destruct e; try done. cbn [isListedLiteral isTypeName]. by intros ->.
Qed.

(** C8, as the code has it.  In a type switch the parser accepts a case
    exactly when each of its expressions is an identifier other than [true]
    and [false]; a case with any other expression is refused with a "not a
    type" diagnostic: the boolean, int, float and string literals, and every
    expression that is not an identifier as well. *)
Theorem typeSwitch_case_identifiers_only
    (p : parsing) (cases : list Node) (stmt : Position)
    (expressions : option (list Expression)) (tok : token) :
  badEnd p tok tokenColon = false →
  last (ancestors p) = Some (NTypeSwitch cases) →
  (Forall (λ e, isTypeName e = true) (sliceOf expressions) →
     finishCase p (NTypeSwitch cases) stmt expressions tok =
       Done (set_ancestors p
               (removelast (ancestors p) ++
                [NTypeSwitch
                   (cases ++ [NCase (setStop stmt (Stop (pos tok)))
                                expressions [] false])])))
  ∧ (Exists (λ e, isTypeName e = false) (sliceOf expressions) →
       ∃ m, finishCase p (NTypeSwitch cases) stmt expressions tok =
              Fail (SyntaxError EmptyString (pos tok) m)
            ∧ contains (format m) "is not a type" = true)
  ∧ (∀ e, isListedLiteral e = true → isTypeName e = false)
  ∧ (∀ e, isTypeName e = true →
       ∃ name, e = Identifier name ∧ name ≠ "true" ∧ name ≠ "false").
Proof.
  intros Hend Hparent. unfold finishCase. rewrite Hend.
  cbn [isTypeSwitch]. split; [|split; [|split]].
  - intros Hall. rewrite typeSwitchCaseCheck_accepts by done.
    unfold addToParent. rewrite Hparent. reflexivity.
  - intros Hex.
    destruct (typeSwitchCaseCheck_refuses (pos tok) _ Hex) as (m & -> & Hm).
    by exists m.
  - apply listedLiteral_not_typeName.
  - intros e He. destruct e; try discriminate He. cbn [isTypeName] in He.
    apply negb_true_iff, bool_decide_eq_false in He.
    exists name. split; [done|]. split; intros ->; apply He; auto.
Qed.

Lemma typeSwitch_case_identifiers_only_witness :
  ∃ m,
    finishCase
      (mkParsing [] None false false false ContextHTML
         [NTree EmptyString [NTypeSwitch []] ContextHTML; NTypeSwitch []]
         (mkPos 0 0 0 0))
      (NTypeSwitch []) (mkPos 1 1 0 1)
      (Some [Selector (Identifier "pkg") "T"])
      (tk tokenEndStatement "%}" 14)
    = Fail (SyntaxError EmptyString (pos (tk tokenEndStatement "%}" 14)) m)
    ∧ contains (format m) "is not a type" = true.
Proof.
  apply (typeSwitch_case_identifiers_only
           (mkParsing [] None false false false ContextHTML
              [NTree EmptyString [NTypeSwitch []] ContextHTML; NTypeSwitch []]
              (mkPos 0 0 0 0))
           [] (mkPos 1 1 0 1) (Some [Selector (Identifier "pkg") "T"])
           (tk tokenEndStatement "%}" 14)).
  - reflexivity.
  - reflexivity.
  - apply Exists_cons_hd. reflexivity.
Defined.

(** C8, as the specification has it, fails: the selector [pkg.T] is none of
    the listed literals, and the parser refuses it. *)
Lemma selector_case_refused : ¬ unlistedCasesAccepted.
Proof.
  intros H.
  specialize (H (mkPos 1 1 0 1) [Selector (Identifier "pkg") "T"]).
  discriminate H. by repeat constructor.
Qed.

Section CaseFacts.

Context (parseExprList :
           option token → bool → bool → bool → bool → list token →
           outcome (option (list Expression) * token * list token)).
Context (parseSwitch : parsing → Position → outcome (Node * list token)).
Context (unquoteString : string → string) (validPath : string → bool).

(** In a template, [parseStatement] on a [case] inside a type switch is
    [finishCase] on what the expression parser returns. *)
Lemma parseStatement_case p tok0 tok rest cases :
  pctx p ≠ ContextNone → lex p = tok :: rest → typ tok = tokenCase →
  last (ancestors p) = Some (NTypeSwitch cases) →
  Tpl.parseStatement parseExprList parseSwitch unquoteString validPath p tok0
  = outcome_bind (parseExprList None false false false false rest)
      (λ r, finishCase (set_lex (set_lex p rest) r.2) (NTypeSwitch cases)
              (pos tok0) r.1.1 r.1.2).
Proof.
  intros Hctx Hlex Htyp Hparent. unfold Tpl.parseStatement.
  rewrite bool_decide_eq_true_2 by done.
  unfold next. rewrite Hlex. cbn [outcome_bind ancestors set_lex pctx typ lex].
  rewrite Hparent, Htyp.
  replace (bool_decide _ && bool_decide _) with false.
  2:{ symmetry. apply andb_false_iff. right.
      apply bool_decide_eq_false. intros [? _]. done. }
  destruct (parseExprList _ _ _ _ _ _) as [[[es t] l]| | |]; reflexivity.
Qed.

End CaseFacts.

(** ** C5: cycles *)

Section ExpanderFacts.

Context (toAbsolutePath : string → string → error + string).
Context (read : string → Context → error + TreeData).

Abbreviation parsePath := (Tpl.parsePath toAbsolutePath read).
Abbreviation Parse := (Tpl.Parse toAbsolutePath read).

(** A path that is being expanded is reported as a cycle, before the cache
    is asked. *)
Lemma parsePath_cycle fuel pp path x :
  path ∈ paths pp →
  parsePath (S fuel) pp path x = (pp, XErr (CycleError path)).
Proof. intros H. cbn [Tpl.parsePath]. by rewrite bool_decide_eq_true_2. Qed.

Lemma cacheGet_miss c path x :
  completed c !! (path, x) = None → (path, x) ∉ reserved c →
  cacheGet c path x
  = GetMiss (mkCache (completed c) ({[ (path, x) ]} ∪ reserved c)).
Proof.
  intros Hc Hr. unfold cacheGet. rewrite Hc.
  by rewrite bool_decide_eq_false_2.
Qed.

(** The include of a path that is being expanded: the cycle error of
    [parsePath] comes back with "include " in front. *)
Lemma expand_include_cycle fuel pp p npath tail x nctx :
  toAbsolutePath "/" tail = inr npath →
  npath = String (Ascii.ascii_of_nat 47) tail →
  npath ∈ paths pp →
  expand toAbsolutePath (parsePath (S fuel)) pp [NInclude p npath nctx None] x
  = (pp, XErr (CycleError ("include " +:+ npath))).
Proof.
  intros Habs -> Hin. cbn [expand expandNode]. unfold attach, abs.
  cbn [headIsSlash dropHead]. rewrite Ascii.eqb_refl, Habs.
  rewrite parsePath_cycle by done. reflexivity.
Qed.

(** C5, as the code has it.  With [/a] made of an include of [/b] and
    [/b] of an include of [/a], [Parse("/a")] on a new parser fails with a
    cycle error, given fuel for the three nested calls of [parsePath].
    [parsePath] reports the path that is entered again, each [Include] on
    the way back puts "include " in front of the chain, and [Parse] puts its
    path, a newline and a tab in front: the text of the error is "cycle not
    allowed", then [/a], then, on a new line after a tab, "include include
    /a".  Both reservations of the cache are released. *)
Theorem include_cycle_error
    (fuel : nat) (x xb xa : Context) (pa pb : Position) (ta tb : TreeData) :
  toAbsolutePath "/" "a" = inr "/a" →
  toAbsolutePath "/" "b" = inr "/b" →
  read "/a" x = inr ta → TNodes ta = [NInclude pa "/b" xb None] →
  read "/b" xb = inr tb → TNodes tb = [NInclude pb "/a" xa None] →
  (3 ≤ fuel)%nat →
  Parse fuel emptyCache "/a" x
  = (emptyCache,
     XErr (CycleError ("/a" +:+ nl +:+ tab +:+ "include include /a")))
  ∧ cycleText ("/a" +:+ nl +:+ tab +:+ "include include /a")
    = "cycle not allowed" +:+ nl +:+ "/a" +:+ nl +:+ tab
      +:+ "include include /a"
  ∧ (∀ fmt p npath absPath chain,
       directiveError fmt "include " p npath absPath (CycleError chain)
       = CycleError ("include " +:+ chain)).
Proof.
  intros Ha Hb Hra Hta Hrb Htb Hfuel.
  split; [|split; reflexivity].
  destruct fuel as [|[|[|f]]]; [lia..|].
  unfold Tpl.Parse. cbn [headIsSlash dropHead]. rewrite Ascii.eqb_refl.
  change (dropHead "/a") with "a". rewrite Ha.
  (* parsePath("/a") *)
  cbn [Tpl.parsePath paths trees]. rewrite bool_decide_eq_false_2 by set_solver.
  rewrite cacheGet_miss by (cbn; set_solver).
  rewrite Hra, Hta. cbn [app paths trees].
  (* the include of "/b" *)
  cbn [expand expandNode]. unfold attach at 1, abs at 1.
  cbn [headIsSlash dropHead]. rewrite Ascii.eqb_refl. rewrite Hb.
  (* parsePath("/b") *)
  cbn [Tpl.parsePath paths trees].
  rewrite bool_decide_eq_false_2 by (set_unfold; intros [?|[]]; done).
  rewrite cacheGet_miss; cycle 1.
  { reflexivity. }
  { cbn. set_unfold. intros [[=]|[]]. }
  rewrite Hrb, Htb. cbn [app paths trees].
  rewrite (expand_include_cycle f _ pb "/a" "a" xb xa Ha eq_refl)
    by set_solver.
  cbn [deferDone fillPath xbind directiveError fst snd paths trees
         cacheDone completed reserved emptyCache].
  unfold cacheDone, emptyCache. cbn [completed reserved].
  f_equal. f_equal. apply set_eq. intros k.
  rewrite !elem_of_difference, !elem_of_union, !elem_of_singleton.
  rewrite elem_of_empty. tauto.
Qed.

End ExpanderFacts.

Lemma include_cycle_error_witness :
  (Tpl.Parse joinPath cycleRead 3 emptyCache "/a" ContextHTML).2
  = XErr (CycleError ("/a" +:+ nl +:+ tab +:+ "include include /a")).
Proof.
  rewrite (proj1 (include_cycle_error joinPath cycleRead 3
                    ContextHTML ContextHTML ContextHTML
                    (mkPos 1 1 0 18) (mkPos 1 1 0 18) _ _
                    eq_refl eq_refl eq_refl eq_refl eq_refl eq_refl
                    (le_n 3))).
  reflexivity.
Defined.

(** C5, as the specification has it, fails: the text of the error names
    [/a], the path entered twice, and not [/b]; and the include of a path
    puts "include " in front of the chain, not the current path. *)
Lemma cycle_text_omits_included_path :
  ¬ cycleTextNamesBothPaths
      (Tpl.Parse joinPath cycleRead 3 emptyCache "/a" ContextHTML).2
  ∧ contains (cycleText ("/a" +:+ nl +:+ tab +:+ "include include /a")) "/b"
    = false
  ∧ directiveError "included path %q does not exist" "include "
      (mkPos 1 1 0 18) "/a" "/a" (CycleError "/a")
    = CycleError "include /a".
Proof.
  split; [|split; vm_compute; reflexivity].
  intros (chain & Hres & _ & Hb).
  vm_compute in Hres. injection Hres as <-.
  vm_compute in Hb. discriminate Hb.
Qed.

End TplFacts.

Module VMXFacts.
Import VM VMX VMFacts.

(** ** Register allocation *)

Lemma to_uint8_range z : 0 ≤ to_uint8 z ≤ 255.
Proof. unfold to_uint8. pose proof (Z.mod_pos_bound z 256). lia. Qed.

Lemma allocRegister_numRegs kind r b :
  numRegs (allocRegister kind r b) =
    if decide (0 < r) then
      match numRegs b !! normKind kind with
      | Some num =>
          if decide (num < to_uint8 r)
          then <[normKind kind := to_uint8 r]> (numRegs b) else numRegs b
      | None => <[normKind kind := to_uint8 r]> (numRegs b)
      end
    else numRegs b.
Proof.
  unfold allocRegister. case_decide; [|done].
  destruct (maxRegs b !! normKind kind) as [num|]; [case_decide|];
    cbn [numRegs set_maxRegs];
    (destruct (numRegs b !! normKind kind) as [num'|]; [case_decide|]);
    reflexivity.
Qed.

Lemma allocRegister_rest kind r b :
  labels (allocRegister kind r b) = labels b
  ∧ gotos (allocRegister kind r b) = gotos b
  ∧ scopes (allocRegister kind r b) = scopes b
  ∧ scopeShifts (allocRegister kind r b) = scopeShifts b.
Proof.
  unfold allocRegister. case_decide; [|done].
  destruct (maxRegs b !! normKind kind) as [num|]; [case_decide|];
    cbn [numRegs set_maxRegs];
    (destruct (numRegs b !! normKind kind) as [num'|]; [case_decide|]);
    done.
Qed.

(** A register map reads, after the update of [allocRegister], as the
    maximum of what it read before and the register. *)
Lemma regs_get_raise (m : gmap Kind Z) nk u k :
  0 ≤ u → (∀ v, m !! nk = Some v → 0 ≤ v) →
  regs_get
    (match m !! nk with
     | Some num => if decide (num < u) then <[nk := u]> m else m
     | None => <[nk := u]> m
     end) k
  = if decide (k = nk) then Z.max (regs_get m k) u else regs_get m k.
Proof.
  intros Hu Hpos. unfold regs_get.
  destruct (m !! nk) as [num|] eqn:Hnk.
  - case_decide as Hlt; case_decide as Hk; subst.
    + rewrite lookup_insert_eq, Hnk. cbn. lia.
    + by rewrite lookup_insert_ne.
    + rewrite Hnk. cbn. lia.
    + done.
  - case_decide as Hk; subst.
    + rewrite lookup_insert_eq, Hnk. cbn. lia.
    + by rewrite lookup_insert_ne.
Qed.

Lemma regs_get_maxRegs_alloc kind r b k :
  nonneg (maxRegs b) →
  regs_get (maxRegs (allocRegister kind r b)) k
  = if decide (0 < r ∧ k = normKind kind)
    then Z.max (regs_get (maxRegs b) k) (to_uint8 r)
    else regs_get (maxRegs b) k.
Proof.
  intros Hpos. rewrite allocRegister_maxRegs.
  destruct (decide (0 < r)) as [Hr|Hr].
  - rewrite regs_get_raise; [|apply to_uint8_range|by eauto].
    repeat case_decide; try done; tauto.
  - case_decide; [tauto|done].
Qed.

Lemma regs_get_numRegs_alloc kind r b k :
  nonneg (numRegs b) →
  regs_get (numRegs (allocRegister kind r b)) k
  = if decide (0 < r ∧ k = normKind kind)
    then Z.max (regs_get (numRegs b) k) (to_uint8 r)
    else regs_get (numRegs b) k.
Proof.
  intros Hpos. rewrite allocRegister_numRegs.
  destruct (decide (0 < r)) as [Hr|Hr].
  - rewrite regs_get_raise; [|apply to_uint8_range|by eauto].
    repeat case_decide; try done; tauto.
  - case_decide; [tauto|done].
Qed.

Lemma normKind_idem kind : normKind (normKind kind) = normKind kind.
Proof. by destruct kind. Qed.

Lemma allocRegister_noop kind r b :
  (0 < r →
   ∃ v w, maxRegs b !! normKind kind = Some v ∧ ¬ v < to_uint8 r
          ∧ numRegs b !! normKind kind = Some w ∧ ¬ w < to_uint8 r) →
  allocRegister kind r b = b.
Proof.
  intros H. unfold allocRegister. case_decide as Hr; [|done].
  destruct (H Hr) as (v & w & Hv & Hv' & Hw & Hw').
  rewrite Hv. rewrite decide_False by done.
  rewrite Hw. by rewrite decide_False.
Qed.

(** X1.  [allocRegister] is idempotent, it never lowers a mark or a count,
    it touches the class of its kind only, and it does nothing for a
    register that is not positive. *)
Theorem allocRegister_idempotent_raising (kind : Kind) (r : Z)
    (b : FunctionBuilder) :
  allocRegister kind r (allocRegister kind r b) = allocRegister kind r b
  ∧ marksLe (maxRegs b) (maxRegs (allocRegister kind r b))
  ∧ marksLe (numRegs b) (numRegs (allocRegister kind r b))
  ∧ (∀ k, k ≠ normKind kind →
       maxRegs (allocRegister kind r b) !! k = maxRegs b !! k
       ∧ numRegs (allocRegister kind r b) !! k = numRegs b !! k)
  ∧ (r ≤ 0 → allocRegister kind r b = b).
Proof.
  split; [|split; [|split; [|split]]].
  - apply allocRegister_noop. intros Hr.
    rewrite allocRegister_maxRegs, allocRegister_numRegs.
    rewrite !decide_True by done.
    assert (∀ (m : gmap Kind Z),
              ∃ v, (match m !! normKind kind with
                    | Some num => if decide (num < to_uint8 r)
                                  then <[normKind kind := to_uint8 r]> m
                                  else m
                    | None => <[normKind kind := to_uint8 r]> m
                    end) !! normKind kind = Some v
                   ∧ ¬ v < to_uint8 r) as Hfix.
    { intros m. destruct (m !! normKind kind) as [num|] eqn:Hm.
      - case_decide.
        + exists (to_uint8 r). rewrite lookup_insert_eq. split; [done|lia].
        + exists num. by rewrite Hm.
      - exists (to_uint8 r). rewrite lookup_insert_eq. split; [done|lia]. }
    destruct (Hfix (maxRegs b)) as (v & Hv & Hv').
    destruct (Hfix (numRegs b)) as (w & Hw & Hw').
    by exists v, w.
  - apply allocRegister_mono.
  - rewrite allocRegister_numRegs. case_decide; [|apply marksLe_refl].
    destruct (numRegs b !! normKind kind) as [num|] eqn:Hk.
    + case_decide; [|apply marksLe_refl].
      apply marksLe_insert. intros w Hw. simplify_eq. lia.
    + apply marksLe_insert. intros w Hw. simplify_eq.
  - intros k Hk. rewrite allocRegister_maxRegs, allocRegister_numRegs.
    case_decide; [|done].
    split.
    + destruct (maxRegs b !! normKind kind); [case_decide|];
        by rewrite ?lookup_insert_ne.
    + destruct (numRegs b !! normKind kind); [case_decide|];
        by rewrite ?lookup_insert_ne.
  - intros Hr. unfold allocRegister. case_decide; [lia|done].
Qed.

(** X2.  With [n] registers of the class in use, [NewRegister] returns
    [n + 1] and raises the count to it, as long as [n ≤ 126]; from 127 on
    the register it computes is not positive, it is returned all the same,
    and the builder is left as it was. *)
Theorem NewRegister_next_or_nothing (kind : Kind) (b : FunctionBuilder) :
  let n := regs_get (numRegs b) (normKind kind) in
  (0 ≤ n ≤ 126 →
     (NewRegister kind b).1 = n + 1
     ∧ regs_get (numRegs (NewRegister kind b).2) (normKind kind) = n + 1
     ∧ n + 1 ≤ regs_get (maxRegs (NewRegister kind b).2) (normKind kind))
  ∧ (127 ≤ n ≤ 255 →
       (NewRegister kind b).1 = n - 255
       ∧ (NewRegister kind b).2 = b).
Proof.
  cbv zeta. unfold NewRegister. cbn [fst snd]. split.
  - intros Hn. rewrite !to_int8_small by (rewrite ?to_int8_small; lia).
    split; [done|].
    set (n := regs_get (numRegs b) (normKind kind)) in *.
    split.
    + rewrite allocRegister_numRegs, normKind_idem.
      rewrite decide_True by lia. rewrite to_uint8_small by lia.
      unfold regs_get in *.
      destruct (numRegs b !! normKind kind) as [num|] eqn:Hk; cbn in n.
      * rewrite decide_True by (subst n; lia).
        by rewrite lookup_insert_eq.
      * by rewrite lookup_insert_eq.
    + destruct (allocRegister_covers (normKind kind) (n + 1) b)
        as (v & Hv & Hle); [lia|].
      rewrite normKind_idem in Hv. unfold regs_get. rewrite Hv. done.
  - intros Hn.
    assert (to_int8 (to_int8 (regs_get (numRegs b) (normKind kind)) + 1)
            = regs_get (numRegs b) (normKind kind) - 255) as ->.
    { destruct (decide (regs_get (numRegs b) (normKind kind) = 127)) as [->|].
      - reflexivity.
      - rewrite (to_int8_high (regs_get _ _)) by lia.
        rewrite to_int8_small by lia. lia. }
    split; [done|].
    unfold allocRegister. case_decide; [lia|done].
Qed.

Lemma allocRegister_idempotent_raising_witness :
  allocRegister Int8 0 (NewBuilder emptyFn) = NewBuilder emptyFn
  ∧ numRegs (allocRegister Int8 3 (NewBuilder emptyFn)) !! Float64
    = numRegs (NewBuilder emptyFn) !! Float64.
Proof.
  destruct (allocRegister_idempotent_raising Int8 0 (NewBuilder emptyFn))
    as (_ & _ & _ & _ & H0).
  destruct (allocRegister_idempotent_raising Int8 3 (NewBuilder emptyFn))
    as (_ & _ & _ & H3 & _).
  split; [apply H0; lia|]. apply (H3 Float64). discriminate.
Defined.

Lemma NewRegister_next_or_nothing_witness :
  (NewRegister Int (NewBuilder emptyFn)).1 = 1
  ∧ (NewRegister Uint8
       (set_numRegs (NewBuilder emptyFn) {[Int := 127]})).1 = -128.
Proof.
  split.
  - apply (proj1 (NewRegister_next_or_nothing Int (NewBuilder emptyFn))).
    vm_compute. split; discriminate.
  - destruct (proj2 (NewRegister_next_or_nothing Uint8
                       (set_numRegs (NewBuilder emptyFn) {[Int := 127]})))
      as [H _]; [vm_compute; split; discriminate|].
    rewrite H. reflexivity.
Defined.

(** ** The invariant of the register maps *)

Lemma nonneg_raise (m : gmap Kind Z) nk u :
  0 ≤ u → nonneg m →
  nonneg (match m !! nk with
          | Some num => if decide (num < u) then <[nk := u]> m else m
          | None => <[nk := u]> m
          end).
Proof.
  intros Hu Hm.
  assert (nonneg (<[nk := u]> m)) as Hins.
  { intros k v. destruct (decide (nk = k)) as [->|Hne].
    - rewrite lookup_insert_eq. intros [= <-]. done.
    - rewrite lookup_insert_ne by done. apply Hm. }
  destruct (m !! nk); [case_decide|]; done.
Qed.

Lemma shiftWithin_mono m m' s :
  (∀ k, regs_get m k ≤ regs_get m' k) → shiftWithin m s → shiftWithin m' s.
Proof.
  intros Hm. destruct s as [[[s0 s1] s2] s3]. cbn.
  pose proof (Hm Int). pose proof (Hm Float64).
  pose proof (Hm String). pose proof (Hm Interface). lia.
Qed.

Lemma regsInv_same b b' :
  numRegs b' = numRegs b → maxRegs b' = maxRegs b →
  scopeShifts b' = scopeShifts b → regsInv b → regsInv b'.
Proof. unfold regsInv. by intros -> -> ->. Qed.

Lemma regsInv_alloc kind r b : regsInv b → regsInv (allocRegister kind r b).
Proof.
  intros (Hnum & Hmax & Hle & Hbound & Hshifts).
  pose proof (to_uint8_range r) as Hu.
  split; [|split; [|split; [|split]]].
  - rewrite allocRegister_numRegs. case_decide; [|done].
    apply nonneg_raise; [lia|done].
  - rewrite allocRegister_maxRegs. case_decide; [|done].
    apply nonneg_raise; [lia|done].
  - intros k. rewrite regs_get_numRegs_alloc, regs_get_maxRegs_alloc by done.
    specialize (Hle k). case_decide; lia.
  - intros k. rewrite regs_get_maxRegs_alloc by done.
    specialize (Hbound k). case_decide; lia.
  - destruct (allocRegister_rest kind r b) as (_ & _ & _ & ->).
    eapply Forall_impl; [exact Hshifts|].
    intros s. apply shiftWithin_mono. intros k.
    rewrite regs_get_maxRegs_alloc by done. case_decide; lia.
Qed.

Lemma regs_get_insert (m : gmap Kind Z) k v k' :
  regs_get (<[k := v]> m) k' = if decide (k = k') then v else regs_get m k'.
Proof.
  unfold regs_get. case_decide as Hk.
  - subst. by rewrite lookup_insert_eq.
  - by rewrite lookup_insert_ne.
Qed.

Lemma nonneg_insert (m : gmap Kind Z) k v :
  0 ≤ v → nonneg m → nonneg (<[k := v]> m).
Proof.
  intros Hv Hm k' v'. destruct (decide (k = k')) as [->|Hne].
  - rewrite lookup_insert_eq. by intros [= <-].
  - rewrite lookup_insert_ne by done. apply Hm.
Qed.

Lemma regs_get_nonneg m k : nonneg m → 0 ≤ regs_get m k.
Proof.
  intros Hm. unfold regs_get. destruct (m !! k) eqn:Hk; cbn; [eauto|lia].
Qed.

Lemma regsInv_EnterStack b : regsInv b → regsInv (EnterStack b).
Proof.
  intros (Hnum & Hmax & Hle & Hbound & Hshifts).
  split; [done|]. split; [done|]. split; [done|]. split; [done|].
  cbn [EnterStack scopeShifts set_scopeShifts maxRegs].
  apply Forall_app. split; [done|]. apply Forall_singleton.
  cbn [shiftWithin]. rewrite !to_uint8_to_int8.
  assert (∀ k, to_uint8 (regs_get (numRegs b) k) ≤ regs_get (maxRegs b) k)
    as H.
  { intros k. rewrite to_uint8_small; [apply Hle|].
    pose proof (regs_get_nonneg _ k Hnum). specialize (Hle k).
    specialize (Hbound k). lia. }
  auto.
Qed.

Lemma regsInv_ExitStack b b' : ExitStack b = Ok b' → regsInv b → regsInv b'.
Proof.
  unfold ExitStack. intros H (Hnum & Hmax & Hle & Hbound & Hshifts).
  destruct (last (scopeShifts b)) as [[[[s0 s1] s2] s3]|] eqn:Hlast; [|done].
  injection H as <-.
  apply last_Some in Hlast as [l' Hl].
  rewrite Hl in Hshifts. apply Forall_app in Hshifts as [Hl' Hs].
  rewrite Forall_singleton in Hs. unfold shiftWithin in Hs.
  destruct Hs as (H0 & H1 & H2 & H3).
  split; [|split; [|split; [|split]]];
    cbn [numRegs maxRegs scopeShifts set_numRegs set_scopeShifts].
  - repeat apply nonneg_insert; try apply to_uint8_range; done.
  - done.
  - intros k. rewrite !regs_get_insert. repeat case_decide; subst; auto.
  - done.
  - rewrite Hl, removelast_last. done.
Qed.

Lemma regsInv_set_scopes b l : regsInv b → regsInv (set_scopes b l).
Proof. by apply regsInv_same. Qed.

Lemma step_regsInv opc c b b' :
  step opc c b = Ok b' → regsInv b → regsInv b'.
Proof.
  intros H Hinv. destruct c; cbn [step] in H.
  - injection H as <-. by apply regsInv_EnterStack, regsInv_set_scopes.
  - unfold ExitScope in H. destruct (scopes b); [done|].
    eapply regsInv_ExitStack; [exact H|]. by apply regsInv_set_scopes.
  - injection H as <-. by apply regsInv_EnterStack.
  - by eapply regsInv_ExitStack.
  - injection H as <-. by apply regsInv_alloc.
  - injection H as <-. by eapply regsInv_same.
  - unfold SetLabelAddr in H. case_decide; [|done].
    injection H as <-. by eapply regsInv_same.
  - unfold Goto in H. repeat case_decide; try done.
    + destruct (labels b !! _) as [addr|]; [|done].
      case_decide.
      * destruct (gotos b); [|done].
        injection H as <-. by eapply regsInv_same.
      * destruct (encodeAddr addr) as [[a0 b0] c0].
        injection H as <-. by eapply regsInv_same.
    + injection H as <-. by eapply regsInv_same.
  - injection H as <-. by eapply regsInv_same.
  - open_emitter H; (eapply regsInv_same; [reflexivity..|]);
      repeat apply regsInv_alloc; done.
  - open_emitter H; (eapply regsInv_same; [reflexivity..|]);
      repeat apply regsInv_alloc; done.
  - open_emitter H; (eapply regsInv_same; [reflexivity..|]);
      repeat apply regsInv_alloc; done.
  - open_emitter H; (eapply regsInv_same; [reflexivity..|]);
      repeat apply regsInv_alloc; done.
  - open_emitter H; (eapply regsInv_same; [reflexivity..|]);
      repeat apply regsInv_alloc; done.
  - open_emitter H; (eapply regsInv_same; [reflexivity..|]);
      repeat apply regsInv_alloc; done.
  - injection H as <-. unfold Concat.
    eapply regsInv_same; [reflexivity..|]. repeat apply regsInv_alloc. done.
  - injection H as <-. by eapply regsInv_same.
  - injection H as <-. by eapply regsInv_same.
  - unfold MakeIntConstant in H. case_decide; [done|].
    injection H as <-. by eapply regsInv_same.
  - unfold MakeFloatConstant in H. case_decide; [done|].
    injection H as <-. by eapply regsInv_same.
  - unfold MakeStringConstant in H. case_decide; [done|].
    injection H as <-. by eapply regsInv_same.
  - unfold MakeGeneralConstant in H. case_decide; [done|].
    injection H as <-. by eapply regsInv_same.
  - unfold MakeInterfaceConstant in H. case_decide; [done|].
    injection H as <-. by eapply regsInv_same.
Qed.

Lemma run_regsInv opc cs : ∀ b b',
  run opc cs b = Ok b' → regsInv b → regsInv b'.
Proof.
  induction cs as [|c cs IH]; intros b b' H Hinv; cbn [run] in H.
  - by injection H as <-.
  - destruct (step opc c b) as [b1|] eqn:Hstep; [|done].
    cbn [res_bind] in H. eapply IH; [exact H|]. by eapply step_regsInv.
Qed.

Lemma regsInv_fresh : regsInv (NewBuilder emptyFn).
Proof.
  split; [|split; [|split; [|split]]]; cbn; done.
Qed.

(** X3.  Whatever calls drive a fresh builder, as long as none of them
    panics: every register count stays between 0 and the mark of its class,
    and no mark exceeds 255. *)
Theorem counts_within_marks (opc : Opcode → Z) (cs : list call)
    (b : FunctionBuilder) (k : Kind) :
  run opc cs (NewBuilder emptyFn) = Ok b →
  0 ≤ regs_get (numRegs b) k ≤ regs_get (maxRegs b) k
  ∧ regs_get (maxRegs b) k ≤ 255.
Proof.
  intros H.
  destruct (run_regsInv _ _ _ _ H regsInv_fresh)
    as (Hnum & Hmax & Hle & Hbound & _).
  pose proof (regs_get_nonneg _ k Hnum). specialize (Hle k).
  specialize (Hbound k). lia.
Qed.

Lemma counts_within_marks_witness :
  0 ≤ regs_get {[Int := 0; Float64 := 0; String := 0; Interface := 0]} Int
    ≤ regs_get {[Int := 2]} Int.
Proof.
  refine (proj1 (counts_within_marks opcTable
           [CEnterStack; CNewRegister Int; CNewRegister Int; CExitStack]
           (mkBuilder emptyFn [] (Some ∅) {[Int := 2]}
              {[Int := 0; Float64 := 0; String := 0; Interface := 0]}
              [] [])
           Int _)).
  vm_compute. reflexivity.
Defined.

(** ** Matched pairs of stack and scope calls *)

Lemma run_app opc cs1 cs2 b :
  run opc (cs1 ++ cs2) b = res_bind (run opc cs1 b) (run opc cs2).
Proof.
  revert b. induction cs1 as [|c cs1 IH]; intros b; cbn [app run]; [done|].
  destruct (step opc c b) as [b1|]; cbn [res_bind]; [apply IH|done].
Qed.

Lemma flat_step_stacks opc c b b' :
  flat c = true → step opc c b = Ok b' →
  scopeShifts b' = scopeShifts b ∧ scopes b' = scopes b.
Proof.
  intros Hflat H. destruct c; try discriminate Hflat; cbn [step] in H.
  - injection H as <-. unfold NewRegister. cbn [snd].
    destruct (allocRegister_rest (normKind kind)
                (to_int8 (to_int8 (regs_get (numRegs b) (normKind kind)) + 1))
                b) as (_ & _ & -> & ->). done.
  - by injection H as <-.
  - unfold SetLabelAddr in H. case_decide; [|done]. by injection H as <-.
  - unfold Goto in H. repeat case_decide; try done.
    + destruct (labels b !! _) as [addr|]; [|done].
      case_decide.
      * destruct (gotos b); [|done]. by injection H as <-.
      * destruct (encodeAddr addr) as [[a0 b0] c0]. by injection H as <-.
    + by injection H as <-.
  - by injection H as <-.
  - open_emitter H; cbn;
      repeat (match goal with
              | |- context [scopeShifts (allocRegister ?k ?r ?b)] =>
                  destruct (allocRegister_rest k r b) as (_ & _ & -> & ->)
              end); done.
  - open_emitter H; cbn;
      repeat (match goal with
              | |- context [scopeShifts (allocRegister ?k ?r ?b)] =>
                  destruct (allocRegister_rest k r b) as (_ & _ & -> & ->)
              end); done.
  - open_emitter H; cbn;
      repeat (match goal with
              | |- context [scopeShifts (allocRegister ?k ?r ?b)] =>
                  destruct (allocRegister_rest k r b) as (_ & _ & -> & ->)
              end); done.
  - open_emitter H; cbn;
      repeat (match goal with
              | |- context [scopeShifts (allocRegister ?k ?r ?b)] =>
                  destruct (allocRegister_rest k r b) as (_ & _ & -> & ->)
              end); done.
  - open_emitter H; cbn;
      repeat (match goal with
              | |- context [scopeShifts (allocRegister ?k ?r ?b)] =>
                  destruct (allocRegister_rest k r b) as (_ & _ & -> & ->)
              end); done.
  - open_emitter H; cbn;
      repeat (match goal with
              | |- context [scopeShifts (allocRegister ?k ?r ?b)] =>
                  destruct (allocRegister_rest k r b) as (_ & _ & -> & ->)
              end); done.
  - injection H as <-. unfold Concat. cbn.
    repeat (match goal with
            | |- context [scopeShifts (allocRegister ?k ?r ?b)] =>
                destruct (allocRegister_rest k r b) as (_ & _ & -> & ->)
            end); done.
  - by injection H as <-.
  - by injection H as <-.
  - unfold MakeIntConstant in H. case_decide; [done|]. by injection H as <-.
  - unfold MakeFloatConstant in H. case_decide; [done|]. by injection H as <-.
  - unfold MakeStringConstant in H. case_decide; [done|].
    by injection H as <-.
  - unfold MakeGeneralConstant in H. case_decide; [done|].
    by injection H as <-.
  - unfold MakeInterfaceConstant in H. case_decide; [done|].
    by injection H as <-.
Qed.

Lemma ExitStack_pops b b' :
  ExitStack b = Ok b' →
  scopeShifts b' = removelast (scopeShifts b) ∧ scopes b' = scopes b.
Proof.
  unfold ExitStack. destruct (last _) as [[[[s0 s1] s2] s3]|]; [|done].
  by intros [= <-].
Qed.

Lemma balanced_run_stacks opc cs :
  balanced cs → ∀ b b',
  run opc cs b = Ok b' →
  scopeShifts b' = scopeShifts b ∧ scopes b' = scopes b.
Proof.
  induction 1 as [|c cs Hflat _ IH|cs1 cs2 _ IH1 _ IH2|cs1 cs2 _ IH1 _ IH2];
    intros b b' Hrun.
  - by injection Hrun as <-.
  - cbn [run] in Hrun. destruct (step opc c b) as [b1|] eqn:Hstep; [|done].
    cbn [res_bind] in Hrun.
    destruct (flat_step_stacks _ _ _ _ Hflat Hstep) as [<- <-].
    by apply IH.
  - cbn [run step res_bind] in Hrun. rewrite run_app in Hrun.
    destruct (run opc cs1 (EnterStack b)) as [b1|] eqn:H1; [|done].
    cbn [res_bind run step] in Hrun.
    destruct (ExitStack b1) as [b2|] eqn:H2; [|done].
    cbn [res_bind] in Hrun.
    destruct (IH1 _ _ H1) as [Hs1 Hc1].
    destruct (ExitStack_pops _ _ H2) as [Hs2 Hc2].
    destruct (IH2 _ _ Hrun) as [-> ->].
    rewrite Hs2, Hs1, Hc2, Hc1. cbn. by rewrite removelast_last.
  - cbn [run step res_bind] in Hrun. rewrite run_app in Hrun.
    destruct (run opc cs1 (EnterScope b)) as [b1|] eqn:H1; [|done].
    cbn [res_bind run step] in Hrun.
    destruct (ExitScope b1) as [b2|] eqn:H2; [|done].
    cbn [res_bind] in Hrun.
    destruct (IH1 _ _ H1) as [Hs1 Hc1].
    destruct (IH2 _ _ Hrun) as [-> ->].
    unfold ExitScope in H2. rewrite Hc1 in H2. cbn in H2.
    destruct (scopes b ++ [∅]) eqn:Happ; [by destruct (scopes b)|].
    rewrite <- Happ in H2. rewrite removelast_last in H2.
    destruct (ExitStack_pops _ _ H2) as [-> ->].
    cbn. rewrite Hs1. cbn. by rewrite removelast_last.
Qed.

Lemma ExitStack_after_push b1 b s0 s1 s2 s3 :
  scopeShifts b1 = scopeShifts b ++ [(s0, s1, s2, s3)] →
  ∃ b', ExitStack b1 = Ok b'
        ∧ scopeShifts b' = scopeShifts b
        ∧ scopes b' = scopes b1
        ∧ maxRegs b' = maxRegs b1
        ∧ regs_get (numRegs b') Int = to_uint8 s0
        ∧ regs_get (numRegs b') Float64 = to_uint8 s1
        ∧ regs_get (numRegs b') String = to_uint8 s2
        ∧ regs_get (numRegs b') Interface = to_uint8 s3.
Proof.
  intros Hs. unfold ExitStack. rewrite Hs, last_snoc.
  eexists. split; [reflexivity|].
  cbn [scopeShifts scopes maxRegs numRegs set_scopeShifts set_numRegs].
  rewrite removelast_last, !regs_get_insert. done.
Qed.

(** X4.  A matched pair gives the registers back.  If the calls between an
    [EnterStack] and its [ExitStack] are balanced themselves and do not
    panic, the [ExitStack] does not panic either, and after it the counts
    of the four classes and the stack of shifts are what they were before
    the [EnterStack]; the marks keep what was reached in between.  The same
    for [EnterScope] and [ExitScope], which also give the scopes back. *)
Theorem matched_pair_restores_counts (opc : Opcode → Z) (cs : list call)
    (b b1 : FunctionBuilder) :
  balanced cs → countsInRange b →
  (run opc cs (EnterStack b) = Ok b1 →
     ∃ b', ExitStack b1 = Ok b'
           ∧ scopeShifts b' = scopeShifts b
           ∧ maxRegs b' = maxRegs b1
           ∧ ∀ k, k ∈ [Int; Float64; String; Interface] →
                  regs_get (numRegs b') k = regs_get (numRegs b) k)
  ∧ (run opc cs (EnterScope b) = Ok b1 →
       ∃ b', ExitScope b1 = Ok b'
             ∧ scopeShifts b' = scopeShifts b
             ∧ scopes b' = scopes b
             ∧ maxRegs b' = maxRegs b1
             ∧ ∀ k, k ∈ [Int; Float64; String; Interface] →
                    regs_get (numRegs b') k = regs_get (numRegs b) k).
Proof.
  intros Hbal Hrange.
  assert (∀ k, to_uint8 (to_int8 (regs_get (numRegs b) k))
               = regs_get (numRegs b) k) as Hback.
  { intros k. rewrite to_uint8_to_int8. apply to_uint8_small, Hrange. }
  split; intros Hrun.
  - destruct (balanced_run_stacks opc cs Hbal _ _ Hrun) as [Hs _].
    destruct (ExitStack_after_push b1 b _ _ _ _ Hs)
      as (b' & Hexit & Hs' & _ & Hmax & H0 & H1 & H2 & H3).
    exists b'. split; [done|]. split; [done|]. split; [done|].
    intros k Hk. rewrite !Hback in *. set_unfold in Hk.
    destruct Hk as [->|[->|[->|[->|[]]]]]; done.
  - destruct (balanced_run_stacks opc cs Hbal _ _ Hrun) as [Hs Hc].
    cbn in Hs, Hc. unfold ExitScope. rewrite Hc.
    destruct (scopes b ++ [∅]) eqn:Happ; [by destruct (scopes b)|].
    rewrite <- Happ, removelast_last.
    destruct (ExitStack_after_push (set_scopes b1 (scopes b)) b _ _ _ _ Hs)
      as (b' & Hexit & Hs' & Hc' & Hmax & H0 & H1 & H2 & H3).
    exists b'. split; [done|]. split; [done|]. split; [done|].
    split; [done|].
    intros k Hk. rewrite !Hback in *. set_unfold in Hk.
    destruct Hk as [->|[->|[->|[->|[]]]]]; done.
Qed.

Lemma countsInRange_fresh : countsInRange (NewBuilder emptyFn).
Proof. intros k. cbn. unfold regs_get. rewrite lookup_empty. cbn. lia. Qed.

Lemma matched_pair_restores_counts_witness :
  ∃ b', ExitStack
          (NewRegister Float32 (NewRegister Int
             (EnterStack (NewBuilder emptyFn))).2).2 = Ok b'
        ∧ regs_get (numRegs b') Float64 = 0.
Proof.
  destruct (proj1 (matched_pair_restores_counts opcTable
                     [CNewRegister Int; CNewRegister Float32]
                     (NewBuilder emptyFn)
                     (NewRegister Float32 (NewRegister Int
                        (EnterStack (NewBuilder emptyFn))).2).2
                     (balanced_flat (CNewRegister Int) _ eq_refl
                        (balanced_flat (CNewRegister Float32) _ eq_refl
                           balanced_nil))
                     countsInRange_fresh)
              eq_refl)
    as (b' & Hexit & _ & _ & Hcounts).
  exists b'. split; [exact Hexit|].
  rewrite (Hcounts Float64) by set_solver. reflexivity.
Defined.

(** ** The body grows by appending *)

Lemma step_body opc c b b' :
  step opc c b = Ok b' →
  ∃ tail, Body (fn b') = Body (fn b) ++ tail
          ∧ length tail = (if emits c then 1%nat else 0%nat)
          ∧ (length (labels b) ≤ length (labels b'))%nat
          ∧ RegNum (fn b') = RegNum (fn b).
Proof.
  intros H.
  assert (∀ i, ∃ tail, Body (fn b) ++ [i] = Body (fn b) ++ tail
                       ∧ length tail = 1%nat) as Hone.
  { intros i. by exists [i]. }
  assert (∃ tail, Body (fn b) = Body (fn b) ++ tail ∧ length tail = 0%nat)
    as Hnone.
  { exists []. by rewrite app_nil_r. }
  destruct c; cbn [step emits] in *.
  - injection H as <-. destruct Hnone as (t & ? & ?). by exists t.
  - unfold ExitScope in H. destruct (scopes b); [done|].
    unfold ExitStack in H.
    destruct (last _) as [[[[s0 s1] s2] s3]|]; [|done].
    injection H as <-. destruct Hnone as (t & ? & ?). by exists t.
  - injection H as <-. destruct Hnone as (t & ? & ?). by exists t.
  - unfold ExitStack in H.
    destruct (last _) as [[[[s0 s1] s2] s3]|]; [|done].
    injection H as <-. destruct Hnone as (t & ? & ?). by exists t.
  - injection H as <-. unfold NewRegister. cbn [snd].
    rewrite allocRegister_fn.
    destruct (allocRegister_rest (normKind kind)
                (to_int8 (to_int8 (regs_get (numRegs b) (normKind kind)) + 1))
                b) as (-> & _).
    destruct Hnone as (t & ? & ?). by exists t.
  - injection H as <-. destruct Hnone as (t & ? & ?). exists t.
    cbn. rewrite length_app. cbn. repeat split; try done; lia.
  - unfold SetLabelAddr in H. case_decide; [|done].
    injection H as <-. destruct Hnone as (t & ? & ?). exists t.
    cbn. rewrite length_insert. done.
  - unfold Goto in H. repeat case_decide; try done.
    + destruct (labels b !! _) as [addr|]; [|done].
      case_decide.
      * destruct (gotos b); [|done]. injection H as <-.
        destruct (Hone (mkInstr (opc OpGoto) 0 0 0)) as (t & ? & ?).
        by exists t.
      * destruct (encodeAddr addr) as [[a0 b0] c0]. injection H as <-.
        destruct (Hone (mkInstr (opc OpGoto) a0 b0 c0)) as (t & ? & ?).
        by exists t.
    + injection H as <-.
      destruct (Hone (mkInstr (opc OpGoto) 0 0 0)) as (t & ? & ?).
      by exists t.
  - injection H as <-. eexists [_]. done.
  - open_emitter H; cbn;
      rewrite ?allocRegister_fn;
      repeat (match goal with
              | |- context [labels (allocRegister ?k ?r ?b)] =>
                  destruct (allocRegister_rest k r b) as (-> & _)
              end); by eexists [_].
  - open_emitter H; cbn;
      rewrite ?allocRegister_fn;
      repeat (match goal with
              | |- context [labels (allocRegister ?k ?r ?b)] =>
                  destruct (allocRegister_rest k r b) as (-> & _)
              end); by eexists [_].
  - open_emitter H; cbn;
      rewrite ?allocRegister_fn;
      repeat (match goal with
              | |- context [labels (allocRegister ?k ?r ?b)] =>
                  destruct (allocRegister_rest k r b) as (-> & _)
              end); by eexists [_].
  - open_emitter H; cbn;
      rewrite ?allocRegister_fn;
      repeat (match goal with
              | |- context [labels (allocRegister ?k ?r ?b)] =>
                  destruct (allocRegister_rest k r b) as (-> & _)
              end); by eexists [_].
  - open_emitter H; cbn;
      rewrite ?allocRegister_fn;
      repeat (match goal with
              | |- context [labels (allocRegister ?k ?r ?b)] =>
                  destruct (allocRegister_rest k r b) as (-> & _)
              end); by eexists [_].
  - open_emitter H; cbn;
      rewrite ?allocRegister_fn;
      repeat (match goal with
              | |- context [labels (allocRegister ?k ?r ?b)] =>
                  destruct (allocRegister_rest k r b) as (-> & _)
              end); by eexists [_].
  - injection H as <-. unfold Concat. cbn. rewrite ?allocRegister_fn.
    repeat (match goal with
            | |- context [labels (allocRegister ?k ?r ?b)] =>
                destruct (allocRegister_rest k r b) as (-> & _)
            end); by eexists [_].
  - injection H as <-. by eexists [_].
  - injection H as <-. by eexists [_].
  - unfold MakeIntConstant in H. case_decide; [done|].
    injection H as <-. destruct Hnone as (t & ? & ?). by exists t.
  - unfold MakeFloatConstant in H. case_decide; [done|].
    injection H as <-. destruct Hnone as (t & ? & ?). by exists t.
  - unfold MakeStringConstant in H. case_decide; [done|].
    injection H as <-. destruct Hnone as (t & ? & ?). by exists t.
  - unfold MakeGeneralConstant in H. case_decide; [done|].
    injection H as <-. destruct Hnone as (t & ? & ?). by exists t.
  - unfold MakeInterfaceConstant in H. case_decide; [done|].
    injection H as <-. destruct Hnone as (t & ? & ?). by exists t.
Qed.

(** X5.  Instructions appear in the body in emission order: a run of calls
    that does not panic leaves the body it started from in place and
    appends to it one instruction for each emitting call. *)
Theorem run_appends_in_order (opc : Opcode → Z) (cs : list call)
    (b b' : FunctionBuilder) :
  run opc cs b = Ok b' →
  ∃ tail, Body (fn b') = Body (fn b) ++ tail ∧ length tail = emitted cs.
Proof.
  revert b. induction cs as [|c cs IH]; intros b H; cbn [run] in H.
  - injection H as <-. exists []. by rewrite app_nil_r.
  - destruct (step opc c b) as [b1|] eqn:Hstep; [|done].
    cbn [res_bind] in H.
    destruct (step_body _ _ _ _ Hstep) as (t1 & Hb1 & Hl1 & _).
    destruct (IH _ H) as (t2 & Hb2 & Hl2).
    exists (t1 ++ t2). split.
    + by rewrite Hb2, Hb1, <- app_assoc.
    + rewrite length_app, Hl1, Hl2. done.
Qed.

Lemma run_appends_in_order_witness :
  ∃ tail,
    Body (fn (Nop opcTable (Selector opcTable 1 2 3 (NewBuilder emptyFn))))
    = Body (fn (NewBuilder emptyFn)) ++ tail
    ∧ length tail = 2%nat.
Proof.
  apply (run_appends_in_order opcTable [CSelector 1 2 3; CNop]
           (NewBuilder emptyFn)).
  reflexivity.
Defined.

(** ** Pending jumps and finalization *)

Ltac alloc_gotos :=
  repeat (match goal with
          | |- context [gotos (allocRegister ?k ?r ?b)] =>
              destruct (allocRegister_rest k r b) as (_ & -> & _)
          end).

(** Only a [Goto] to a label without address records a pending jump. *)
Lemma step_gotos opc c b b' :
  step opc c b = Ok b' →
  gotos b' = gotos b
  ∨ ∃ label g,
      gotos b = Some g
      ∧ gotos b' = Some (<[CurrentAddr b := label]> g)
      ∧ (label_index label < length (labels b))%nat
      ∧ Body (fn b') = Body (fn b) ++ [mkInstr (opc OpGoto) 0 0 0].
Proof.
  intros H. destruct c; cbn [step] in H.
  - injection H as <-. by left.
  - unfold ExitScope in H. destruct (scopes b); [done|].
    unfold ExitStack in H.
    destruct (last _) as [[[[s0 s1] s2] s3]|]; [|done].
    injection H as <-. by left.
  - injection H as <-. by left.
  - unfold ExitStack in H.
    destruct (last _) as [[[[s0 s1] s2] s3]|]; [|done].
    injection H as <-. by left.
  - injection H as <-. left. unfold NewRegister. cbn [snd]. by alloc_gotos.
  - injection H as <-. by left.
  - unfold SetLabelAddr in H. case_decide; [|done].
    injection H as <-. by left.
  - unfold Goto in H. repeat case_decide; try done.
    + destruct (labels b !! _) as [addr|] eqn:Hl; [|done].
      case_decide.
      * destruct (gotos b) as [g|]; [|done]. injection H as <-.
        right. exists label, g. split; [done|]. split; [done|].
        split; [by eapply lookup_lt_Some|done].
      * destruct (encodeAddr addr) as [[a0 b0] c0]. injection H as <-.
        by left.
    + injection H as <-. by left.
  - injection H as <-. by left.
  - open_emitter H; left; cbn; by alloc_gotos.
  - open_emitter H; left; cbn; by alloc_gotos.
  - open_emitter H; left; cbn; by alloc_gotos.
  - open_emitter H; left; cbn; by alloc_gotos.
  - open_emitter H; left; cbn; by alloc_gotos.
  - open_emitter H; left; cbn; by alloc_gotos.
  - injection H as <-. left. unfold Concat. cbn. by alloc_gotos.
  - injection H as <-. by left.
  - injection H as <-. by left.
  - unfold MakeIntConstant in H. case_decide; [done|].
    injection H as <-. by left.
  - unfold MakeFloatConstant in H. case_decide; [done|].
    injection H as <-. by left.
  - unfold MakeStringConstant in H. case_decide; [done|].
    injection H as <-. by left.
  - unfold MakeGeneralConstant in H. case_decide; [done|].
    injection H as <-. by left.
  - unfold MakeInterfaceConstant in H. case_decide; [done|].
    injection H as <-. by left.
Qed.

Lemma CurrentAddr_bounds b :
  0 ≤ CurrentAddr b ∧ (Z.to_nat (CurrentAddr b) ≤ length (Body (fn b)))%nat.
Proof.
  unfold CurrentAddr, to_uint32.
  pose proof (Z.mod_pos_bound (Z.of_nat (length (Body (fn b)))) (2 ^ 32)).
  pose proof (Z.mod_le (Z.of_nat (length (Body (fn b)))) (2 ^ 32)).
  lia.
Qed.

Lemma step_gotosValid opc c b b' :
  step opc c b = Ok b' → gotosValid b → gotosValid b'.
Proof.
  intros H (g & Hg & Hvalid).
  destruct (step_body _ _ _ _ H) as (tail & Hbody & _ & Hlabels & _).
  destruct (step_gotos _ _ _ _ H) as [Hsame|(label & g' & Hg' & Hnew & Hl & Hb)].
  - exists g. split; [congruence|]. intros addr label Hal.
    destruct (Hvalid _ _ Hal) as (H0 & H1 & H2).
    rewrite Hbody, length_app. repeat split; lia.
  - assert (g' = g) as -> by congruence.
    exists (<[CurrentAddr b := label]> g). split; [done|].
    intros addr label' Hal. rewrite Hb, length_app. cbn [length].
    destruct (decide (CurrentAddr b = addr)) as [<-|Hne].
    + rewrite lookup_insert_eq in Hal. injection Hal as <-.
      pose proof (CurrentAddr_bounds b). repeat split; lia.
    + rewrite lookup_insert_ne in Hal by done.
      destruct (Hvalid _ _ Hal) as (H0 & H1 & H2). repeat split; lia.
Qed.

Lemma run_gotosValid opc cs : ∀ b b',
  run opc cs b = Ok b' → gotosValid b → gotosValid b'.
Proof.
  induction cs as [|c cs IH]; intros b b' H Hinv; cbn [run] in H.
  - by injection H as <-.
  - destruct (step opc c b) as [b1|] eqn:Hstep; [|done].
    cbn [res_bind] in H. eapply IH; [exact H|]. by eapply step_gotosValid.
Qed.

Lemma gotosValid_fresh : gotosValid (NewBuilder emptyFn).
Proof. exists ∅. split; [done|]. intros addr label H. done. Qed.

(** The first loop of [End] on sound pending jumps. *)
Lemma patch_all lbls body (g : gmap Z Z) :
  (∀ addr label, g !! addr = Some label →
     0 ≤ addr ∧ (Z.to_nat addr < length body)%nat
     ∧ (label_index label < length lbls)%nat) →
  ∃ body',
    map_fold (patchGoto lbls) (Ok body) g = Ok body'
    ∧ length body' = length body
    ∧ (∀ addr label, g !! addr = Some label →
         ∃ i target,
           body !! Z.to_nat addr = Some i
           ∧ lbls !! label_index label = Some target
           ∧ body' !! Z.to_nat addr = Some (patched i target))
    ∧ (∀ j, (∀ addr, is_Some (g !! addr) → Z.to_nat addr ≠ j) →
         body' !! j = body !! j).
Proof.
  apply (map_fold_weak_ind
    (λ r (m : gmap Z Z),
       (∀ addr label, m !! addr = Some label →
          0 ≤ addr ∧ (Z.to_nat addr < length body)%nat
          ∧ (label_index label < length lbls)%nat) →
       ∃ body',
         r = Ok body'
         ∧ length body' = length body
         ∧ (∀ addr label, m !! addr = Some label →
              ∃ i target,
                body !! Z.to_nat addr = Some i
                ∧ lbls !! label_index label = Some target
                ∧ body' !! Z.to_nat addr = Some (patched i target))
         ∧ (∀ j, (∀ addr, is_Some (m !! addr) → Z.to_nat addr ≠ j) →
              body' !! j = body !! j))).
  - intros _. exists body. split; [done|]. split; [done|].
    split; [|done]. intros addr label H. by rewrite lookup_empty in H.
  - intros a l m r Hnone IH Hvalid.
    destruct IH as (body1 & -> & Hlen & Hpatched & Hrest).
    { intros addr label Hal. apply Hvalid.
      rewrite lookup_insert_ne; [done|]. intros ->. congruence. }
    destruct (Hvalid a l) as (Ha0 & Halt & Hllt);
      [by rewrite lookup_insert_eq|].
    assert (body1 !! Z.to_nat a = body !! Z.to_nat a) as Hsame.
    { apply Hrest. intros addr [label Hal] Heq.
      destruct (Hvalid addr label) as (H0 & _).
      { rewrite lookup_insert_ne; [done|]. intros ->. congruence. }
      assert (addr = a) as -> by lia. congruence. }
    destruct (lookup_lt_is_Some_2 body (Z.to_nat a) Halt) as [i Hi].
    destruct (lookup_lt_is_Some_2 lbls (label_index l) Hllt) as [target Ht].
    cbn [patchGoto res_bind]. rewrite Hsame, Hi, Ht.
    change (let '(a0, b0, c0) := encodeAddr target in
            Ok (<[Z.to_nat a := mkInstr (Op i) a0 b0 c0]> body1))
      with (let '(a0, b0, c0) := encodeAddr target in
            @Ok (list Instruction)
              (<[Z.to_nat a := mkInstr (Op i) a0 b0 c0]> body1)).
    assert ((let '(a0, b0, c0) := encodeAddr target in
             @Ok (list Instruction)
               (<[Z.to_nat a := mkInstr (Op i) a0 b0 c0]> body1))
            = Ok (<[Z.to_nat a := patched i target]> body1)) as ->.
    { unfold patched. by destruct (encodeAddr target) as [[a0 b0] c0]. }
    eexists. split; [reflexivity|]. split; [by rewrite length_insert|].
    split.
    + intros addr label Hal. destruct (decide (a = addr)) as [<-|Hne].
      * rewrite lookup_insert_eq in Hal. injection Hal as <-.
        exists i, target. split; [done|]. split; [done|].
        apply list_lookup_insert_eq. lia.
      * rewrite lookup_insert_ne in Hal by done.
        destruct (Hpatched _ _ Hal) as (i' & t' & H1 & H2 & H3).
        exists i', t'. split; [done|]. split; [done|].
        rewrite list_lookup_insert_ne; [done|].
        destruct (Hvalid addr label) as (H0 & _);
          [by rewrite lookup_insert_ne|]. lia.
    + intros j Hj. rewrite list_lookup_insert_ne.
      * apply Hrest. intros addr Hsome. apply Hj.
        rewrite lookup_insert_ne; [done|]. intros ->.
        destruct Hsome. congruence.
      * apply Hj. by rewrite lookup_insert_eq.
Qed.

(** X6.  Finalization never panics on a builder that was driven from a
    fresh one by calls that did not panic: every pending jump is at an
    address of the body and names a label that exists. *)
Theorem End_never_panics (opc : Opcode → Z) (cs : list call)
    (b : FunctionBuilder) :
  run opc cs (NewBuilder emptyFn) = Ok b →
  ∃ b', End_ b = Ok b' ∧ build opc cs = Ok b'.
Proof.
  intros Hrun.
  destruct (run_gotosValid _ _ _ _ Hrun gotosValid_fresh)
    as (g & Hg & Hvalid).
  destruct (patch_all (labels b) (Body (fn b)) g Hvalid)
    as (body' & Hfold & _).
  unfold build. rewrite Hrun. cbn [res_bind].
  unfold End_. rewrite Hg. change (default ∅ (Some g)) with g.
  rewrite Hfold. cbn [res_bind].
  eexists. split; reflexivity.
Qed.

Lemma End_never_panics_witness :
  ∃ b', build opcTable [CNewLabel; CGoto 1; CNop; CSetLabelAddr 1] = Ok b'.
Proof.
  destruct (End_never_panics opcTable
              [CNewLabel; CGoto 1; CNop; CSetLabelAddr 1]
              (mkBuilder
                 (mkFn [0; 0; 0; 0] (mkConstants [] [] [] [])
                    [mkInstr (opcTable OpGoto) 0 0 0;
                     mkInstr (opcTable OpNone) 0 0 0])
                 [2] (Some {[0 := 1]}) ∅ ∅ [] []))
    as (b' & _ & Hbuild); [vm_compute; reflexivity|].
  by exists b'.
Defined.

(** X7.  What finalization does to the body of such a builder: the
    instruction of every pending jump is rewritten with the address that its
    label has at that moment, encoded in [A], [B], [C], and keeps its
    opcode; every other instruction, the length of the body and the
    constants are untouched; no jump is pending afterwards. *)
Theorem End_patches_pending_jumps (opc : Opcode → Z) (cs : list call)
    (b b' : FunctionBuilder) (g : gmap Z Z) :
  run opc cs (NewBuilder emptyFn) = Ok b → gotos b = Some g →
  End_ b = Ok b' →
  length (Body (fn b')) = length (Body (fn b))
  ∧ (∀ addr label, g !! addr = Some label →
       ∃ i target,
         Body (fn b) !! Z.to_nat addr = Some i
         ∧ labels b !! label_index label = Some target
         ∧ Body (fn b') !! Z.to_nat addr = Some (patched i target))
  ∧ (∀ j, (∀ addr, is_Some (g !! addr) → Z.to_nat addr ≠ j) →
       Body (fn b') !! j = Body (fn b) !! j)
  ∧ Constants (fn b') = Constants (fn b)
  ∧ gotos b' = None.
Proof.
  intros Hrun Hg Hend.
  destruct (run_gotosValid _ _ _ _ Hrun gotosValid_fresh)
    as (g' & Hg' & Hvalid).
  assert (g' = g) as -> by congruence.
  destruct (patch_all (labels b) (Body (fn b)) g Hvalid)
    as (body' & Hfold & Hlen & Hpatched & Hrest).
  unfold End_ in Hend. rewrite Hg in Hend.
  change (default ∅ (Some g)) with g in Hend.
  rewrite Hfold in Hend. cbn [res_bind] in Hend. injection Hend as <-.
  cbn [fn set_gotos set_fn Body Constants gotos]. done.
Qed.

Lemma End_patches_pending_jumps_witness :
  ∃ i target,
    [mkInstr (opcTable OpGoto) 0 0 0; mkInstr (opcTable OpNone) 0 0 0]
      !! Z.to_nat 0 = Some i
    ∧ [2] !! label_index 1 = Some target
    ∧ [mkInstr (opcTable OpGoto) 2 0 0; mkInstr (opcTable OpNone) 0 0 0]
        !! Z.to_nat 0 = Some (patched i target).
Proof.
  refine (proj1 (proj2 (End_patches_pending_jumps opcTable
            [CNewLabel; CGoto 1; CNop; CSetLabelAddr 1]
            (mkBuilder
               (mkFn [0; 0; 0; 0] (mkConstants [] [] [] [])
                  [mkInstr (opcTable OpGoto) 0 0 0;
                   mkInstr (opcTable OpNone) 0 0 0])
               [2] (Some {[0 := 1]}) ∅ ∅ [] [])
            (mkBuilder
               (mkFn [0; 0; 0; 0] (mkConstants [] [] [] [])
                  [mkInstr (opcTable OpGoto) 2 0 0;
                   mkInstr (opcTable OpNone) 0 0 0])
               [2] None ∅ ∅ [] [])
            {[0 := 1]} _ _ _)) 0 1 _);
    vm_compute; reflexivity.
Defined.

(** ** Constants below 128 *)

Ltac pool_round_trip :=
  intros c b Hlen; eexists; split;
  [ match goal with |- ?f _ _ = _ => unfold f end;
    case_decide; [lia|]; rewrite to_int8_small by lia; reflexivity
  | cbn; split; [reflexivity|]; split; [by apply list_lookup_middle|];
    intros Hlen'; eexists; split;
    [ match goal with |- ?f _ _ = _ => unfold f end; cbn;
      rewrite length_app; cbn [length];
      case_decide; [lia|]; rewrite to_int8_small by lia;
      do 2 f_equal; lia
    | cbn; rewrite <- Nat.add_1_r, <- (length_app _ [c]);
      by apply list_lookup_middle ] ].

(** X8.  Below 128 entries the index that [MakeIntConstant],
    [MakeFloatConstant], [MakeStringConstant] and [MakeGeneralConstant]
    return is the position of the constant in its pool; constants are not
    deduplicated, the same constant made again gets the next index. *)
Theorem constant_index_is_position :
  poolRoundTrip MakeIntConstant intPool
  ∧ poolRoundTrip MakeFloatConstant floatPool
  ∧ poolRoundTrip MakeStringConstant stringPool
  ∧ poolRoundTrip MakeGeneralConstant generalPool.
Proof.
  unfold poolRoundTrip, intPool, floatPool, stringPool, generalPool.
  split; [pool_round_trip|]. split; [pool_round_trip|].
  split; pool_round_trip.
Qed.

Lemma constant_index_is_position_witness :
  ∃ b', MakeStringConstant "a" (NewBuilder emptyFn) = Ok (0, b')
        ∧ stringPool b' !! 0%nat = Some "a".
Proof.
  destruct constant_index_is_position as (_ & _ & Hs & _).
  destruct (Hs "a" (NewBuilder emptyFn)) as (b' & H1 & _ & H2 & _).
  { cbn. lia. }
  exists b'. split; [exact H1|exact H2].
Defined.

(** ** Names and scopes *)

Lemma scanScopes_prefix (fs extra : list (gmap string Z)) n : ∀ i,
  (i ≤ length fs)%nat →
  scanScopes (fs ++ extra) i n = scanScopes fs i n.
Proof.
  induction i as [|j IH]; intros Hi; cbn [scanScopes]; [done|].
  rewrite lookup_app_l by lia. rewrite IH by lia. done.
Qed.

Lemma scanScopes_snoc (fs : list (gmap string Z)) top n :
  scanScopes (fs ++ [top]) (length (fs ++ [top])) n
  = match top !! n with
    | Some reg => Some reg
    | None => scanScopes fs (length fs) n
    end.
Proof.
  rewrite length_app. cbn [length]. rewrite Nat.add_1_r.
  cbn [scanScopes]. rewrite list_lookup_middle by done.
  by rewrite scanScopes_prefix.
Qed.

(** X9.  A name bound with [BindVarReg] is found by [ScopeLookup] with its
    register and is a variable for [IsVariable]; the other names are looked
    up as before.  [BindVarReg] panics exactly when no scope is open, and
    [IsVariable] tells whether [ScopeLookup] finds the name or panics. *)
Theorem bind_then_lookup (name : string) (reg : Z) (b : FunctionBuilder) :
  (scopes b = [] → BindVarReg name reg b = Panic "index out of range")
  ∧ (scopes b ≠ [] →
       ∃ b', BindVarReg name reg b = Ok b'
             ∧ ScopeLookup name b' = Ok reg
             ∧ IsVariable name b' = true
             ∧ ∀ n, n ≠ name →
                 ScopeLookup n b' = ScopeLookup n b
                 ∧ IsVariable n b' = IsVariable n b)
  ∧ (∀ n, IsVariable n b = true ↔ ∃ r, ScopeLookup n b = Ok r).
Proof.
  split; [|split].
  - intros Hs. unfold BindVarReg. by rewrite Hs.
  - intros Hs. apply last_is_Some in Hs as [top Htop].
    pose proof Htop as Hl. apply last_Some in Hl as [fs Hfs].
    unfold BindVarReg. rewrite Htop. eexists. split; [reflexivity|].
    unfold ScopeLookup, IsVariable.
    cbn [scopes set_scopes]. rewrite Hfs, removelast_last.
    rewrite !scanScopes_snoc, lookup_insert_eq.
    split; [done|]. split; [done|].
    intros n Hn. rewrite !scanScopes_snoc, lookup_insert_ne by done. done.
  - intros n. unfold IsVariable, ScopeLookup.
    destruct (scanScopes _ _ n) as [r|].
    + split; [by exists r|]. intros _. apply bool_decide_eq_true. by exists r.
    + split.
      * intros H. apply bool_decide_eq_true in H as [r Hr]. done.
      * intros [r Hr]. done.
Qed.

Lemma bind_then_lookup_witness :
  ∃ b', BindVarReg "x" 3 (EnterScope (NewBuilder emptyFn)) = Ok b'
        ∧ ScopeLookup "x" b' = Ok 3.
Proof.
  destruct (proj1 (proj2 (bind_then_lookup "x" 3
                            (EnterScope (NewBuilder emptyFn)))))
    as (b' & Hb & Hl & _); [discriminate|].
  exists b'. split; [exact Hb|exact Hl].
Defined.

(** X10.  A binding lives as long as its scope: a name bound after
    [EnterScope] hides the binding that an outer scope has for it, and
    after [ExitScope] every name is looked up as before the [EnterScope]. *)
Theorem scope_exit_forgets (name : string) (reg : Z) (b : FunctionBuilder) :
  ∃ b1 b2,
    BindVarReg name reg (EnterScope b) = Ok b1
    ∧ ScopeLookup name b1 = Ok reg
    ∧ ExitScope b1 = Ok b2
    ∧ scopes b2 = scopes b
    ∧ ∀ n, ScopeLookup n b2 = ScopeLookup n b
           ∧ IsVariable n b2 = IsVariable n b.
Proof.
  unfold BindVarReg. cbn [EnterScope EnterStack scopes set_scopes
                            set_scopeShifts].
  rewrite last_snoc, removelast_last. eexists _, _.
  split; [reflexivity|]. split.
  { unfold ScopeLookup. cbn [scopes set_scopes].
    by rewrite scanScopes_snoc, lookup_insert_eq. }
  unfold ExitScope. cbn [scopes set_scopes].
  destruct (scopes b ++ [<[name:=reg]> ∅]) eqn:Happ;
    [by destruct (scopes b)|].
  rewrite <- Happ, removelast_last.
  unfold ExitStack, EnterScope, EnterStack.
  cbn [scopeShifts set_scopes set_scopeShifts]. rewrite last_snoc.
  split; [reflexivity|]. done.
Qed.

(** ** The table of types *)

Section TypeFacts.

Context {T : Type} `{EqDecision T}.

Lemma firstIndex_Some (typ : T) types : ∀ i j,
  firstIndex typ types i = Some j →
  i ≤ j < i + Z.of_nat (length types)
  ∧ types !! Z.to_nat (j - i) = Some typ.
Proof.
  induction types as [|t ts IH]; intros i j H; cbn [firstIndex] in H;
    [done|].
  case_decide as Ht.
  - injection H as <-. subst. cbn [length]. rewrite Z.sub_diag.
    split; [lia|done].
  - destruct (IH _ _ H) as [Hr Hl]. cbn [length]. split; [lia|].
    replace (Z.to_nat (j - i)) with (S (Z.to_nat (j - (i + 1)))) by lia.
    done.
Qed.

Lemma firstIndex_None (typ : T) types i :
  firstIndex typ types i = None ↔ typ ∉ types.
Proof.
  revert i. induction types as [|t ts IH]; intros i; cbn [firstIndex].
  - split; [intros _; apply not_elem_of_nil|done].
  - case_decide as Ht.
    + subst. split; [done|]. intros Hn. exfalso. apply Hn. by left.
    + rewrite IH. rewrite not_elem_of_cons.
      split; [intros ?; split; [congruence|done]|by intros [_ ?]].
Qed.

Lemma lastIndex_spec (typ : T) types : ∀ i found,
  match lastIndex typ types i found with
  | Some j =>
      (i ≤ j < i + Z.of_nat (length types)
       ∧ types !! Z.to_nat (j - i) = Some typ)
      ∨ (found = Some j ∧ typ ∉ types)
  | None => found = None ∧ typ ∉ types
  end.
Proof.
  induction types as [|t ts IH]; intros i found; cbn [lastIndex].
  - destruct found; [right|]; split; try done; apply not_elem_of_nil.
  - specialize (IH (i + 1) (if decide (t = typ) then Some i else found)).
    destruct (lastIndex _ _ _ _) as [j|].
    + destruct IH as [[Hr Hl]|[Hf Hn]].
      * left. cbn [length]. split; [lia|].
        replace (Z.to_nat (j - i)) with (S (Z.to_nat (j - (i + 1)))) by lia.
        done.
      * case_decide as Ht.
        -- injection Hf as <-. subst. left. cbn [length].
           rewrite Z.sub_diag. split; [lia|done].
        -- right. split; [done|]. rewrite not_elem_of_cons. done.
    + destruct IH as [Hf Hn]. case_decide; [done|].
      split; [done|]. rewrite not_elem_of_cons. done.
Qed.

(** X11.  [AddType] keeps the table free of duplicates and returns the
    position of the type: a type that is in the table is found, a new one
    is appended.  The limit is checked first, on the length alone: with 256
    entries [AddType] panics, also for a type that is in the table. *)
Theorem AddType_finds_or_appends (typ : T) (types : list T) :
  ((length types ≤ 255)%nat →
     ∃ idx types',
       AddType typ types = Ok (idx, types')
       ∧ 0 ≤ idx ≤ 255
       ∧ types' !! Z.to_nat idx = Some typ
       ∧ (typ ∈ types → types' = types)
       ∧ (typ ∉ types →
            types' = types ++ [typ] ∧ idx = Z.of_nat (length types))
       ∧ (NoDup types → NoDup types'))
  ∧ ((256 ≤ length types)%nat →
       AddType typ types = Panic "types limit reached").
Proof.
  unfold AddType. split; intros Hlen; [|case_decide; [done|lia]].
  case_decide; [lia|].
  destruct (firstIndex typ types 0) as [j|] eqn:Hfirst.
  - destruct (firstIndex_Some _ _ _ _ Hfirst) as [Hr Hl].
    rewrite Z.sub_0_r in Hl.
    exists (to_uint8 j), types. rewrite to_uint8_small by lia.
    split; [done|]. split; [lia|]. split; [done|]. split; [done|].
    split; [|done]. intros Hn.
    apply (proj2 (firstIndex_None typ types 0)) in Hn. congruence.
  - apply firstIndex_None in Hfirst.
    exists (to_uint8 (Z.of_nat (length types))), (types ++ [typ]).
    rewrite to_uint8_small by lia.
    split; [done|]. split; [lia|]. split.
    { rewrite Nat2Z.id. by apply list_lookup_middle. }
    split; [done|]. split; [done|].
    intros Hnd. apply NoDup_app. split; [done|].
    split; [|apply NoDup_singleton].
    intros x Hx Hx'. apply list_elem_of_singleton in Hx'. by subst.
Qed.

(** X12.  [Type] returns the index of the type as a signed byte: read back
    as an unsigned byte it is a position of the type in the table, which
    grows only if the type was not in it.  A type that is in the table is
    found even when the table is full; a new type panics when the table
    holds exactly 256 entries. *)
Theorem Type_finds_or_appends (typ : T) (types : list T) :
  (typ ∈ types → (length types ≤ 256)%nat →
     ∃ idx, Type__ typ types = Ok (idx, types)
            ∧ types !! Z.to_nat (to_uint8 idx) = Some typ)
  ∧ (typ ∉ types → (length types < 256)%nat →
       Type__ typ types
       = Ok (to_int8 (Z.of_nat (length types)), types ++ [typ])
       ∧ (types ++ [typ])
           !! Z.to_nat (to_uint8 (to_int8 (Z.of_nat (length types))))
         = Some typ)
  ∧ (typ ∉ types → length types = 256%nat →
       Type__ typ types = Panic "types limit reached").
Proof.
  unfold Type__. pose proof (lastIndex_spec typ types 0 None) as Hspec.
  split; [|split].
  - intros Hin Hlen. destruct (lastIndex typ types 0 None) as [j|].
    + destruct Hspec as [[Hr Hl]|[Hf _]]; [|done].
      rewrite Z.sub_0_r in Hl. exists (to_int8 j). split; [done|].
      rewrite to_uint8_to_int8, to_uint8_small by lia. done.
    + by destruct Hspec.
  - intros Hn Hlen. destruct (lastIndex typ types 0 None) as [j|].
    + destruct Hspec as [[Hr Hl]|[Hf _]]; [|done].
      exfalso. apply Hn. by eapply list_elem_of_lookup_2.
    + rewrite decide_False by lia. split; [done|].
      rewrite to_uint8_to_int8, to_uint8_small by lia.
      rewrite Nat2Z.id. by apply list_lookup_middle.
  - intros Hn Hlen. destruct (lastIndex typ types 0 None) as [j|].
    + destruct Hspec as [[Hr Hl]|[Hf _]]; [|done].
      exfalso. apply Hn. by eapply list_elem_of_lookup_2.
    + by rewrite decide_True.
Qed.

End TypeFacts.

Lemma AddType_finds_or_appends_witness :
  ∃ idx types', AddType "int" ["string"; "int"] = Ok (idx, types')
                ∧ types' !! Z.to_nat idx = Some "int".
Proof.
  destruct (proj1 (AddType_finds_or_appends "int" ["string"; "int"]))
    as (idx & types' & Hadd & _ & Hat & _); [cbn; lia|].
  exists idx, types'. split; [exact Hadd|exact Hat].
Defined.

Lemma Type_finds_or_appends_witness :
  Type__ "int" ["string"] = Ok (to_int8 1, ["string"; "int"]).
Proof.
  apply (proj1 (proj2 (Type_finds_or_appends "int" ["string"]))).
  - intros Hin. apply list_elem_of_singleton in Hin. discriminate Hin.
  - cbn. lia.
Defined.

(** *** What [End] commits *)

(** A property of the marks that [allocRegister] keeps is kept by every
    call. *)
Lemma step_maxRegs_closed (P : gmap Kind Z → Prop) opc c b b' :
  (∀ kind r b, P (maxRegs b) → P (maxRegs (allocRegister kind r b))) →
  step opc c b = Ok b' → P (maxRegs b) → P (maxRegs b').
Proof.
  intros HP H Hb. destruct c; cbn [step] in H.
  - by injection H as <-.
  - unfold ExitScope in H. destruct (scopes b); [done|].
    unfold ExitStack in H.
    destruct (last _) as [[[[s0 s1] s2] s3]|]; [|done].
    by injection H as <-.
  - by injection H as <-.
  - unfold ExitStack in H.
    destruct (last _) as [[[[s0 s1] s2] s3]|]; [|done].
    by injection H as <-.
  - injection H as <-. unfold NewRegister. cbn [snd]. by apply HP.
  - by injection H as <-.
  - unfold SetLabelAddr in H. case_decide; [|done]. by injection H as <-.
  - unfold Goto in H. repeat case_decide; try done.
    + destruct (labels b !! _) as [addr|]; [|done].
      case_decide.
      * destruct (gotos b); [|done]. by injection H as <-.
      * destruct (encodeAddr addr) as [[a0 b0] c0]. by injection H as <-.
    + by injection H as <-.
  - by injection H as <-.
  - open_emitter H; cbn; repeat apply HP; done.
  - open_emitter H; cbn; repeat apply HP; done.
  - open_emitter H; cbn; repeat apply HP; done.
  - open_emitter H; cbn; repeat apply HP; done.
  - open_emitter H; cbn; repeat apply HP; done.
  - open_emitter H; cbn; repeat apply HP; done.
  - injection H as <-. unfold Concat. cbn. repeat apply HP. done.
  - by injection H as <-.
  - by injection H as <-.
  - unfold MakeIntConstant in H. case_decide; [done|]. by injection H as <-.
  - unfold MakeFloatConstant in H. case_decide; [done|]. by injection H as <-.
  - unfold MakeStringConstant in H. case_decide; [done|]. by injection H as <-.
  - unfold MakeGeneralConstant in H. case_decide; [done|].
    by injection H as <-.
  - unfold MakeInterfaceConstant in H. case_decide; [done|].
    by injection H as <-.
Qed.

Lemma normKeys_alloc kind r b :
  normKeys (maxRegs b) → normKeys (maxRegs (allocRegister kind r b)).
Proof.
  intros Hn. rewrite allocRegister_maxRegs.
  assert (Hins : ∀ v, normKeys (<[normKind kind := v]> (maxRegs b))).
  { intros v k. destruct (decide (normKind kind = k)) as [<-|Hne].
    - intros _. apply normKind_idem.
    - rewrite lookup_insert_ne by done. apply Hn. }
  case_decide; [|done].
  destruct (maxRegs b !! normKind kind); [case_decide|]; auto.
Qed.

Lemma run_normKeys opc cs : ∀ b b',
  run opc cs b = Ok b' → normKeys (maxRegs b) → normKeys (maxRegs b').
Proof.
  induction cs as [|c cs IH]; intros b b' H Hn; cbn [run] in H.
  - by injection H as <-.
  - destruct (step opc c b) as [b1|] eqn:Hstep; [|done].
    cbn [res_bind] in H. eapply IH; [exact H|].
    eapply (step_maxRegs_closed normKeys); [|exact Hstep|done].
    intros. by apply normKeys_alloc.
Qed.

Lemma run_RegNum opc cs : ∀ b b',
  run opc cs b = Ok b' → RegNum (fn b') = RegNum (fn b).
Proof.
  induction cs as [|c cs IH]; intros b b' H; cbn [run] in H.
  - by injection H as <-.
  - destruct (step opc c b) as [b1|] eqn:Hstep; [|done].
    cbn [res_bind] in H. rewrite (IH _ _ H).
    by destruct (step_marks _ _ _ _ Hstep).
Qed.

(** The second loop of [End] on a zeroed [RegNum]: each class gets its
    mark. *)
Lemma commit_marks (m : gmap Kind Z) :
  normKeys m → nonneg m →
  map_fold commitReg [0; 0; 0; 0] m
  = [regs_get m Int; regs_get m Float64; regs_get m String;
     regs_get m Interface].
Proof.
  apply (map_fold_weak_ind
           (λ acc m, normKeys m → nonneg m →
              acc = [regs_get m Int; regs_get m Float64; regs_get m String;
                     regs_get m Interface])).
  - done.
  - intros k v m' acc Hk IH Hn Hpos.
    assert (Hk' : normKind k = k).
    { apply Hn. rewrite lookup_insert_eq. by eexists. }
    assert (Hv : 0 ≤ v).
    { apply (Hpos k). by rewrite lookup_insert_eq. }
    rewrite IH; cycle 1.
    { intros j Hj. apply Hn. destruct (decide (k = j)) as [<-|Hne].
      - rewrite lookup_insert_eq. by eexists.
      - by rewrite lookup_insert_ne. }
    { intros j w Hj. apply (Hpos j).
      destruct (decide (k = j)) as [<-|Hne]; [congruence|].
      by rewrite lookup_insert_ne. }
    unfold regs_get.
    destruct k; try discriminate Hk'; unfold commitReg;
      repeat match goal with
             | |- context [regClass ?k] =>
                 let n := eval vm_compute in (regClass k) in
                 change (regClass k) with n
             end;
      cbn [lookup list_lookup]; rewrite ?Hk;
      rewrite ?lookup_insert_eq, ?lookup_insert_ne by done;
      cbn [default]; case_decide; cbn [insert list_insert];
      repeat f_equal; unfold id; lia.
Qed.

(** X13.  [End] commits exactly the marks.  For a builder driven from a
    fresh one by calls that did not panic, the four entries of [RegNum]
    after [End] are the marks of the classes of [Int], [Float64], [String]
    and [Interface] as they stood before it; [End] leaves the marks and the
    counts themselves as they were. *)
Theorem build_commits_marks (opc : Opcode → Z) (cs : list call)
    (b b' : FunctionBuilder) :
  run opc cs (NewBuilder emptyFn) = Ok b → End_ b = Ok b' →
  RegNum (fn b')
  = [regs_get (maxRegs b) Int; regs_get (maxRegs b) Float64;
     regs_get (maxRegs b) String; regs_get (maxRegs b) Interface]
  ∧ maxRegs b' = maxRegs b ∧ numRegs b' = numRegs b.
Proof.
  intros Hrun Hend.
  pose proof (run_RegNum _ _ _ _ Hrun) as Hreg.
  pose proof (run_normKeys _ _ _ _ Hrun) as Hn.
  pose proof (run_regsInv _ _ _ _ Hrun regsInv_fresh) as (_ & Hpos & _).
  unfold End_ in Hend. destruct (map_fold _ _ _) as [body|]; [|done].
  cbn [res_bind] in Hend. injection Hend as <-.
  cbn [fn set_gotos set_fn RegNum maxRegs numRegs].
  split; [|done]. rewrite Hreg. apply commit_marks; [|done].
  apply Hn. intros k [v Hk]. unfold NewBuilder in Hk. cbn [maxRegs] in Hk.
  by rewrite lookup_empty in Hk.
Qed.

Lemma build_commits_marks_witness :
  [2; 0; 1; 0]
  = [regs_get {[Int := 2; String := 1]} Int;
     regs_get {[Int := 2; String := 1]} Float64;
     regs_get {[Int := 2; String := 1]} String;
     regs_get {[Int := 2; String := 1]} Interface].
Proof.
  refine (proj1 (build_commits_marks opcTable
            [CNewRegister Int; CNewRegister String; CNewRegister Int]
            (mkBuilder emptyFn [] (Some ∅) {[Int := 2; String := 1]}
               {[Int := 2; String := 1]} [] [])
            (mkBuilder (mkFn [2; 0; 1; 0] (mkConstants [] [] [] []) [])
               [] None {[Int := 2; String := 1]}
               {[Int := 2; String := 1]} [] [])
            _ _));
    vm_compute; reflexivity.
Defined.

End VMXFacts.

(** * More theorems about the parser and the expander *)

Module TplXFacts.
Import Tpl TplX.

(** *** [cutSpaces] *)

Lemma newline_not_space (c : Ascii.ascii) :
  isNewline c = true → isLineSpace c = false.
Proof.
  unfold isNewline, isLineSpace. intros H%bool_decide_eq_true.
  apply bool_decide_eq_false. lia.
Qed.

(** The backward loop passes over a run of spaces at the end. *)
Lemma scanBack_spaces (pre sp : list Ascii.ascii) :
  Forall (λ c, isLineSpace c = true) sp →
  scanBack (pre ++ sp) (length (pre ++ sp)) = scanBack (pre ++ sp) (length pre).
Proof.
  induction sp as [|c sp IH] using rev_ind; intros Hsp.
  - by rewrite app_nil_r.
  - apply Forall_app in Hsp as [Hsp Hc]. rewrite Forall_singleton in Hc.
    rewrite app_assoc. rewrite (length_app (pre ++ sp)). cbn [length].
    replace (length (pre ++ sp) + 1)%nat with (S (length (pre ++ sp))) by lia.
    cbn [scanBack]. rewrite list_lookup_middle by done.
    destruct (isNewline c) eqn:Hn.
    { apply newline_not_space in Hn. congruence. }
    rewrite Hc.
    assert (Hgen : ∀ n, (n ≤ length (pre ++ sp))%nat →
              scanBack ((pre ++ sp) ++ [c]) n = scanBack (pre ++ sp) n).
    { clear. induction n as [|n IHn]; intros Hn; [done|].
      cbn [scanBack]. rewrite lookup_app_l by lia.
      destruct ((pre ++ sp) !! n) as [d|]; [|done].
      destruct (isNewline d); [done|]. destruct (isLineSpace d); [|done].
      apply IHn. lia. }
    rewrite Hgen by lia. rewrite IH by done.
    rewrite <- (Hgen (length pre)); [done|]. rewrite length_app. lia.
Qed.

Lemma scanBack_stop (pre : list Ascii.ascii) (c : Ascii.ascii)
    (sp : list Ascii.ascii) :
  scanBack ((pre ++ [c]) ++ sp) (length (pre ++ [c]))
  = if isNewline c then Some (Z.of_nat (length pre) + 1)
    else if isLineSpace c then scanBack ((pre ++ [c]) ++ sp) (length pre)
    else None.
Proof.
  rewrite length_app. cbn [length].
  replace (length pre + 1)%nat with (S (length pre)) by lia.
  cbn [scanBack]. rewrite <- app_assoc. cbn [app].
  by rewrite list_lookup_middle.
Qed.

(** The forward loop passes over a run of spaces at the start. *)
Lemma scanForward_spaces (sp post : list Ascii.ascii) (j : nat) :
  Forall (λ c, isLineSpace c = true) sp → (j ≤ length sp)%nat →
  scanForward (sp ++ post) j (length (sp ++ post) - j)
  = scanForward (sp ++ post) (length sp) (length post).
Proof.
  intros Hsp Hj. remember (length sp - j)%nat as d eqn:Hd.
  revert j Hj Hd. induction d as [|d IH]; intros j Hj Hd.
  - assert (j = length sp) as -> by lia. f_equal. rewrite length_app. lia.
  - rewrite length_app.
    replace (length sp + length post - j)%nat
      with (S (length sp + length post - S j)) by lia.
    cbn [scanForward].
    destruct (lookup_lt_is_Some_2 sp j) as [c Hc]; [lia|].
    rewrite (lookup_app_l_Some _ _ _ _ Hc).
    assert (Hs : isLineSpace c = true).
    { eapply (proj1 (Forall_lookup _ _) Hsp); eauto. }
    destruct (isNewline c) eqn:Hn.
    { apply newline_not_space in Hn. congruence. }
    rewrite Hs. rewrite <- (IH (S j)) by lia. by rewrite length_app.
Qed.

Lemma scanForward_stop (sp : list Ascii.ascii) (c : Ascii.ascii)
    (post : list Ascii.ascii) :
  scanForward (sp ++ c :: post) (length sp) (length (c :: post))
  = if isNewline c then Some (Z.of_nat (length sp) + 1)
    else if isLineSpace c
         then scanForward (sp ++ c :: post) (S (length sp)) (length post)
         else None.
Proof. cbn [length scanForward]. by rewrite list_lookup_middle. Qed.

Lemma scanBack_text (pre sp : list Ascii.ascii) :
  blank sp →
  (lineEnd pre = true →
     scanBack (pre ++ sp) (length (pre ++ sp)) = Some (Z.of_nat (length pre)))
  ∧ (solidEnd pre = true →
       scanBack (pre ++ sp) (length (pre ++ sp)) = None).
Proof.
  intros Hsp. rewrite scanBack_spaces by done.
  unfold lineEnd, solidEnd, solid.
  destruct (last pre) as [c|] eqn:Hl.
  - apply last_Some in Hl as [pre' ->]. rewrite scanBack_stop.
    rewrite length_app. cbn [length].
    split; intros H.
    + rewrite H. f_equal. lia.
    + apply andb_prop in H as [H1 H2].
      apply negb_true_iff in H1, H2. by rewrite H1, H2.
  - apply last_None in Hl as ->. split; [done|discriminate].
Qed.

Lemma scanForward_text (sp post : list Ascii.ascii) :
  blank sp →
  (lineStart post = true →
     scanForward (sp ++ post) 0 (length (sp ++ post))
     = Some (Z.of_nat (length sp) + lineBreak post))
  ∧ (solidStart post = true →
       scanForward (sp ++ post) 0 (length (sp ++ post)) = None).
Proof.
  intros Hsp.
  pose proof (scanForward_spaces sp post 0 Hsp ltac:(lia)) as H.
  rewrite Nat.sub_0_r in H. rewrite H.
  unfold lineStart, solidStart, solid, lineBreak.
  destruct post as [|c post].
  - split; [|discriminate]. intros _. rewrite app_nil_r.
    cbn [length scanForward]. f_equal. lia.
  - rewrite scanForward_stop. split; intros H'.
    + by rewrite H'.
    + apply andb_prop in H' as [H1 H2].
      apply negb_true_iff in H1, H2. by rewrite H1, H2.
Qed.

(** X14.  [cutSpaces] cuts the blank end of the first text of a line and
    the blank start of the last one, both or none.  Take the first text as
    [pre ++ sp] and the last as [sp' ++ post], with [sp] and [sp'] runs of
    spaces, tabs and carriage returns.  If [pre] is empty or ends with a
    newline, and [post] is empty or starts with one, the right cut of the
    first text becomes the length of [sp] and the left cut of the last the
    length of [sp'], plus one for the newline if there is one; a text that
    is nil is passed over.  If [pre] ends with any other byte the call
    changes nothing, whatever the last text is, and the same if [post]
    starts with any other byte.  The bytes, the left cut of the first text
    and the right cut of the last are never written. *)
Theorem cutSpaces_cuts_blank_line_ends (f l : Text)
    (pre sp sp' post : list Ascii.ascii) :
  TextBytes f = pre ++ sp → blank sp →
  TextBytes l = sp' ++ post → blank sp' →
  let cutF :=
    mkText (TextBytes f)
      (mkCut (CutLeft (TextCut f)) (Z.of_nat (length sp))) in
  let cutL :=
    mkText (TextBytes l)
      (mkCut (Z.of_nat (length sp') + lineBreak post) (CutRight (TextCut l))) in
  (lineEnd pre = true → lineStart post = true →
     cutSpaces (Some f) (Some l) = (Some cutF, Some cutL)
     ∧ cutSpaces (Some f) None = (Some cutF, None)
     ∧ cutSpaces None (Some l) = (None, Some cutL))
  ∧ (solidEnd pre = true →
       ∀ last, cutSpaces (Some f) last = (Some f, last))
  ∧ (solidStart post = true →
       ∀ first, cutSpaces first (Some l) = (first, Some l)).
Proof.
  intros Hf Hsp Hl Hsp' cutF cutL.
  destruct (scanBack_text pre sp Hsp) as [Hb1 Hb2].
  destruct (scanForward_text sp' post Hsp') as [Hf1 Hf2].
  assert (Hlen : Z.of_nat (length (TextBytes f)) - Z.of_nat (length pre)
                 = Z.of_nat (length sp)).
  { rewrite Hf, length_app. lia. }
  split; [|split].
  - intros H1 H2. specialize (Hb1 H1). specialize (Hf1 H2).
    unfold cutSpaces. rewrite Hf in *. rewrite Hl in *. rewrite Hb1, Hf1.
    subst cutF cutL. rewrite Hf, Hl. rewrite Hlen. done.
  - intros H1 last. specialize (Hb2 H1). unfold cutSpaces.
    rewrite Hf. by rewrite Hb2.
  - intros H2 first. specialize (Hf2 H2). unfold cutSpaces.
    rewrite Hl, Hf2.
    destruct first as [g|]; [|done].
    by destruct (scanBack (TextBytes g) _).
Qed.

(** *** [abs] *)

Lemma lastIndexSlashFrom_bounds (s : string) (i acc : Z) :
  acc < i →
  lastIndexSlashFrom i acc s = acc ∨ i ≤ lastIndexSlashFrom i acc s.
Proof.
  revert i acc. induction s as [|ch s IH]; intros i acc Hi; cbn; [by left|].
  destruct (Ascii.eqb ch _).
  - destruct (IH (i + 1) i) as [->| ]; [lia|right; lia|right; lia].
  - destruct (IH (i + 1) acc) as [->| ]; [lia|by left|right; lia].
Qed.

(** A string without a slash leaves the last match as it was. *)
Lemma lastIndexSlashFrom_none (s : string) (i acc i' acc' : Z) :
  acc < i → lastIndexSlashFrom i acc s = acc →
  lastIndexSlashFrom i' acc' s = acc'.
Proof.
  revert i acc i' acc'. induction s as [|ch s IH]; intros i acc i' acc' Hi;
    cbn; [done|].
  destruct (Ascii.eqb ch _).
  - intros H. destruct (lastIndexSlashFrom_bounds s (i + 1) i); lia.
  - intros H. by apply (IH (i + 1) acc); [lia|].
Qed.

Lemma lastIndexSlashFrom_app (s1 s2 : string) (i acc : Z) :
  lastIndexSlashFrom i acc (s1 +:+ s2)
  = lastIndexSlashFrom (i + Z.of_nat (String.length s1))
      (lastIndexSlashFrom i acc s1) s2.
Proof.
  revert i acc. induction s1 as [|ch s1 IH]; intros i acc; cbn.
  - f_equal. lia.
  - change (String ch s1 +:+ s2) with (String ch (s1 +:+ s2)).
    cbn [lastIndexSlashFrom]. rewrite IH. f_equal. lia.
Qed.

Lemma lastIndexSlash_dir (dir name : string) :
  lastIndexSlash name = -1 →
  lastIndexSlash (dir +:+ "/" +:+ name) = Z.of_nat (String.length dir).
Proof.
  unfold lastIndexSlash. intros Hn. rewrite lastIndexSlashFrom_app.
  change ("/" +:+ name) with (String (Ascii.ascii_of_nat 47) name).
  cbn [lastIndexSlashFrom]. rewrite Ascii.eqb_refl.
  apply (lastIndexSlashFrom_none name 0 (-1)); [lia|done].
Qed.

Lemma substring_prefix (s1 s2 : string) :
  String.substring 0 (String.length s1) (s1 +:+ s2) = s1.
Proof.
  induction s1 as [|ch s1 IH]; [by destruct s2|].
  change (String ch s1 +:+ s2) with (String ch (s1 +:+ s2)).
  cbn [String.length String.substring]. by rewrite IH.
Qed.

Lemma parent_dir (dir name : string) :
  lastIndexSlash name = -1 →
  String.substring 0
    (Z.to_nat (lastIndexSlash (dir +:+ "/" +:+ name) + 1))
    (dir +:+ "/" +:+ name)
  = dir +:+ "/".
Proof.
  intros Hn. rewrite lastIndexSlash_dir by done.
  replace (Z.to_nat (Z.of_nat (String.length dir) + 1))
    with (String.length (dir +:+ "/")).
  - assert (Hassoc : dir +:+ "/" +:+ name = (dir +:+ "/") +:+ name).
    { clear. induction dir as [|ch dir IH]; [done|].
      change (String ch dir +:+ ?s) with (String ch (dir +:+ s)).
      by rewrite IH. }
    rewrite Hassoc. apply substring_prefix.
  - clear. induction dir as [|ch dir IH]; [done|].
    change (String ch dir +:+ "/") with (String ch (dir +:+ "/")).
    cbn [String.length]. rewrite IH. lia.
Qed.

(** X15.  [abs] resolves a relative path against the directory of the
    file being expanded, the top of the path stack: the parent up to its
    last slash, or nothing if the parent has no slash.  A path that starts
    with a slash is resolved against the root whatever the stack holds.  An
    empty path, and a relative path on an empty stack, panic with an index
    out of range. *)
Theorem abs_resolves_against_parent
    (toAbsolutePath : string → string → error + string)
    (pp : expansion) (path : string) :
  (path = EmptyString →
     abs toAbsolutePath pp path = XPanic "index out of range")
  ∧ (∀ tail, path = String (Ascii.ascii_of_nat 47) tail →
       abs toAbsolutePath pp path = resolved (toAbsolutePath "/" tail))
  ∧ (path ≠ EmptyString → headIsSlash path = false →
       (paths pp = [] →
          abs toAbsolutePath pp path = XPanic "index out of range")
       ∧ (∀ ps dir name,
            paths pp = ps ++ [dir +:+ "/" +:+ name] →
            lastIndexSlash name = -1 →
            abs toAbsolutePath pp path
            = resolved (toAbsolutePath (dir +:+ "/") path))
       ∧ (∀ ps name,
            paths pp = ps ++ [name] → lastIndexSlash name = -1 →
            abs toAbsolutePath pp path
            = resolved (toAbsolutePath EmptyString path))).
Proof.
  split; [by intros ->|]. split.
  { intros tail ->. unfold abs. cbn [headIsSlash dropHead].
    rewrite Ascii.eqb_refl. by destruct (toAbsolutePath _ _). }
  intros Hne Hrel. unfold abs. destruct path as [|ch rest]; [done|].
  rewrite Hrel. split; [by intros ->|]. split.
  - intros ps dir name -> Hn. rewrite last_snoc.
    rewrite parent_dir by done. by destruct (toAbsolutePath _ _).
  - intros ps name -> Hn. rewrite last_snoc. rewrite Hn.
    replace (String.substring 0 (Z.to_nat (-1 + 1)) name) with EmptyString
      by (by destruct name).
    by destruct (toAbsolutePath _ _).
Qed.

(** *** The expander *)

Lemma xbind_ext {A B} (m : expansion * xres A)
    (k1 k2 : expansion → A → expansion * xres B) :
  (∀ pp a, k1 pp a = k2 pp a) → xbind m k1 = xbind m k2.
Proof. intros H. destruct m as [pp []]; cbn; auto. Qed.

Lemma xbind_cong {A B} (m1 m2 : expansion * xres A)
    (k1 k2 : expansion → A → expansion * xres B) :
  m1 = m2 → (∀ pp a, k1 pp a = k2 pp a) → xbind m1 k1 = xbind m2 k2.
Proof. intros -> ?. by apply xbind_ext. Qed.

Lemma tidy_ret {A} (pp : expansion) (r : xres A) : tidy pp (pp, r).
Proof. by repeat split. Qed.

Lemma tidy_bind {A B} (pp : expansion) (m : expansion * xres A)
    (k : expansion → A → expansion * xres B) :
  tidy pp m → (∀ pp' a, tidy pp' (k pp' a)) → tidy pp (xbind m k).
Proof.
  intros (Hr & Hc & Hw & Hp) Hk. destruct m as [pp' [a| | | |]]; cbn in *;
    try (split; [done|split; [done|split; [done|intros ? [=]]]]).
  destruct (Hk pp' a) as (Hr' & Hc' & Hw' & Hp'). repeat split.
  - congruence.
  - by etrans.
  - auto.
  - intros b Hb. rewrite (Hp' b Hb). by apply (Hp a).
Qed.

Lemma listSize_eq (ns : list Node) :
  (fix go (ns : list Node) : nat :=
     match ns with
     | [] => 0%nat
     | m :: ms => (nodeSize m + go ms)%nat
     end) ns = nodesSize ns.
Proof. induction ns as [|m ms IH]; [done|]. cbn [nodesSize]. by rewrite IH. Qed.

Lemma nodeSize_unfold (n : Node) :
  nodeSize n
  = match n with
    | NTree _ nodes _ => S (nodesSize nodes)
    | NURL _ _ value => S (nodesSize value)
    | NIf _ _ then_ else_ =>
        S (nodesSize then_
           + match else_ with Some m => nodeSize m | None => 0 end)%nat
    | NBlock nodes => S (nodesSize nodes)
    | NFor body | NForRange body => S (nodesSize body)
    | NSwitch cases | NTypeSwitch cases => S (nodesSize cases)
    | NCase _ _ body _ => S (nodesSize body)
    | NMacro _ body => S (nodesSize body)
    | _ => 1%nat
    end.
Proof. destruct n; cbn [nodeSize]; by rewrite ?listSize_eq. Qed.

Lemma nodeSize_pos (n : Node) : (1 ≤ nodeSize n)%nat.
Proof. destruct n; cbn; lia. Qed.

Section ExpandFacts.

Context (toAbsolutePath : string → string → error + string).
Context (parsePath : expansion → string → Context →
                     expansion * xres TreeData).

Abbreviation expandNode := (Tpl.expandNode toAbsolutePath parsePath).
Abbreviation expand := (Tpl.expand toAbsolutePath parsePath).
Abbreviation expandCases := (TplX.expandCases toAbsolutePath parsePath).
Abbreviation attach := (Tpl.attach toAbsolutePath parsePath).

Lemma expand_ctx pp ns x y : expand pp ns x = expand pp ns y.
Proof.
  revert pp. induction ns as [|m ms IH]; intros pp; [done|].
  cbn [Tpl.expand]. apply xbind_ext. intros pp' m'. by rewrite IH.
Qed.

(** The loops inside [expandNode] are [expand] and [expandCases]. *)
Ltac nodes_loop :=
  match goal with
  | |- _ = Tpl.expand _ _ ?pp ?ns _ =>
      let IH := fresh "IH" in
      revert pp; induction ns as [|? ? IH]; intros pp; [done|];
      cbn [Tpl.expand]; apply xbind_ext; intros; by rewrite IH
  end.

Lemma expandNode_unfold pp n x :
  expandNode pp n
  = match n with
    | NIf p cond then_ else_ =>
        xbind (expand pp then_ x) (λ pp then',
          match else_ with
          | Some (NIf _ _ _ _ as e) =>
              xbind (expandNode pp e) (λ pp e',
                (pp, XOk (NIf p cond then' (Some e'))))
          | Some (NBlock ns) =>
              xbind (expand pp ns x) (λ pp ns',
                (pp, XOk (NIf p cond then' (Some (NBlock ns')))))
          | _ => (pp, XOk (NIf p cond then' else_))
          end)
    | NFor body =>
        xbind (expand pp body x) (λ pp body', (pp, XOk (NFor body')))
    | NForRange body =>
        xbind (expand pp body x) (λ pp body', (pp, XOk (NForRange body')))
    | NSwitch cases =>
        xbind (expandCases pp cases) (λ pp cases', (pp, XOk (NSwitch cases')))
    | NTypeSwitch cases =>
        xbind (expandCases pp cases) (λ pp cases',
          (pp, XOk (NTypeSwitch cases')))
    | NMacro name body =>
        xbind (expand pp body x) (λ pp body', (pp, XOk (NMacro name body')))
    | NExtends p npath nctx _ =>
        if bool_decide (1 < length (paths pp))%nat
        then (pp, XErr (SyntaxError EmptyString p
                          (Errorf "extended, imported and included paths can not have extends" [])))
        else
          xbind (attach "extends path %q does not exist" "imports " pp p npath
                   nctx)
            (λ pp t, (pp, XOk (NExtends p npath nctx t)))
    | NImport p npath nctx _ =>
        xbind (attach "import path %q does not exist" "imports " pp p npath
                 nctx)
          (λ pp t, (pp, XOk (NImport p npath nctx t)))
    | NInclude p npath nctx _ =>
        xbind (attach "included path %q does not exist" "include " pp p npath
                 nctx)
          (λ pp t, (pp, XOk (NInclude p npath nctx t)))
    | _ => (pp, XOk n)
    end.
Proof.
  assert (Hcases : ∀ cs pp,
    (fix go (pp : expansion) (cs : list Node) {struct cs}
       : expansion * xres (list Node) :=
       match cs with
       | [] => (pp, XOk [])
       | NCase p es body ft :: cs' =>
           xbind
             ((fix go (pp : expansion) (ns : list Node) {struct ns}
                 : expansion * xres (list Node) :=
                 match ns with
                 | [] => (pp, XOk [])
                 | m :: ms =>
                     xbind (expandNode pp m) (λ pp m',
                     xbind (go pp ms) (λ pp ms', (pp, XOk (m' :: ms'))))
                 end) pp body)
             (λ pp body',
              xbind (go pp cs') (λ pp cs'',
                (pp, XOk (NCase p es body' ft :: cs''))))
       | c :: cs' =>
           xbind (go pp cs') (λ pp cs'', (pp, XOk (c :: cs'')))
       end) pp cs = expandCases pp cs).
  { induction cs as [|c cs IH]; intros pp'; [done|].
    destruct c; cbn [TplX.expandCases];
      try (apply xbind_cong; [apply IH|done]).
    apply xbind_cong; [nodes_loop|]. intros.
    apply xbind_cong; [apply IH|done]. }
  destruct n; cbn [Tpl.expandNode]; try done;
    try (f_equal; first [nodes_loop | apply Hcases]).
  (* If *)
  apply xbind_cong; [nodes_loop|]. intros pp' then'.
  destruct else_ as [[]|]; try done.
  f_equal. nodes_loop.
Qed.

Hypothesis parsePath_is_tidy : ∀ pp path x, tidy pp (parsePath pp path x).

Lemma attach_tidy fmt pre pp p npath nctx :
  tidy pp (attach fmt pre pp p npath nctx).
Proof.
  unfold Tpl.attach. destruct (abs _ _ _) as [a| | | |]; try apply tidy_ret.
  destruct (parsePath_is_tidy pp a nctx) as (Hr & Hc & Hw & Hp).
  destruct (parsePath pp a nctx) as [pp' []]; cbn in *;
    (split; [done|split; [done|split; [done|]]]); cbn; try (intros ? [=]).
  by eapply Hp.
Qed.

Lemma expand_tidy_from (k : nat) :
  (∀ n, (nodeSize n ≤ k)%nat → ∀ pp, tidy pp (expandNode pp n)) →
  ∀ ns, (nodesSize ns ≤ k)%nat → ∀ pp x, tidy pp (expand pp ns x).
Proof.
  intros Hn ns. induction ns as [|m ms IH]; intros Hs pp x; [apply tidy_ret|].
  cbn [nodesSize] in Hs. cbn [Tpl.expand].
  apply tidy_bind; [apply Hn; lia|]. intros pp' m'.
  apply tidy_bind; [apply IH; lia|]. intros. apply tidy_ret.
Qed.

Lemma expandCases_tidy_from (k : nat) :
  (∀ ns, (nodesSize ns ≤ k)%nat → ∀ pp x, tidy pp (expand pp ns x)) →
  ∀ cs, (nodesSize cs ≤ S k)%nat → ∀ pp, tidy pp (expandCases pp cs).
Proof.
  intros Hn cs. induction cs as [|c cs IH]; intros Hs pp; [apply tidy_ret|].
  cbn [nodesSize] in Hs. pose proof (nodeSize_pos c).
  destruct c; cbn [TplX.expandCases];
    try (apply tidy_bind; [apply IH; lia|intros; apply tidy_ret]).
  rewrite nodeSize_unfold in Hs.
  apply tidy_bind; [apply Hn; lia|]. intros.
  apply tidy_bind; [apply IH; lia|intros; apply tidy_ret].
Qed.


Lemma expandNode_tidy_size (k : nat) :
  ∀ n, (nodeSize n ≤ k)%nat → ∀ pp, tidy pp (expandNode pp n).
Proof.
  induction k as [|k IH]; intros n Hn pp.
  { pose proof (nodeSize_pos n). lia. }
  pose proof (expand_tidy_from k IH) as Hns.
  pose proof (expandCases_tidy_from k Hns) as Hcs.
  rewrite (expandNode_unfold pp n ContextNone).
  rewrite nodeSize_unfold in Hn.
  destruct n; try apply tidy_ret.
  - apply tidy_bind; [apply Hns; lia|]. intros pp' then'.
    destruct else_ as [[]|]; try apply tidy_ret.
    + apply tidy_bind; [apply IH; lia|intros; apply tidy_ret].
    + rewrite nodeSize_unfold in Hn.
      apply tidy_bind; [apply Hns; lia|intros; apply tidy_ret].
  - apply tidy_bind; [apply Hns; lia|intros; apply tidy_ret].
  - apply tidy_bind; [apply Hns; lia|intros; apply tidy_ret].
  - apply tidy_bind; [apply Hcs; lia|intros; apply tidy_ret].
  - apply tidy_bind; [apply Hcs; lia|intros; apply tidy_ret].
  - apply tidy_bind; [apply Hns; lia|intros; apply tidy_ret].
  - case_bool_decide; [apply tidy_ret|].
    apply tidy_bind; [apply attach_tidy|intros; apply tidy_ret].
  - apply tidy_bind; [apply attach_tidy|intros; apply tidy_ret].
  - apply tidy_bind; [apply attach_tidy|intros; apply tidy_ret].
Qed.

Lemma expand_tidy pp ns x : tidy pp (expand pp ns x).
Proof.
  apply (expand_tidy_from (nodesSize ns)); [|done].
  intros n _. apply (expandNode_tidy_size (nodeSize n)). done.
Qed.

End ExpandFacts.

Section ParseFacts.

Context (toAbsolutePath : string → string → error + string).
Context (read : string → Context → error + TreeData).

Abbreviation parsePath := (Tpl.parsePath toAbsolutePath read).
Abbreviation Parse := (Tpl.Parse toAbsolutePath read).

Lemma release_reserved (R : gset (string * Context)) (k : string * Context) :
  k ∉ R → ({[ k ]} ∪ R) ∖ {[ k ]} = R.
Proof.
  intros Hk. apply set_eq. intros j.
  rewrite elem_of_difference, elem_of_union, !elem_of_singleton.
  split; [tauto|]. intros Hj. split; [tauto|]. by intros ->.
Qed.

Lemma parsePath_tidy fuel pp path x : tidy pp (parsePath fuel pp path x).
Proof.
  revert pp path x. induction fuel as [|fuel IH]; intros pp path x;
    [apply tidy_ret|].
  cbn [Tpl.parsePath]. case_bool_decide; [apply tidy_ret|].
  unfold cacheGet. destruct (completed (trees pp) !! (path, x)) eqn:Hc;
    [apply tidy_ret|].
  case_bool_decide as Hr; [apply tidy_ret|].
  destruct (read path x) as [err|t].
  { (split; [|split; [|split]]); cbn;
      [by apply release_reserved|done|done|intros ? [=]]. }
  set (pp1 := mkExpansion _ (paths _ ++ [path])).
  destruct (expand_tidy toAbsolutePath (parsePath fuel) IH pp1 (TNodes t) x)
    as (Hr' & Hc' & Hw' & Hp').
  destruct (Tpl.expand _ _ pp1 (TNodes t) x) as [pp2 [nodes| | | |]];
    cbn in Hr', Hc', Hw', Hp';
    (split; [|split; [|split]]); cbn;
    try (rewrite Hr'; by apply release_reserved);
    try done; try (intros ? [=]).
  - apply map_subseteq_spec. intros k v Hk.
    rewrite lookup_insert_ne by (intros <-; congruence).
    by apply (proj1 (map_subseteq_spec _ _) Hc').
  - intros Hw q y u. unfold wellKeyed in *. cbn.
    destruct (decide ((path, x) = (q, y))) as [Heq|Hne].
    + injection Heq as <- <-. rewrite lookup_insert_eq. by intros [= <-].
    + rewrite lookup_insert_ne by done. by apply Hw'.
  - rewrite (Hp' nodes eq_refl). apply removelast_last.
Qed.

(** X16.  [Parse] leaves the cache in order, whatever it comes to (a tree,
    an error, a wait, a panic, or the end of the fuel): the keys reserved
    after the call are the keys reserved before it, every tree that was in
    the cache is still there, and a cache whose trees carry the paths they
    are stored under stays so.  The same holds for [parsePath] from any
    expansion state, which also gives the path stack back when it returns a
    tree. *)
Theorem Parse_leaves_cache_tidy (fuel : nat) (c : cache) (path : string)
    (x : Context) :
  reserved (Parse fuel c path x).1 = reserved c
  ∧ completed c ⊆ completed (Parse fuel c path x).1
  ∧ (wellKeyed c → wellKeyed (Parse fuel c path x).1)
  ∧ ∀ pp, tidy pp (parsePath fuel pp path x).
Proof.
  split; [|split; [|split]]; [| | |intros; apply parsePath_tidy];
    unfold Tpl.Parse; (destruct path as [|ch path]; [done|]);
    (destruct (toAbsolutePath _ _) as [e|ap]; [done|]);
    destruct (parsePath_tidy fuel (mkExpansion c []) ap x)
      as (Hr & Hc & Hw & _);
    by destruct (parsePath _ _ _ _) as [pp' []].
Qed.

Lemma parsePath_ok_cached fuel pp pp' path x t :
  parsePath fuel pp path x = (pp', XOk t) →
  completed (trees pp') !! (path, x) = Some t.
Proof.
  destruct fuel as [|fuel]; [done|]. cbn [Tpl.parsePath].
  case_bool_decide; [done|]. unfold cacheGet.
  destruct (completed (trees pp) !! (path, x)) eqn:Hc.
  { by intros [= <- <-]. }
  case_bool_decide; [done|].
  destruct (read path x) as [err|u]; [done|].
  destruct (Tpl.expand _ _ _ _ _) as [pp2 [nodes| | | |]]; try done.
  intros [= <- <-]. cbn. by rewrite lookup_insert_eq.
Qed.

End ParseFacts.

(** X17.  The second [Parse] of a path reads nothing.  If [Parse] returns
    a tree, the tree is in the cache under the cleaned path and the context
    (and carries that path, if the cache was keyed by paths), and a later
    [Parse] of the same path and context on that cache returns the same
    tree and leaves the cache as it is, with any reader and with fuel for
    one call. *)
Theorem Parse_twice_reads_once
    (toAbsolutePath : string → string → error + string)
    (read read' : string → Context → error + TreeData)
    (fuel fuel' : nat) (c c' : cache) (path : string) (x : Context)
    (t : TreeData) :
  Tpl.Parse toAbsolutePath read fuel c path x = (c', XOk t) →
  Tpl.Parse toAbsolutePath read' (S fuel') c' path x = (c', XOk t)
  ∧ ∃ ap,
      toAbsolutePath "/" (if headIsSlash path then dropHead path else path)
      = inr ap
      ∧ completed c' !! (ap, x) = Some t
      ∧ (wellKeyed c → TPath t = ap).
Proof.
  intros H. unfold Tpl.Parse in *. destruct path as [|ch path]; [done|].
  destruct (toAbsolutePath _ _) as [e|ap]; [done|].
  pose proof (parsePath_tidy toAbsolutePath read fuel (mkExpansion c []) ap x)
    as (_ & _ & Hw & _).
  destruct (Tpl.parsePath _ read _ _ _ _) as [pp' []] eqn:Hp; try done.
  injection H as <- <-. cbn [fst trees] in Hw.
  apply parsePath_ok_cached in Hp.
  split.
  - cbn [Tpl.parsePath paths trees]. rewrite bool_decide_eq_false_2
      by apply not_elem_of_nil.
    unfold cacheGet. by rewrite Hp.
  - exists ap. split; [done|]. split; [done|]. intros Hc.
    by apply (Hw Hc ap x).
Qed.


(** *** Trees without directives *)

Lemma directiveFree_unfold (n : Node) :
  directiveFree n
  = match n with
    | NIf _ _ then_ else_ =>
        forallb directiveFree then_
        && match else_ with
           | Some (NIf _ _ _ _ as e) => directiveFree e
           | Some (NBlock ns) => forallb directiveFree ns
           | _ => true
           end
    | NFor body | NForRange body | NMacro _ body => forallb directiveFree body
    | NSwitch cases | NTypeSwitch cases => casesFree cases
    | NExtends _ _ _ _ | NImport _ _ _ _ | NInclude _ _ _ _ => false
    | _ => true
    end.
Proof.
  assert (Hall : ∀ ns,
    (fix go (ns : list Node) : bool :=
       match ns with
       | [] => true
       | m :: ms => directiveFree m && go ms
       end) ns = forallb directiveFree ns).
  { induction ns as [|m ms IH]; [done|]. cbn [forallb]. by rewrite IH. }
  assert (Hcases : ∀ cs,
    (fix go (cs : list Node) : bool :=
       match cs with
       | [] => true
       | NCase _ _ body _ :: cs' =>
           (fix go (ns : list Node) : bool :=
              match ns with
              | [] => true
              | m :: ms => directiveFree m && go ms
              end) body && go cs'
       | _ :: cs' => go cs'
       end) cs = casesFree cs).
  { induction cs as [|c cs IH]; [done|].
    destruct c; cbn [casesFree]; try apply IH. by rewrite Hall, IH. }
  destruct n; cbn [directiveFree]; by rewrite ?Hall, ?Hcases.
Qed.

Section FreeFacts.

Context (toAbsolutePath : string → string → error + string).
Context (pPath : expansion → string → Context → expansion * xres TreeData).

Abbreviation expandNode := (Tpl.expandNode toAbsolutePath pPath).
Abbreviation expand := (Tpl.expand toAbsolutePath pPath).
Abbreviation expandCases := (TplX.expandCases toAbsolutePath pPath).

Lemma expand_free_from (k : nat) :
  (∀ n, (nodeSize n ≤ k)%nat → directiveFree n = true →
        ∀ pp, expandNode pp n = (pp, XOk n)) →
  ∀ ns, (nodesSize ns ≤ k)%nat → forallb directiveFree ns = true →
        ∀ pp x, expand pp ns x = (pp, XOk ns).
Proof.
  intros Hn ns. induction ns as [|m ms IH]; intros Hs Hf pp x; [done|].
  cbn [nodesSize] in Hs. cbn [forallb] in Hf.
  apply andb_prop in Hf as [Hm Hms]. cbn [Tpl.expand].
  rewrite Hn by (done || lia). cbn [xbind]. by rewrite IH by (done || lia).
Qed.

Lemma expandCases_free_from (k : nat) :
  (∀ ns, (nodesSize ns ≤ k)%nat → forallb directiveFree ns = true →
         ∀ pp x, expand pp ns x = (pp, XOk ns)) →
  ∀ cs, (nodesSize cs ≤ S k)%nat → casesFree cs = true →
        ∀ pp, expandCases pp cs = (pp, XOk cs).
Proof.
  intros Hn cs. induction cs as [|c cs IH]; intros Hs Hf pp; [done|].
  cbn [nodesSize] in Hs. pose proof (nodeSize_pos c).
  destruct c; cbn [TplX.expandCases casesFree] in *;
    try (rewrite IH by (done || lia); done).
  rewrite nodeSize_unfold in Hs. apply andb_prop in Hf as [Hb Hcs].
  rewrite Hn by (done || lia). cbn [xbind]. by rewrite IH by (done || lia).
Qed.

Lemma expandNode_free_size (k : nat) :
  ∀ n, (nodeSize n ≤ k)%nat → directiveFree n = true →
       ∀ pp, expandNode pp n = (pp, XOk n).
Proof.
  induction k as [|k IH]; intros n Hn Hf pp.
  { pose proof (nodeSize_pos n). lia. }
  pose proof (expand_free_from k IH) as Hns.
  pose proof (expandCases_free_from k Hns) as Hcs.
  rewrite (expandNode_unfold toAbsolutePath pPath pp n ContextNone).
  rewrite nodeSize_unfold in Hn. rewrite directiveFree_unfold in Hf.
  destruct n; try done;
    try (rewrite Hns by (done || lia); done);
    try (rewrite Hcs by (done || lia); done).
  apply andb_prop in Hf as [Ht He].
  rewrite Hns by (done || lia). cbn [xbind].
  destruct else_ as [[]|]; try done.
  - rewrite IH by (done || lia). done.
  - rewrite nodeSize_unfold in Hn. rewrite Hns by (done || lia). done.
Qed.

Lemma expand_free pp ns x :
  forallb directiveFree ns = true → expand pp ns x = (pp, XOk ns).
Proof.
  intros Hf. apply (expand_free_from (nodesSize ns)); [|done..].
  intros n _. by apply (expandNode_free_size (nodeSize n)).
Qed.

End FreeFacts.

Section DirectiveFacts.

Context (toAbsolutePath : string → string → error + string).
Context (read : string → Context → error + TreeData).

Abbreviation parsePath := (Tpl.parsePath toAbsolutePath read).
Abbreviation Parse := (Tpl.Parse toAbsolutePath read).

Lemma expandNode_leaf pPath pp n :
  isLeaf n = true → Tpl.expandNode toAbsolutePath pPath pp n = (pp, XOk n).
Proof. by destruct n. Qed.

(** [expand] passes over the leaves in front of a node. *)
Lemma expand_leaves pPath pp before rest x :
  Forall (λ n, isLeaf n = true) before →
  Tpl.expand toAbsolutePath pPath pp (before ++ rest) x
  = xbind (Tpl.expand toAbsolutePath pPath pp rest x)
      (λ pp r, (pp, XOk (before ++ r))).
Proof.
  induction 1 as [|n before Hn _ IH]; cbn [app Tpl.expand].
  - by destruct (Tpl.expand _ _ _ _ _) as [? []].
  - rewrite expandNode_leaf by done. cbn [xbind]. rewrite IH.
    clear IH. by destruct (Tpl.expand _ _ _ rest _) as [? []].
Qed.

Lemma expand_stops pPath pp before n after x pp' e :
  Forall (λ n, isLeaf n = true) before →
  Tpl.expandNode toAbsolutePath pPath pp n = (pp', XErr e) →
  Tpl.expand toAbsolutePath pPath pp (before ++ n :: after) x = (pp', XErr e).
Proof.
  intros Hb Hn. rewrite expand_leaves by done. cbn [Tpl.expand].
  by rewrite Hn.
Qed.

(** A path that is neither being expanded nor in the cache is read. *)
Lemma parsePath_reads fuel pp path x :
  path ∉ paths pp → completed (trees pp) !! (path, x) = None →
  (path, x) ∉ reserved (trees pp) →
  parsePath (S fuel) pp path x
  = deferDone path x
      match read path x with
      | inl err =>
          (mkExpansion
             (mkCache (completed (trees pp))
                ({[ (path, x) ]} ∪ reserved (trees pp))) (paths pp),
           XErr err)
      | inr t =>
          match Tpl.expand toAbsolutePath (parsePath fuel)
                  (mkExpansion
                     (mkCache (completed (trees pp))
                        ({[ (path, x) ]} ∪ reserved (trees pp)))
                     (paths pp ++ [path]))
                  (TNodes t) x with
          | (pp, XOk nodes) =>
              (mkExpansion
                 (cacheAdd (trees pp) path x (mkTree path nodes (TCtx t)))
                 (removelast (paths pp)),
               XOk (mkTree path nodes (TCtx t)))
          | (pp, XErr err) => (pp, XErr (fillPath path err))
          | (pp, XBlocked) => (pp, XBlocked)
          | (pp, XPanic s) => (pp, XPanic s)
          | (pp, XOutOfFuel) => (pp, XOutOfFuel)
          end
      end.
Proof.
  intros Hp Hc Hr. cbn [Tpl.parsePath].
  rewrite bool_decide_eq_false_2 by done. unfold cacheGet. rewrite Hc.
  rewrite bool_decide_eq_false_2 by done. cbn [trees paths].
  destruct (read path x); [done|].
  by destruct (Tpl.expand _ _ _ _ _) as [? []].
Qed.

Lemma parsePath_read_error fuel pp path x err :
  path ∉ paths pp → completed (trees pp) !! (path, x) = None →
  (path, x) ∉ reserved (trees pp) → read path x = inl err →
  parsePath (S fuel) pp path x = (pp, XErr err).
Proof.
  intros Hp Hc Hr He. rewrite parsePath_reads by done. rewrite He.
  unfold deferDone, cacheDone. cbn. rewrite release_reserved by done.
  by destruct pp as [[] ?].
Qed.

Lemma expandNode_directive pPath pp d p npath nctx tr :
  (d = DExtends → (length (paths pp) ≤ 1)%nat) →
  Tpl.expandNode toAbsolutePath pPath pp (directiveNode d p npath nctx tr)
  = xbind (Tpl.attach toAbsolutePath pPath (notExistFormat d)
             match d with DInclude => "include " | _ => "imports " end
             pp p npath nctx)
      (λ pp t, (pp, XOk (directiveNode d p npath nctx t))).
Proof.
  intros Hd. destruct d; cbn [directiveNode Tpl.expandNode notExistFormat];
    [|done..].
  rewrite bool_decide_eq_false_2; [done|]. specialize (Hd eq_refl). lia.
Qed.

(** X18.  A file without directives is returned as it was read.  If the
    nodes that the reader gives for a path new to the cache hold no
    [Extends], [Import] or [Include] in any place that [expand] visits,
    [Parse] succeeds with fuel for one call: the tree has the nodes as they
    were read and the cleaned path as its [Path], and it is added to the
    cache, which is otherwise unchanged. *)
Theorem Parse_directive_free (fuel : nat) (c : cache) (path ap : string)
    (x : Context) (t : TreeData) :
  path ≠ EmptyString →
  toAbsolutePath "/" (if headIsSlash path then dropHead path else path)
  = inr ap →
  completed c !! (ap, x) = None → (ap, x) ∉ reserved c →
  read ap x = inr t →
  forallb directiveFree (TNodes t) = true →
  Parse (S fuel) c path x
  = (cacheAdd c ap x (mkTree ap (TNodes t) (TCtx t)),
     XOk (mkTree ap (TNodes t) (TCtx t))).
Proof.
  intros Hpath Hap Hc Hr Ht Hfree. unfold Tpl.Parse.
  destruct path as [|ch rest]; [done|]. rewrite Hap.
  rewrite parsePath_reads by (cbn; done || apply not_elem_of_nil).
  rewrite Ht. rewrite expand_free by done.
  unfold deferDone, cacheDone, cacheAdd.
  cbn [fst snd trees paths completed reserved].
  by rewrite release_reserved.
Qed.

Section Scenario.

Context (c : cache) (path ap bp npath : string) (x nctx : Context).
Context (d : directive) (p : Position) (t : TreeData).
Context (before after : list Node) (tr : option Node).

Hypothesis path_given : path ≠ EmptyString.
Hypothesis path_clean :
  toAbsolutePath "/" (if headIsSlash path then dropHead path else path)
  = inr ap.
Hypothesis page : read ap x = inr t.
Hypothesis page_nodes :
  TNodes t = before ++ directiveNode d p npath nctx tr :: after.
Hypothesis before_leaves : Forall (λ n, isLeaf n = true) before.
Hypothesis target :
  ∀ trs, abs toAbsolutePath (mkExpansion trs [ap]) npath = XOk bp.
Hypothesis page_new : completed c !! (ap, x) = None.
Hypothesis page_free : (ap, x) ∉ reserved c.

(** What [Parse] comes to when the directive of the page fails with [e]
    and the cache of the target's [parsePath] call is as before it. *)
Lemma Parse_directive_fails fuel e ps :
  (∀ pp1, pp1 = mkExpansion
                  (mkCache (completed c) ({[ (ap, x) ]} ∪ reserved c)) [ap] →
     parsePath (S fuel) pp1 bp nctx
     = (mkExpansion (trees pp1) ps, XErr e)) →
  Parse (S (S fuel)) c path x
  = (c, XErr match directiveError (notExistFormat d)
                     match d with DInclude => "include " | _ => "imports " end
                     p npath bp e with
             | SyntaxError EmptyString q m => SyntaxError ap q m
             | SyntaxError _ _ _ as err => err
             | CycleError chain => CycleError (ap +:+ nl +:+ tab +:+ chain)
             | err => err
             end).
Proof.
  intros He. unfold Tpl.Parse. destruct path as [|ch rest]; [done|].
  rewrite path_clean.
  rewrite parsePath_reads by (cbn; done || apply not_elem_of_nil).
  rewrite page, page_nodes. cbn [paths trees app].
  erewrite expand_stops; [|done|]; cycle 1.
  { rewrite expandNode_directive by (cbn; lia). unfold Tpl.attach.
    rewrite target. rewrite (He _ eq_refl). cbn [xbind]. reflexivity. }
  unfold deferDone, cacheDone. cbn [fst snd trees paths completed reserved].
  rewrite release_reserved by done.
  destruct c as [cm cr]. cbn [completed reserved].
  f_equal. f_equal.
  destruct (directiveError _ _ _ _ _ _) as [| | |q ? ?|?|?]; try done.
  cbn [fillPath]. by destruct q, ap.
Qed.

(** X19.  A directive for the file it stands in is a cycle.  If the
    directive of the page resolves to the page itself, [Parse] fails with a
    [CycleError] whose chain is the path, a newline, a tab, then "include "
    for an [Include] and "imports " for an [Import] and for an [Extends]
    alike, then the path again; the cache is left as it was. *)
Theorem directive_on_open_path (fuel : nat) :
  bp = ap → (2 ≤ fuel)%nat →
  Parse fuel c path x
  = (c, XErr (CycleError
                (ap +:+ nl +:+ tab
                 +:+ match d with DInclude => "include " | _ => "imports " end
                 +:+ ap))).
Proof.
  intros Hsame Hfuel.
  destruct fuel as [|[|fuel]]; [lia..|].
  rewrite (Parse_directive_fails fuel (CycleError ap) [ap]).
  - reflexivity.
  - intros pp1 ->. cbn [Tpl.parsePath paths trees]. rewrite Hsame.
    rewrite bool_decide_eq_true_2 by apply list_elem_of_singleton, eq_refl.
    reflexivity.
Qed.

(** From here on the target is another path, new to the cache. *)
Hypothesis other : bp ≠ ap.
Hypothesis target_new : completed c !! (bp, nctx) = None.
Hypothesis target_free : (bp, nctx) ∉ reserved c.

(** X20.  A directive whose target cannot be read.  The page is read,
    the nodes before the directive are passed over, the target is another
    path that is new to the cache.  If the reader answers [ErrNotExist],
    [Parse] fails with a syntax error at the position of the directive, in
    the page (not in the target), that names the resolved path of the
    target with the format of the directive; if it answers
    [ErrInvalidPath], with a plain error that names the path as written and
    the position; [ErrReadTooLarge] comes back as it is.  In each case the
    cache is left as it was. *)
Theorem directive_target_missing (fuel : nat) :
  (2 ≤ fuel)%nat →
  (read bp nctx = inl ErrNotExist →
     Parse fuel c path x
     = (c, XErr (SyntaxError ap p (Errorf (notExistFormat d) [AQuoted bp]))))
  ∧ (read bp nctx = inl ErrInvalidPath →
       Parse fuel c path x
       = (c, XErr (PlainError (Errorf "invalid path %q at %s"
                                 [AQuoted npath; APos p]))))
  ∧ (read bp nctx = inl ErrReadTooLarge →
       Parse fuel c path x = (c, XErr ErrReadTooLarge)).
Proof.
  intros Hfuel. destruct fuel as [|[|fuel]]; [lia..|].
  assert (Hfail : ∀ e, read bp nctx = inl e →
            ∀ pp1, pp1 = mkExpansion
                           (mkCache (completed c)
                              ({[ (ap, x) ]} ∪ reserved c)) [ap] →
            parsePath (S fuel) pp1 bp nctx
            = (mkExpansion (trees pp1) [ap], XErr e)).
  { intros e He pp1 ->. cbn [trees]. apply parsePath_read_error; cbn; try done.
    - by intros ->%list_elem_of_singleton.
    - rewrite elem_of_union, elem_of_singleton. intros [[=]|]; done. }
  split; [|split]; intros He;
    rewrite (Parse_directive_fails fuel _ [ap] (Hfail _ He));
    cbn [directiveError]; done.
Qed.

(** X21.  [Extends] is refused below the top.  If the target of the
    directive of the page (an [Include], an [Import] or an [Extends]) has an
    [Extends] after nodes that are passed over, [Parse] of the page fails
    with "extended, imported and included paths can not have extends", at
    the position of that [Extends] and in the target file; the cache is
    left as it was. *)
Theorem extends_refused_below_top (fuel : nat) (tb : TreeData)
    (before' after' : list Node) (p' : Position) (q : string) (qc : Context)
    (tr' : option Node) :
  (2 ≤ fuel)%nat →
  read bp nctx = inr tb →
  TNodes tb = before' ++ NExtends p' q qc tr' :: after' →
  Forall (λ n, isLeaf n = true) before' →
  bp ≠ EmptyString →
  Parse fuel c path x
  = (c, XErr (SyntaxError bp p'
                (Errorf "extended, imported and included paths can not have extends" []))).
Proof.
  intros Hfuel Hb Hnodes Hleaves Hbp.
  destruct fuel as [|[|fuel]]; [lia..|].
  rewrite (Parse_directive_fails fuel
             (SyntaxError bp p'
                (Errorf "extended, imported and included paths can not have extends" []))
             [ap; bp]).
  - cbn [directiveError]. by destruct bp.
  - intros pp1 ->. rewrite parsePath_reads; cbn [paths trees completed reserved];
      try done; cycle 1.
    { by intros ->%list_elem_of_singleton. }
    { rewrite elem_of_union, elem_of_singleton. intros [[=]|]; done. }
    rewrite Hb, Hnodes.
    erewrite expand_stops; [|done|]; cycle 1.
    { cbn [Tpl.expandNode paths app length].
      rewrite bool_decide_eq_true_2 by lia. reflexivity. }
    unfold deferDone, cacheDone. cbn [fst snd trees paths completed reserved].
    rewrite release_reserved; cycle 1.
    { rewrite elem_of_union, elem_of_singleton. intros [[=]|]; done. }
    f_equal.
Qed.

End Scenario.

End DirectiveFacts.

Lemma bare_unfold (n : Node) :
  bare n
  = match n with
    | NIf p cond then_ else_ =>
        NIf p cond (map bare then_)
          match else_ with
          | Some (NIf _ _ _ _ as e) => Some (bare e)
          | Some (NBlock ns) => Some (NBlock (map bare ns))
          | _ => else_
          end
    | NFor body => NFor (map bare body)
    | NForRange body => NForRange (map bare body)
    | NMacro name body => NMacro name (map bare body)
    | NSwitch cases => NSwitch (bareCases cases)
    | NTypeSwitch cases => NTypeSwitch (bareCases cases)
    | NExtends p npath nctx _ => NExtends p npath nctx None
    | NImport p npath nctx _ => NImport p npath nctx None
    | NInclude p npath nctx _ => NInclude p npath nctx None
    | _ => n
    end.
Proof.
  assert (Hall : ∀ ns,
    (fix go (ns : list Node) : list Node :=
       match ns with
       | [] => []
       | m :: ms => bare m :: go ms
       end) ns = map bare ns).
  { induction ns as [|m ms IH]; [done|]. cbn [map]. by rewrite IH. }
  assert (Hcases : ∀ cs,
    (fix go (cs : list Node) : list Node :=
       match cs with
       | [] => []
       | NCase p es body ft :: cs' =>
           NCase p es
             ((fix go (ns : list Node) : list Node :=
                 match ns with
                 | [] => []
                 | m :: ms => bare m :: go ms
                 end) body) ft :: go cs'
       | c :: cs' => c :: go cs'
       end) cs = bareCases cs).
  { induction cs as [|c cs IH]; [done|].
    destruct c; cbn [bareCases]; by rewrite ?IH, ?Hall. }
  destruct n; cbn [bare]; by rewrite ?Hall, ?Hcases.
Qed.

(** *** What [expand] changes *)

Section BareFacts.

Context (toAbsolutePath : string → string → error + string).
Context (pPath : expansion → string → Context → expansion * xres TreeData).

Abbreviation expandNode := (Tpl.expandNode toAbsolutePath pPath).
Abbreviation expand := (Tpl.expand toAbsolutePath pPath).
Abbreviation expandCases := (TplX.expandCases toAbsolutePath pPath).

Lemma xbind_ok {A B} (m : expansion * xres A)
    (k : expansion → A → expansion * xres B) pp' b :
  xbind m k = (pp', XOk b) →
  ∃ pp1 a, m = (pp1, XOk a) ∧ k pp1 a = (pp', XOk b).
Proof. destruct m as [pp1 [a| | | |]]; cbn; try done. by exists pp1, a. Qed.

Lemma expand_bare_from (k : nat) :
  (∀ n, (nodeSize n ≤ k)%nat →
        ∀ pp pp' n', expandNode pp n = (pp', XOk n') → bare n' = bare n) →
  ∀ ns, (nodesSize ns ≤ k)%nat →
        ∀ pp pp' ns' x, expand pp ns x = (pp', XOk ns') →
                        map bare ns' = map bare ns.
Proof.
  intros Hn ns. induction ns as [|m ms IH]; intros Hs pp pp' ns' x H.
  { by injection H as <- <-. }
  cbn [nodesSize] in Hs. cbn [Tpl.expand] in H.
  apply xbind_ok in H as (pp1 & m' & Hm & H).
  apply xbind_ok in H as (pp2 & ms' & Hms & H).
  injection H as <- <-. cbn [map]. f_equal.
  - eapply Hn; [|exact Hm]. lia.
  - eapply IH; [|exact Hms]. lia.
Qed.

Lemma expandCases_bare_from (k : nat) :
  (∀ ns, (nodesSize ns ≤ k)%nat →
         ∀ pp pp' ns' x, expand pp ns x = (pp', XOk ns') →
                         map bare ns' = map bare ns) →
  ∀ cs, (nodesSize cs ≤ S k)%nat →
        ∀ pp pp' cs', expandCases pp cs = (pp', XOk cs') →
                      bareCases cs' = bareCases cs.
Proof.
  intros Hn cs. induction cs as [|c cs IH]; intros Hs pp pp' cs' H.
  { by injection H as <- <-. }
  cbn [nodesSize] in Hs. pose proof (nodeSize_pos c).
  destruct c; cbn [TplX.expandCases] in H;
    try (apply xbind_ok in H as (pp1 & cs1 & Hcs & H);
         injection H as <- <-; cbn [bareCases]; f_equal;
         eapply IH; [|exact Hcs]; lia).
  rewrite nodeSize_unfold in Hs.
  apply xbind_ok in H as (pp1 & body' & Hb & H).
  apply xbind_ok in H as (pp2 & cs1 & Hcs & H).
  injection H as <- <-. cbn [bareCases]. f_equal.
  - f_equal. eapply Hn; [|exact Hb]. lia.
  - eapply IH; [|exact Hcs]. lia.
Qed.

Lemma attach_ok fmt pre pp pp' p npath nctx t :
  Tpl.attach toAbsolutePath pPath fmt pre pp p npath nctx = (pp', XOk t) →
  ∃ absPath tree,
    abs toAbsolutePath pp npath = XOk absPath
    ∧ pPath pp absPath nctx = (pp', XOk tree)
    ∧ t = Some (treeNode tree).
Proof.
  unfold Tpl.attach. destruct (abs _ _ _) as [a| | | |]; try done.
  destruct (pPath pp a nctx) as [pp1 [tree| | | |]] eqn:Hp; try done.
  intros [= <- <-]. by exists a, tree.
Qed.

Lemma expandNode_bare_size (k : nat) :
  ∀ n, (nodeSize n ≤ k)%nat →
       ∀ pp pp' n', expandNode pp n = (pp', XOk n') → bare n' = bare n.
Proof.
  induction k as [|k IH]; intros n Hn pp pp' n' H.
  { pose proof (nodeSize_pos n). lia. }
  pose proof (expand_bare_from k IH) as Hns.
  pose proof (expandCases_bare_from k Hns) as Hcs.
  rewrite (expandNode_unfold toAbsolutePath pPath pp n ContextNone) in H.
  rewrite nodeSize_unfold in Hn. rewrite (bare_unfold n).
  destruct n; try (by injection H as <- <-; rewrite bare_unfold).
  - apply xbind_ok in H as (pp1 & then' & Ht & H).
    assert (Hthen : map bare then' = map bare then_).
    { eapply Hns; [|exact Ht]. lia. }
    destruct else_ as [[]|];
      try (injection H as <- <-; rewrite bare_unfold; by rewrite Hthen).
    + apply xbind_ok in H as (pp2 & e' & He & H). injection H as <- <-.
      rewrite bare_unfold, Hthen.
      pose proof He as He'. apply IH in He'; [|lia].
      rewrite (expandNode_unfold toAbsolutePath pPath pp1 _ ContextNone) in He.
      apply xbind_ok in He as (? & ? & _ & He).
      destruct else_ as [[]|];
        try (apply xbind_ok in He as (? & ? & _ & He));
        injection He as <- <-; by rewrite He'.
    + apply xbind_ok in H as (pp2 & ns' & Hb & H). injection H as <- <-.
      rewrite bare_unfold, Hthen. do 3 f_equal.
      rewrite nodeSize_unfold in Hn. eapply Hns; [|exact Hb]. lia.
  - apply xbind_ok in H as (pp1 & body' & Hb & H). injection H as <- <-.
    rewrite bare_unfold. f_equal. eapply Hns; [|exact Hb]. lia.
  - apply xbind_ok in H as (pp1 & body' & Hb & H). injection H as <- <-.
    rewrite bare_unfold. f_equal. eapply Hns; [|exact Hb]. lia.
  - apply xbind_ok in H as (pp1 & cs' & Hb & H). injection H as <- <-.
    rewrite bare_unfold. f_equal. eapply Hcs; [|exact Hb]. lia.
  - apply xbind_ok in H as (pp1 & cs' & Hb & H). injection H as <- <-.
    rewrite bare_unfold. f_equal. eapply Hcs; [|exact Hb]. lia.
  - apply xbind_ok in H as (pp1 & body' & Hb & H). injection H as <- <-.
    rewrite bare_unfold. f_equal. eapply Hns; [|exact Hb]. lia.
  - case_bool_decide; [done|].
    apply xbind_ok in H as (pp1 & t' & _ & H). by injection H as <- <-.
  - apply xbind_ok in H as (pp1 & t' & _ & H). by injection H as <- <-.
  - apply xbind_ok in H as (pp1 & t' & _ & H). by injection H as <- <-.
Qed.

Lemma expand_lookup pp pp' ns ns' x i n :
  expand pp ns x = (pp', XOk ns') → ns !! i = Some n →
  ∃ pp1 pp2 n', expandNode pp1 n = (pp2, XOk n') ∧ ns' !! i = Some n'.
Proof.
  revert pp ns' i. induction ns as [|m ms IH]; intros pp ns' i H Hi; [done|].
  cbn [Tpl.expand] in H.
  apply xbind_ok in H as (pp1 & m' & Hm & H).
  apply xbind_ok in H as (pp2 & ms' & Hms & H).
  injection H as <- <-. destruct i as [|i].
  - injection Hi as <-. by exists pp, pp1, m'.
  - by apply (IH pp1 ms' i).
Qed.

(** X22.  [expand] only attaches trees.  When it succeeds, the nodes it
    returns are the nodes it was given but for the [Tree] fields of the
    directives: their number and their order are the same, and each
    directive at the top level carries the tree that [parsePath] returned
    for its path, resolved by [abs]. *)
Theorem expand_only_attaches (pp pp' : expansion) (ns ns' : list Node)
    (x : Context) :
  expand pp ns x = (pp', XOk ns') →
  map bare ns' = map bare ns
  ∧ length ns' = length ns
  ∧ ∀ i d p npath nctx tr,
      ns !! i = Some (directiveNode d p npath nctx tr) →
      ∃ pp1 pp2 absPath tree,
        abs toAbsolutePath pp1 npath = XOk absPath
        ∧ pPath pp1 absPath nctx = (pp2, XOk tree)
        ∧ ns' !! i
          = Some (directiveNode d p npath nctx (Some (treeNode tree))).
Proof.
  intros H.
  assert (Hbare : map bare ns' = map bare ns).
  { eapply (expand_bare_from (nodesSize ns)); [|done|exact H].
    intros n _. apply (expandNode_bare_size (nodeSize n)). done. }
  split; [done|]. split.
  { by rewrite <- (length_map bare ns'), Hbare, length_map. }
  intros i d p npath nctx tr Hi.
  destruct (expand_lookup _ _ _ _ _ _ _ H Hi) as (pp1 & pp2 & n' & Hn & Hi').
  assert (Hx : ∃ fmt pre t,
            Tpl.attach toAbsolutePath pPath fmt pre pp1 p npath nctx
            = (pp2, XOk t)
            ∧ n' = directiveNode d p npath nctx t).
  { destruct d; cbn [directiveNode Tpl.expandNode] in Hn;
      [case_bool_decide; [done|]| |];
      apply xbind_ok in Hn as (pp3 & t & Hat & Hn);
      injection Hn as <- <-; by eexists _, _, t. }
  destruct Hx as (fmt & pre & t & Hat & ->).
  apply attach_ok in Hat as (absPath & tree & Habs & Hp & ->).
  by exists pp1, pp2, absPath, tree.
Qed.

End BareFacts.

(** *** The loop of [ParseSource] *)

Section ParserXFacts.

Context (parseExprList :
           option token → bool → bool → bool → bool → list token →
           outcome (option (list Expression) * token * list token)).
Context (parseSwitch : parsing → Position → outcome (Node * list token)).
Context (unquoteString : string → string) (validPath : string → bool).

Abbreviation parseToken :=
  (Tpl.parseToken parseExprList parseSwitch unquoteString validPath).
Abbreviation parseLines :=
  (TplX.parseLines parseExprList parseSwitch unquoteString validPath).
Abbreviation ParseSourceLines :=
  (TplX.ParseSourceLines parseExprList parseSwitch unquoteString validPath).

(** X23.  Between a switch and its first case.  With a [Switch] or a
    [TypeSwitch] that has no case yet as the parent: a statement other than
    [case], [default] and [end] is refused with "unexpected ..., expecting
    case of default or {% end %}"; in a [Switch] a text of white space only
    is dropped and any other text is refused with the like message; but in
    a [TypeSwitch] a text, and in both a comment, reaches [addChild], which
    indexes the last case of an empty list: a run-time panic, which
    [ParseSource] does not recover. *)
Theorem before_first_case (p : parsing) (tok : token) (parent : Node) :
  last (ancestors p) = Some parent →
  parent = NSwitch [] ∨ parent = NTypeSwitch [] →
  (typ tok = tokenText →
     parseToken p tok
     = if isTypeSwitch parent then GoPanic "index out of range"
       else if containsOnlySpaces (txt tok) then Done p
       else Fail (SyntaxError EmptyString (Tpl.pos tok)
                    (Errorf "unexpected text, expecting case of default or {%% end %%}" [])))
  ∧ (typ tok = tokenComment →
       parseToken p tok = GoPanic "index out of range")
  ∧ (typ tok = tokenStartStatement → pctx p ≠ ContextNone →
       ∀ tok' rest,
         lex p = tok' :: rest →
         typ tok' ≠ tokenCase → typ tok' ≠ tokenDefault →
         typ tok' ≠ tokenEnd →
         parseToken p tok
         = Fail (SyntaxError EmptyString (Tpl.pos tok')
                   (Errorf "unexpected %s, expecting case of default or {%% end %%}"
                      [ATok tok']))).
Proof.
  intros Hlast Hparent. split; [|split].
  - intros Htok. unfold Tpl.parseToken. rewrite Hlast, Htok.
    destruct Hparent as [-> | ->]; cbn [isTypeSwitch last].
    + done.
    + unfold addToParent. rewrite Hlast. reflexivity.
  - intros Htok. unfold Tpl.parseToken. rewrite Hlast, Htok.
    unfold addToParent. rewrite Hlast.
    by destruct Hparent as [-> | ->].
  - intros Htok Hctx tok' rest Hlex H1 H2 H3.
    unfold Tpl.parseToken. rewrite Hlast, Htok.
    unfold Tpl.parseStatement. rewrite bool_decide_eq_true_2 by done.
    unfold next. rewrite Hlex. cbn [outcome_bind].
    change (ancestors (set_lex p rest)) with (ancestors p). rewrite Hlast.
    assert (Hl : bool_decide
                   (match parent with
                    | NSwitch cases | NTypeSwitch cases =>
                        Z.of_nat (length cases)
                    | _ => -1
                    end = 0) = true).
    { by destruct Hparent as [-> | ->]. }
    rewrite Hl. rewrite bool_decide_eq_true_2 by done. reflexivity.
Qed.

(** While no statement or comment has set [cutSpacesToken], the start of a
    line cuts nothing and leaves the parsing state as it is. *)
Lemma startLine_idle srcEnd v p tok :
  cutSpacesToken p = false →
  ∃ v', startLine srcEnd v p tok = Done (v', p).
Proof.
  intros Hc. unfold startLine. case_bool_decide; [|by eexists].
  rewrite Hc. cbn [andb]. eexists. f_equal. f_equal.
  destruct p; cbn in *. by subst.
Qed.

Lemma parseLines_texts (toks : list token) (eof : token) :
  Forall (λ t, typ t = tokenText) toks → typ eof = tokenEOF →
  ∀ fuel srcEnd v acc path c le e m lfp,
    (length toks < fuel)%nat →
    parseLines fuel srcEnd v
      (mkParsing (toks ++ [eof]) le e m false c [NTree path acc c] lfp)
    = Done (mkParsing [] le e m false c
              [NTree path (acc ++ map textNode toks) c] lfp).
Proof.
  intros Htoks Heof. induction Htoks as [|t toks Ht _ IH];
    intros fuel srcEnd v acc path c le e m lfp Hfuel.
  - destruct fuel as [|fuel]; [cbn in Hfuel; lia|].
    cbn [app TplX.parseLines lex]. unfold parseTokenInLine.
    destruct (startLine_idle srcEnd v
                (set_lex (mkParsing [eof] le e m false c [NTree path acc c]
                            lfp) []) eof) as [v' ->]; [done|].
    cbn [outcome_bind]. unfold Tpl.parseToken.
    cbn [set_lex ancestors last lex lexErr isExtended isInMacro
           cutSpacesToken pctx lastFallthroughTokenPos].
    rewrite Heof. rewrite bool_decide_eq_false_2 by (cbn; lia).
    cbn [outcome_bind]. destruct fuel; cbn [TplX.parseLines lex map];
      by rewrite app_nil_r.
  - destruct fuel as [|fuel]; [cbn in Hfuel; lia|].
    cbn [app TplX.parseLines lex]. unfold parseTokenInLine.
    destruct (startLine_idle srcEnd v
                (set_lex (mkParsing (t :: toks ++ [eof]) le e m false c
                            [NTree path acc c] lfp) (toks ++ [eof])) t)
      as [v' ->]; [done|].
    cbn [outcome_bind]. unfold Tpl.parseToken.
    cbn [set_lex ancestors last lex lexErr isExtended isInMacro
           cutSpacesToken pctx lastFallthroughTokenPos].
    rewrite Ht. unfold addToParent.
    cbn [ancestors last addChild outcome_bind set_ancestors set_lex
           removelast app lex lexErr isExtended isInMacro cutSpacesToken pctx
           lastFallthroughTokenPos].
    unfold set_ancestors, set_lex.
    cbn [lex lexErr isExtended isInMacro cutSpacesToken pctx
           lastFallthroughTokenPos].
    rewrite IH by (cbn in Hfuel; lia).
    cbn [map]. by rewrite <- app_assoc.
Qed.

(** X24.  A source of text only parses to its texts.  In a template
    context, for tokens that are all [Text] followed by [EOF], whatever
    their lines and positions and the length of the source, [ParseSource]
    returns a tree with an empty path, the context, and one [Text] node for
    each token, in order.  No [Cut] is written: [cutSpacesToken] is never
    set, so the start of a line never calls [cutSpaces].  The collaborators
    of the parser play no part. *)
Theorem text_only_source (srcLen : Z) (toks : list token) (eof : token)
    (c : Context) :
  c = ContextText ∨ c = ContextHTML ∨ c = ContextCSS ∨ c = ContextScript →
  Forall (λ t, typ t = tokenText) toks → typ eof = tokenEOF →
  ParseSourceLines srcLen (toks ++ [eof]) c
  = Done (NTree EmptyString (map textNode toks) c).
Proof.
  intros Hc Htoks Heof. unfold TplX.ParseSourceLines.
  rewrite bool_decide_eq_true_2 by done. unfold newParsing.
  rewrite parseLines_texts by (done || rewrite length_app; cbn; lia).
  reflexivity.
Qed.

End ParserXFacts.

(** *** Examples *)

Lemma wellKeyed_empty : wellKeyed emptyCache.
Proof.
  intros path x t H. unfold emptyCache in H. cbn [completed] in H.
  by rewrite lookup_empty in H.
Qed.

Lemma Parse_leaves_cache_tidy_witness :
  wellKeyed
    (Tpl.Parse joinPath (sampleRead DInclude "part") 2 emptyCache "/page"
       ContextHTML).1.
Proof.
  apply (proj1 (proj2 (proj2
           (Parse_leaves_cache_tidy joinPath (sampleRead DInclude "part") 2
              emptyCache "/page" ContextHTML)))).
  exact wellKeyed_empty.
Defined.

Lemma Parse_twice_reads_once_witness :
  Tpl.Parse joinPath (λ _ _, inl ErrNotExist) 1
    (cacheAdd emptyCache "/base" ContextHTML
       (mkTree "/base" [NText "base" (mkCut 0 0)] ContextHTML))
    "/base" ContextHTML
  = (cacheAdd emptyCache "/base" ContextHTML
       (mkTree "/base" [NText "base" (mkCut 0 0)] ContextHTML),
     XOk (mkTree "/base" [NText "base" (mkCut 0 0)] ContextHTML)).
Proof.
  apply (Parse_twice_reads_once joinPath (sampleRead DInclude "part")
           (λ _ _, inl ErrNotExist) 1 0 emptyCache).
  vm_compute. reflexivity.
Defined.

Lemma directive_target_missing_witness :
  Tpl.Parse joinPath (sampleRead DInclude "gone") 2 emptyCache "/page"
    ContextHTML
  = (emptyCache,
     XErr (SyntaxError "/page" (mkPos 1 6 5 25)
             (Errorf "included path %q does not exist" [AQuoted "/gone"]))).
Proof.
  refine (proj1 (directive_target_missing joinPath
                   (sampleRead DInclude "gone") emptyCache "/page" "/page"
                   "/gone" "gone" ContextHTML ContextHTML DInclude
                   (mkPos 1 6 5 25) _ [NText "hello" (mkCut 0 0)] [] None
                   _ _ _ _ _ _ _ _ _ _ _ 2 _) _);
    try reflexivity; try done; try (by repeat constructor);
    apply not_elem_of_empty.
Defined.

Lemma extends_refused_below_top_witness :
  Tpl.Parse joinPath (sampleRead DInclude "part") 2 emptyCache "/page"
    ContextHTML
  = (emptyCache,
     XErr (SyntaxError "/part" (mkPos 1 1 0 20)
             (Errorf "extended, imported and included paths can not have extends" []))).
Proof.
  refine (extends_refused_below_top joinPath
            (sampleRead DInclude "part") emptyCache "/page" "/page"
            "/part" "part" ContextHTML ContextHTML DInclude
            (mkPos 1 6 5 25) _ [NText "hello" (mkCut 0 0)] [] None
            _ _ _ _ _ _ _ _ _ _ _ 2 _ [] [] (mkPos 1 1 0 20) "/base"
            ContextHTML None _ _ _ _ _);
    try reflexivity; try done; try (by repeat constructor);
    apply not_elem_of_empty.
Defined.

Lemma Parse_directive_free_witness :
  Tpl.Parse joinPath (sampleRead DInclude "part") 1 emptyCache "/base"
    ContextHTML
  = (cacheAdd emptyCache "/base" ContextHTML
       (mkTree "/base" [NText "base" (mkCut 0 0)] ContextHTML),
     XOk (mkTree "/base" [NText "base" (mkCut 0 0)] ContextHTML)).
Proof.
  refine (Parse_directive_free joinPath (sampleRead DInclude "part") 0
            emptyCache "/base" "/base" ContextHTML
            (mkTree EmptyString [NText "base" (mkCut 0 0)] ContextHTML)
            _ _ _ _ _ _);
    try reflexivity; try done; apply not_elem_of_empty.
Defined.

Lemma abs_resolves_against_parent_witness :
  abs joinPath (mkExpansion emptyCache ["/dir/page"]) "part"
  = XOk "/dir/part".
Proof.
  refine (proj1 (proj2 (proj2 (proj2
            (abs_resolves_against_parent joinPath
               (mkExpansion emptyCache ["/dir/page"]) "part")) _ _))
            [] "/dir" "page" _ _);
    try reflexivity; done.
Defined.

Lemma cutSpaces_cuts_blank_line_ends_witness :
  let nlc := Ascii.ascii_of_nat 10 in
  let spc := Ascii.ascii_of_nat 32 in
  let tbc := Ascii.ascii_of_nat 9 in
  let xc := Ascii.ascii_of_nat 120 in
  cutSpaces (Some (mkText [xc; nlc; spc; tbc] (mkCut 0 0)))
    (Some (mkText [spc; nlc; xc] (mkCut 0 0)))
  = (Some (mkText [xc; nlc; spc; tbc] (mkCut 0 2)),
     Some (mkText [spc; nlc; xc] (mkCut 2 0))).
Proof.
  intros nlc spc tbc xc.
  refine (proj1 (proj1
            (cutSpaces_cuts_blank_line_ends
               (mkText [xc; nlc; spc; tbc] (mkCut 0 0))
               (mkText [spc; nlc; xc] (mkCut 0 0))
               [xc; nlc] [spc; tbc] [spc] [nlc; xc] _ _ _ _) _ _));
    try reflexivity; by repeat constructor.
Defined.

Lemma directive_on_open_path_witness :
  Tpl.Parse joinPath (sampleRead DExtends "page") 2 emptyCache "/page"
    ContextHTML
  = (emptyCache,
     XErr (CycleError ("/page" +:+ nl +:+ tab +:+ "imports " +:+ "/page"))).
Proof.
  refine (directive_on_open_path joinPath
            (sampleRead DExtends "page") emptyCache "/page" "/page"
            "/page" "page" ContextHTML ContextHTML DExtends
            (mkPos 1 6 5 25) _ [NText "hello" (mkCut 0 0)] [] None
            _ _ _ _ _ _ _ _ 2 _ _);
    try reflexivity; try done; try (by repeat constructor);
    apply not_elem_of_empty.
Defined.

Lemma expand_only_attaches_witness :
  map bare
    [NInclude (mkPos 1 1 0 20) "base" ContextHTML
       (Some (NTree "/base" [NText "base" (mkCut 0 0)] ContextHTML))]
  = map bare [NInclude (mkPos 1 1 0 20) "base" ContextHTML None].
Proof.
  refine (proj1 (expand_only_attaches joinPath
                   (Tpl.parsePath joinPath (sampleRead DInclude "part") 1)
                   (mkExpansion emptyCache ["/page"]) _
                   [NInclude (mkPos 1 1 0 20) "base" ContextHTML None]
                   [NInclude (mkPos 1 1 0 20) "base" ContextHTML
                      (Some (NTree "/base" [NText "base" (mkCut 0 0)]
                               ContextHTML))]
                   ContextHTML _)).
  vm_compute. reflexivity.
Defined.

Lemma before_first_case_witness :
  Tpl.parseToken identExprList identSwitch stripQuotes anyPath
    (mkParsing [] None false false true ContextHTML
       [NTree EmptyString [NTypeSwitch []] ContextHTML; NTypeSwitch []]
       (mkPos 0 0 0 0))
    (tk tokenText " " 20)
  = GoPanic "index out of range".
Proof.
  refine (proj1 (before_first_case identExprList identSwitch stripQuotes
                   anyPath
                   (mkParsing [] None false false true ContextHTML
                      [NTree EmptyString [NTypeSwitch []] ContextHTML;
                       NTypeSwitch []]
                      (mkPos 0 0 0 0))
                   (tk tokenText " " 20) (NTypeSwitch []) _ _) _);
    [reflexivity|by right|reflexivity].
Defined.

Lemma text_only_source_witness :
  TplX.ParseSourceLines identExprList identSwitch stripQuotes anyPath 2
    [tk tokenText "a" 0; tk tokenText "b" 1; tk tokenEOF EmptyString 2]
    ContextHTML
  = Done (NTree EmptyString
            [NText "a" (mkCut 0 0); NText "b" (mkCut 0 0)] ContextHTML).
Proof.
  refine (text_only_source identExprList identSwitch stripQuotes anyPath 2
            [tk tokenText "a" 0; tk tokenText "b" 1]
            (tk tokenEOF EmptyString 2) ContextHTML _ _ _);
    [by right; left|by repeat constructor|reflexivity].
Defined.

End TplXFacts.
